(** * grpcfd: descriptor transfer over a wrapped Unix-socket connection

    A shallow embedding of the vendored package
    [github.com/edwarnicke/grpcfd] (files [url.go], [connwrap_linux.go]
    and [per_rpc_transport_credentials.go]) together with the properties
    of its identity codec, its connection wrapper and its per-call
    credential adapter.

    Conventions.
    - [uint64], [uintptr] and [int] values are integers in [Z]; the only
      arithmetic that can wrap ([strconv.ParseUint]) has the wrap-around
      written out.
    - A Go result pair [(v, err)] is a sum [V + error].
    - Each closure handed to a [serialize.Executor] is embedded as one
      atomic state transformer: the executor runs its tasks one at a
      time in submission order, so an operation is the sequential
      composition of the tasks it submits.
    - The operating system, the channels and the wrapped [net.Conn] are
      an explicit environment threaded through every operation. *)

From Stdlib Require Import ZArith Ascii String Lia.
From Stdlib.Init Require Import Byte.
From stdpp Require Import base tactics option list gmap.

Local Open Scope Z_scope.

(** ** Errors *)

Inductive Errno := EBADF | EMFILE.

Inductive error :=
| ErrSyntax (s : string)          (* strconv.ErrSyntax, from ParseUint *)
| ErrRange (s : string)           (* strconv.ErrRange, from ParseUint *)
| ErrScheme (scheme : string)     (* scheme must be "inode" not %q *)
| ErrURLParse (n : nat)           (* an error reported by url.Parse *)
| ErrErrno (e : Errno)            (* a failed system call *)
| ErrConnClosed (fd : Z)          (* unable to send fd %d because connection closed *)
| ErrNet (n : nat).               (* an error reported by the wrapped net.Conn *)

(** ** Identity codec ([url.go])

    [url.go] formats with [fmt.Sprintf("%d", _)] and parses with
    [strconv.ParseUint(_, 10, 64)] and [strings.TrimPrefix]; these belong
    to the Go standard library and are written out here as they compute
    on unsigned 64-bit values. *)

Definition maxUint64 : Z := 2 ^ 64 - 1.

(** [uint64(x)]: reduction modulo [2^64]. *)
Definition uint64 (x : Z) : Z := x mod 2 ^ 64.

Definition is_digit (c : ascii) : bool :=
  (48 <=? Z.of_nat (nat_of_ascii c)) && (Z.of_nat (nat_of_ascii c) <=? 57).

Definition digit_val (c : ascii) : Z := Z.of_nat (nat_of_ascii c) - 48.

Definition digit_char (d : Z) : ascii := ascii_of_nat (Z.to_nat (48 + d)).

(** [fmt.Sprintf("%d", u)] on an unsigned value: the loop of [fmtInteger]
    for base 10, which writes the digits from the least significant one
    backwards into the buffer.  A [uint64] has at most 20 digits, which
    bounds the loop. *)
Fixpoint fmtInteger (fuel : nat) (u : Z) (buf : string) : string :=
  match fuel with
  | O => String (digit_char u) buf
  | S fuel' =>
      if 10 <=? u then
        let next := u / 10 in
        fmtInteger fuel' next (String (digit_char (u - next * 10)) buf)
      else String (digit_char u) buf
  end.

Definition Sprintf_d (u : Z) : string := fmtInteger 20 u EmptyString.

(** [strconv.ParseUint(s, 10, 64)].  [cutoff] is the smallest number with
    [cutoff * 10 > maxUint64]; the loop runs over the bytes of [s] with
    the accumulator [n]. *)
Definition cutoff : Z := maxUint64 / 10 + 1.

Fixpoint ParseUint_loop (s0 : string) (n : Z) (s : string) : Z + error :=
  match s with
  | EmptyString => inl n
  | String c s' =>
      if is_digit c then
        let d := digit_val c in
        if cutoff <=? n then inr (ErrRange s0)
        else
          let n10 := uint64 (n * 10) in
          let n1 := uint64 (n10 + d) in
          if (n1 <? n10) || (maxUint64 <? n1) then inr (ErrRange s0)
          else ParseUint_loop s0 n1 s'
      else inr (ErrSyntax s0)
  end.

Definition ParseUint (s : string) : Z + error :=
  match s with
  | EmptyString => inr (ErrSyntax s)
  | _ => ParseUint_loop s 0 s
  end.

(** [strings.TrimPrefix(s, "/")]. *)
Definition TrimPrefix_slash (s : string) : string :=
  match s with
  | String "/"%char s' => s'
  | _ => s
  end.

(** The fields of [url.URL] that the package sets and reads. *)
Record URL := mkURL { Scheme : string; Host : string; Path : string }.

(** [URLToDevIno]. *)
Definition URLToDevIno (u : URL) : (Z * Z) + error :=
  if negb (String.eqb (Scheme u) "inode") then inr (ErrScheme (Scheme u))
  else
    match ParseUint (Host u) with
    | inr err => inr err
    | inl dev =>
        match ParseUint (TrimPrefix_slash (Path u)) with
        | inr err => inr err
        | inl ino => inl (dev, ino)
        end
    end.

(** Whether the first segment of a path (up to its first slash) contains
    a colon. *)
Fixpoint first_segment_has_colon (path : string) : bool :=
  match path with
  | EmptyString => false
  | String "/"%char _ => false
  | String ":"%char _ => true
  | String _ rest => first_segment_has_colon rest
  end.

Section NetURL.
(** [net/url] is outside the repository: its parser and its escaping
    functions are parameters. *)
Variable url_Parse : string -> URL + error.
Variable escapeHost escapePath : string -> string.

(** [URLStringToDevIno]. *)
Definition URLStringToDevIno (urlstr : string) : (Z * Z) + error :=
  match url_Parse urlstr with
  | inr err => inr err
  | inl u => URLToDevIno u
  end.

(** The [String] method of [url.URL] for a URL with only [Scheme], [Host] and [Path]
    set: the scheme and a colon, two slashes and the escaped host, a
    slash when a non-empty path does not start with one and the host is
    not empty, then the escaped path; when nothing precedes a path
    whose first segment contains a colon, [./] is put in front of it. *)
Definition URL_String (u : URL) : string :=
  let scheme :=
    match Scheme u with EmptyString => EmptyString | s => (s ++ ":")%string end in
  let authority :=
    match Scheme u, Host u, Path u with
    | EmptyString, EmptyString, _ => EmptyString
    | _, EmptyString, EmptyString => EmptyString
    | _, h, _ => ("//" ++ match h with EmptyString => EmptyString | _ => escapeHost h end)%string
    end in
  let path := escapePath (Path u) in
  let slash :=
    match path, Host u with
    | EmptyString, _ => EmptyString
    | _, EmptyString => EmptyString
    | String "/"%char _, _ => EmptyString
    | _, _ => "/"%string
    end in
  let dot :=
    match scheme, authority, slash with
    | EmptyString, EmptyString, EmptyString =>
        if first_segment_has_colon path then "./"%string else EmptyString
    | _, _, _ => EmptyString
    end in
  (scheme ++ authority ++ slash ++ dot ++ path)%string.
End NetURL.

(** In the specification's words: a field is a valid non-negative decimal integer
    fitting in 64 bits when it is a non-empty string of decimal digits
    whose value is below [2^64]. *)
Fixpoint all_digits (s : string) : bool :=
  match s with
  | EmptyString => true
  | String c s' => is_digit c && all_digits s'
  end.

Fixpoint decimal_value_from (acc : Z) (s : string) : Z :=
  match s with
  | EmptyString => acc
  | String c s' => decimal_value_from (acc * 10 + digit_val c) s'
  end.

Definition decimal_value (s : string) : Z := decimal_value_from 0 s.

Definition valid_decimal_u64 (s : string) : Prop :=
  s <> EmptyString /\ all_digits s = true /\ decimal_value s <= maxUint64.

(** ** The operating system: descriptors

    The process's descriptor table maps each open descriptor to the file
    it refers to, of which only the [(st_dev, st_ino)] pair matters here;
    [nofile] is the limit on descriptor numbers ([RLIMIT_NOFILE]).  The
    three system calls the package uses follow POSIX: [fstat] and
    [fcntl] fail with [EBADF] on a descriptor that is not open, and
    [F_DUPFD] fails with [EMFILE] when no number below the limit is
    free. *)

Record Stat_t := mkStat { Dev : Z; Ino : Z }.

Record OS := mkOS { fdtable : gmap Z Stat_t; nofile : Z }.

(** [syscall.Fstat(fd, &stat)]. *)
Definition Fstat (os : OS) (fd : Z) : Stat_t + error :=
  match fdtable os !! fd with
  | Some st => inl st
  | None => inr (ErrErrno EBADF)
  end.

(** [syscall.Close(fd)]. *)
Definition sys_close (os : OS) (fd : Z) : OS :=
  mkOS (delete fd (fdtable os)) (nofile os).

(** The lowest free descriptor number below the limit. *)
Definition lowest_free (os : OS) : option Z :=
  snd <$> list_find (fun n => fdtable os !! n = None) (seqZ 0 (nofile os)).

(** [fcntl(fd, F_DUPFD, 0)]: a new descriptor, the lowest free one, for
    the same open file. *)
Definition F_DUPFD (os : OS) (fd : Z) : OS * (Z + Errno) :=
  match fdtable os !! fd with
  | None => (os, inr EBADF)
  | Some st =>
      match lowest_free os with
      | None => (os, inr EMFILE)
      | Some n => (mkOS (<[n := st]> (fdtable os)) (nofile os), inl n)
      end
  end.

(** [FDToURL]. *)
Definition FDToURL (os : OS) (fd : Z) : URL + error :=
  match Fstat os fd with
  | inr err => inr err
  | inl stat => inl (mkURL "inode" (Sprintf_d (Dev stat)) (Sprintf_d (Ino stat)))
  end.

(** ** Channels

    A channel is its buffer (the values sent and not yet received), its
    capacity and whether it has been closed.  Channels live in a heap
    indexed by allocation order; [make] appends.  A send on a closed
    channel and a second close panic; a send on a full buffer (or on a
    channel that does not exist) blocks. *)

Record Chan (V : Type) := mkChan { buf : list V; cap : nat; closed : bool }.
Arguments mkChan {V} _ _ _.
Arguments buf {V} _.
Arguments cap {V} _.
Arguments closed {V} _.

Inductive panic :=
| IndexOutOfRange (i len : nat)
| SliceBoundsOutOfRange (i len : nat)
| SendOnClosedChannel
| CloseOfClosedChannel
| CloseOfNilChannel.

Inductive outcome (A : Type) :=
| Ret (a : A)
| Panics (p : panic)
| Blocks.
Arguments Ret {A} _.
Arguments Panics {A} _.
Arguments Blocks {A}.

Definition chan_make {V} (h : list (Chan V)) (n : nat) : list (Chan V) * nat :=
  (h ++ [mkChan [] n false], length h).

Definition chan_send {V} (h : list (Chan V)) (ch : nat) (v : V)
  : outcome (list (Chan V)) :=
  match h !! ch with
  | None => Blocks
  | Some c =>
      if closed c then Panics SendOnClosedChannel
      else if decide (length (buf c) < cap c)%nat
           then Ret (<[ch := mkChan (buf c ++ [v]) (cap c) false]> h)
           else Blocks
  end.

Definition chan_close {V} (h : list (Chan V)) (ch : nat)
  : outcome (list (Chan V)) :=
  match h !! ch with
  | None => Panics CloseOfNilChannel
  | Some c =>
      if closed c then Panics CloseOfClosedChannel
      else Ret (<[ch := mkChan (buf c) (cap c) true]> h)
  end.

(** ** The connection wrapper ([connwrap_linux.go]) *)

Definition maxFDCount : nat := 64.

Record inodeKey := mkKey { dev : Z; ino : Z }.

#[global] Instance inodeKey_eq_dec : EqDecision inodeKey.
Proof. solve_decision. Defined.

#[global] Instance inodeKey_countable : Countable inodeKey.
Proof.
  refine (inj_countable' (fun k => (dev k, ino k)) (fun p => mkKey p.1 p.2) _).
  by intros [].
Defined.

(** Channels are named by their index in the heap of their type. *)
Record connWrap := mkConnWrap {
  sendFDs : list Z;
  errChs : list nat;
  recvFDChans : gmap inodeKey (list nat);
  recvedFDs : gmap inodeKey Z
}.

(** What the wrapper hands to the wrapped connection: a message with one
    control message of rights ([WriteMsgUnix]) or plain bytes ([Write]). *)
Inductive WireMsg :=
| MsgUnix (b : list byte) (rights : list Z)
| MsgData (b : list byte).

(** The wrapped [net.Conn]: what was written to it so far, oldest first,
    and how many times it was closed. *)
Record Conn := mkConn { wire : list WireMsg; nclose : nat }.

(** The behaviour of the wrapped connection: the error of a
    [WriteMsgUnix], the result of a [Write] and the error of a [Close],
    each in the state the connection is in. *)
Record NetConn := mkNetConn {
  WriteMsgUnix_err : Conn -> list byte -> list Z -> option error;
  Write_res : Conn -> list byte -> Z * option error;
  Close_err : Conn -> option error
}.

(** What [os.NewFile(fd, name)] wraps. *)
Record File := mkFile { file_fd : Z }.

(** A goroutine started by the wrapper and not yet run. *)
Inductive Goroutine :=
| FileRelay (fdCh fileCh : nat).   (* the relay of RecvFile *)

Record World := mkWorld {
  os : OS;
  errHeap : list (Chan error);
  fdHeap : list (Chan Z);
  fileHeap : list (Chan File);
  conn : Conn;
  goroutines : list Goroutine;
  w : connWrap
}.

Definition set_os (f : OS -> OS) (σ : World) : World :=
  mkWorld (f (os σ)) (errHeap σ) (fdHeap σ) (fileHeap σ) (conn σ) (goroutines σ) (w σ).
Definition set_errHeap (h : list (Chan error)) (σ : World) : World :=
  mkWorld (os σ) h (fdHeap σ) (fileHeap σ) (conn σ) (goroutines σ) (w σ).
Definition set_fdHeap (h : list (Chan Z)) (σ : World) : World :=
  mkWorld (os σ) (errHeap σ) h (fileHeap σ) (conn σ) (goroutines σ) (w σ).
Definition set_fileHeap (h : list (Chan File)) (σ : World) : World :=
  mkWorld (os σ) (errHeap σ) (fdHeap σ) h (conn σ) (goroutines σ) (w σ).
Definition set_conn (c : Conn) (σ : World) : World :=
  mkWorld (os σ) (errHeap σ) (fdHeap σ) (fileHeap σ) c (goroutines σ) (w σ).
Definition set_goroutines (g : list Goroutine) (σ : World) : World :=
  mkWorld (os σ) (errHeap σ) (fdHeap σ) (fileHeap σ) (conn σ) g (w σ).
Definition set_w (f : connWrap -> connWrap) (σ : World) : World :=
  mkWorld (os σ) (errHeap σ) (fdHeap σ) (fileHeap σ) (conn σ) (goroutines σ) (f (w σ)).

(** *** The monad of wrapper code: state, panics and blocking *)

Definition M (A : Type) : Type := World -> outcome (A * World).

Definition ret {A} (a : A) : M A := fun σ => Ret (a, σ).

Definition bind {A B} (m : M A) (k : A -> M B) : M B :=
  fun σ =>
    match m σ with
    | Ret (a, σ') => k a σ'
    | Panics p => Panics p
    | Blocks => Blocks
    end.

Notation "'let*' x ':=' m 'in' k" := (bind m (fun x => k))
  (at level 10, x pattern, m at level 100, k at level 200).
Notation "m ;; k" := (bind m (fun _ => k))
  (at level 100, k at level 200, right associativity).

Definition gets {A} (f : World -> A) : M A := fun σ => Ret (f σ, σ).
Definition modify (f : World -> World) : M unit := fun σ => Ret (tt, f σ).
Definition throw {A} (p : panic) : M A := fun _ => Panics p.

Definition lift_heap {V} (get : World -> list (Chan V))
    (set : list (Chan V) -> World -> World)
    (f : list (Chan V) -> outcome (list (Chan V))) : M unit :=
  fun σ =>
    match f (get σ) with
    | Ret h => Ret (tt, set h σ)
    | Panics p => Panics p
    | Blocks => Blocks
    end.

Fixpoint forM_ {A} (l : list A) (f : A -> M unit) : M unit :=
  match l with
  | [] => ret tt
  | x :: l' => f x ;; forM_ l' f
  end.

(** [for i, x := range l] with the index starting at [i]. *)
Fixpoint forI_ {A} (i : nat) (l : list A) (f : nat -> A -> M unit) : M unit :=
  match l with
  | [] => ret tt
  | x :: l' => f i x ;; forI_ (S i) l' f
  end.

(** [make(chan error, 1)], [ch <- err], [close(ch)] and the same for the
    channels of descriptors and of files. *)
Definition make_errCh (n : nat) : M nat :=
  fun σ => let '(h, ch) := chan_make (errHeap σ) n in Ret (ch, set_errHeap h σ).
Definition send_errCh (ch : nat) (e : error) : M unit :=
  lift_heap errHeap set_errHeap (fun h => chan_send h ch e).
Definition close_errCh (ch : nat) : M unit :=
  lift_heap errHeap set_errHeap (fun h => chan_close h ch).

Definition make_fdCh (n : nat) : M nat :=
  fun σ => let '(h, ch) := chan_make (fdHeap σ) n in Ret (ch, set_fdHeap h σ).
Definition send_fdCh (ch : nat) (fd : Z) : M unit :=
  lift_heap fdHeap set_fdHeap (fun h => chan_send h ch fd).
Definition close_fdCh (ch : nat) : M unit :=
  lift_heap fdHeap set_fdHeap (fun h => chan_close h ch).

Definition make_fileCh (n : nat) : M nat :=
  fun σ => let '(h, ch) := chan_make (fileHeap σ) n in Ret (ch, set_fileHeap h σ).

Definition go (g : Goroutine) : M unit :=
  modify (fun σ => set_goroutines (goroutines σ ++ [g]) σ).

(** System calls. *)
Definition syscall_Close (fd : Z) : M unit :=
  modify (set_os (fun o => sys_close o fd)).
Definition syscall_Fstat (fd : Z) : M (Stat_t + error) :=
  gets (fun σ => Fstat (os σ) fd).
Definition syscall_F_DUPFD (fd : Z) : M (Z + Errno) :=
  fun σ => let '(o, r) := F_DUPFD (os σ) fd in Ret (r, set_os (fun _ => o) σ).

(** What one [ReadMsgUnix] call returned: the byte count, the length of
    the ancillary data, the error, and what
    [syscall.ParseSocketControlMessage] and then [syscall.ParseUnixRights]
    make of the ancillary bytes (a parse error, or for each control
    message a parse error or its descriptors). *)
Record Delivery := mkDelivery {
  rd_n : Z;
  rd_oobn : Z;
  rd_ctl : list (list Z + error) + error;
  rd_err : option error
}.

Definition update_sendFDs (f : list Z -> list Z) (cw : connWrap) : connWrap :=
  mkConnWrap (f (sendFDs cw)) (errChs cw) (recvFDChans cw) (recvedFDs cw).
Definition update_errChs (f : list nat -> list nat) (cw : connWrap) : connWrap :=
  mkConnWrap (sendFDs cw) (f (errChs cw)) (recvFDChans cw) (recvedFDs cw).
Definition update_recvFDChans
    (f : gmap inodeKey (list nat) -> gmap inodeKey (list nat)) (cw : connWrap)
  : connWrap :=
  mkConnWrap (sendFDs cw) (errChs cw) (f (recvFDChans cw)) (recvedFDs cw).
Definition update_recvedFDs (f : gmap inodeKey Z -> gmap inodeKey Z) (cw : connWrap)
  : connWrap :=
  mkConnWrap (sendFDs cw) (errChs cw) (recvFDChans cw) (f (recvedFDs cw)).

(** [s[:n]] and [s[n:]] of a slice of length [len(s)]. *)
Definition slice_to {A} (n : nat) (s : list A) : M (list A) :=
  if decide (n <= length s)%nat then ret (take n s)
  else throw (SliceBoundsOutOfRange n (length s)).
Definition slice_from {A} (n : nat) (s : list A) : M (list A) :=
  if decide (n <= length s)%nat then ret (drop n s)
  else throw (SliceBoundsOutOfRange n (length s)).

(** [s[i]]. *)
Definition index {A} (s : list A) (i : nat) : M A :=
  match s !! i with
  | Some x => ret x
  | None => throw (IndexOutOfRange i (length s))
  end.

Section ConnWrap.
Variable net : NetConn.
Variable url_Parse : string -> URL + error.

Definition conn_WriteMsgUnix (b : list byte) (rights : list Z) : M (option error) :=
  fun σ =>
    Ret (WriteMsgUnix_err net (conn σ) b rights,
         set_conn (mkConn (wire (conn σ) ++ [MsgUnix b rights]) (nclose (conn σ))) σ).

Definition conn_Write (b : list byte) : M (Z * option error) :=
  fun σ =>
    Ret (Write_res net (conn σ) b,
         set_conn (mkConn (wire (conn σ) ++ [MsgData b]) (nclose (conn σ))) σ).

Definition conn_Close : M (option error) :=
  fun σ =>
    Ret (Close_err net (conn σ),
         set_conn (mkConn (wire (conn σ)) (S (nclose (conn σ)))) σ).

(** The body of the loop of [Write] over the drained entries. *)
Definition Write_body (b : list byte) (errChs : list nat) (i : nat) (fd : Z)
  : M unit :=
  let rights := [fd] in
  let* bi := index b i in
  let* err := conn_WriteMsgUnix [bi] rights in
  (match err with
   | Some e => let* ch := index errChs i in send_errCh ch e
   | None => ret tt
   end) ;;
  (let* ch := index errChs i in close_errCh ch) ;;
  syscall_Close fd.

(** [connWrap.Write].  [drained] and [drainedChs] are the task's local
    slices [sendFDs] and [errChs]. *)
Definition Write (b : list byte) : M (Z * option error) :=
  let* cw := gets w in
  let* locals :=
    (if decide (0 < length (sendFDs cw))%nat then
       let limit := length (sendFDs cw) in
       let limit := if decide (maxFDCount < limit)%nat then maxFDCount else limit in
       let* drained := slice_to limit (sendFDs cw) in
       let* rest := slice_from limit (sendFDs cw) in
       modify (set_w (update_sendFDs (fun _ => rest))) ;;
       let* drainedChs := slice_to limit (errChs cw) in
       let* restChs := slice_from limit (errChs cw) in
       modify (set_w (update_errChs (fun _ => restChs))) ;;
       ret (drained, drainedChs)
     else ret ([], [])) in
  let drained := fst locals in
  let drainedChs := snd locals in
  forI_ 0 drained (Write_body b drainedChs) ;;
  let* tail := slice_from (length drained) b in
  let* res := conn_Write tail in
  let n := fst res in
  let err := snd res in
  ret (match err with
       | None => (n + Z.of_nat (length drained), err)
       | Some _ => (n, err)
       end).

(** [connWrap.SendFD]. *)
Definition SendFD (fd : Z) : M nat :=
  let* errCh := make_errCh 1 in
  let* r := syscall_F_DUPFD fd in
  match r with
  | inr errno =>
      send_errCh errCh (ErrErrno errno) ;;
      close_errCh errCh ;;
      ret errCh
  | inl fd' =>
      modify (set_w (update_sendFDs (fun s => s ++ [fd']))) ;;
      modify (set_w (update_errChs (fun s => s ++ [errCh]))) ;;
      ret errCh
  end.

(** [connWrap.RecvFD]. *)
Definition RecvFD (dev ino : Z) : M nat :=
  let* fdCh := make_fdCh 1 in
  let key := mkKey dev ino in
  let* cw := gets w in
  (match recvedFDs cw !! key with
   | Some fd =>
       let* r := syscall_F_DUPFD fd in
       match r with
       | inr _ => close_fdCh fdCh
       | inl fd' => send_fdCh fdCh fd' ;; close_fdCh fdCh
       end
   | None =>
       modify (set_w (update_recvFDChans
                 (fun m => <[key := default [] (m !! key) ++ [fdCh]]> m)))
   end) ;;
  ret fdCh.

(** [connWrap.RecvFDByURL]: [None] is the nil channel. *)
Definition RecvFDByURL (urlStr : string) : M (option nat * option error) :=
  match URLStringToDevIno url_Parse urlStr with
  | inr err => ret (None, Some err)
  | inl (dev, ino) => let* ch := RecvFD dev ino in ret (Some ch, None)
  end.

(** [connWrap.RecvFile]. *)
Definition RecvFile (dev ino : Z) : M nat :=
  let* fileCh := make_fileCh 1 in
  let* fdCh := RecvFD dev ino in
  go (FileRelay fdCh fileCh) ;;
  ret fileCh.

(** [connWrap.RecvFileByURL]. *)
Definition RecvFileByURL (urlStr : string) : M (option nat * option error) :=
  match URLStringToDevIno url_Parse urlStr with
  | inr err => ret (None, Some err)
  | inl (dev, ino) => let* ch := RecvFile dev ino in ret (Some ch, None)
  end.

(** The loop of [Read] over the waiting receivers of [key]. *)
Definition Read_waiter (key : inodeKey) (fdCh : nat) : M unit :=
  let* cw := gets w in
  let* r := syscall_F_DUPFD (default 0 (recvedFDs cw !! key)) in
  match r with
  | inr _ => close_fdCh fdCh
  | inl fd' => send_fdCh fdCh fd' ;; close_fdCh fdCh
  end.

(** The body of the loop of [Read] over the descriptors of one control
    message. *)
Definition Read_fd (fd : Z) : M unit :=
  let* st := syscall_Fstat fd in
  match st with
  | inr _ => ret tt
  | inl stat =>
      let key := mkKey (uint64 (Dev stat)) (Ino stat) in
      let* cw := gets w in
      match recvedFDs cw !! key with
      | Some _ => syscall_Close fd
      | None =>
          modify (set_w (update_recvedFDs (fun m => <[key := fd]> m))) ;;
          forM_ (default [] (recvFDChans cw !! key)) (Read_waiter key) ;;
          modify (set_w (update_recvFDChans (fun m => delete key m)))
      end
  end.

(** The loop of [Read] over the control messages; a message that is
    not a rights message ends the whole task. *)
Fixpoint Read_msgs (msgs : list (list Z + error)) : M unit :=
  match msgs with
  | [] => ret tt
  | inr _ :: _ => ret tt
  | inl fds :: msgs' => forM_ fds Read_fd ;; Read_msgs msgs'
  end.

(** [connWrap.Read], given what [ReadMsgUnix] returned. *)
Definition Read (d : Delivery) : M (Z * option error) :=
  (if decide (rd_oobn d <> 0) then
     match rd_ctl d with
     | inr _ => ret tt
     | inl msgs => Read_msgs msgs
     end
   else ret tt) ;;
  ret (match rd_err d with
       | Some e => (0, Some e)
       | None => (rd_n d, None)
       end).

(** [connWrap.close]: the connection is closed, then the task on the
    receive executor runs, then the one it submits to the send
    executor. *)
Definition close : M (option error) :=
  let* err := conn_Close in
  let* cw := gets w in
  forM_ (map_to_list (recvedFDs cw))
    (fun '(k, fd) =>
       syscall_Close fd ;;
       modify (set_w (update_recvedFDs (fun m => delete k m)))) ;;
  forM_ (map_to_list (recvFDChans cw))
    (fun '(k, recvChs) =>
       forM_ recvChs close_fdCh ;;
       modify (set_w (update_recvFDChans (fun m => delete k m)))) ;;
  forI_ 0 (sendFDs cw)
    (fun k fd =>
       let* cw' := gets w in
       let* ch := index (errChs cw') k in
       send_errCh ch (ErrConnClosed fd) ;;
       close_errCh ch ;;
       syscall_Close fd) ;;
  modify (set_w (update_sendFDs (fun _ => []))) ;;
  modify (set_w (update_errChs (fun _ => []))) ;;
  ret err.

(** [connWrap.Close]. *)
Definition Close : M (option error) := close.
End ConnWrap.

(** [wrapConn]: a fresh wrapper with empty maps. *)
Definition wrapConn : connWrap := mkConnWrap [] [] ∅ ∅.

(** ** Invariants of the wrapper's bookkeeping

    A channel the wrapper has made and not yet used is open, empty and of
    capacity one.  The result channels of the queued sends are such
    channels, one per queued descriptor and all distinct; so are the
    channels of the registered waiters. *)

Definition fresh_chan {V} : Chan V := mkChan [] 1 false.

Definition waiters (m : gmap inodeKey (list nat)) : list nat :=
  mjoin ((map_to_list m).*2).

Definition wf_send (σ : World) : Prop :=
  length (sendFDs (w σ)) = length (errChs (w σ)) /\
  NoDup (errChs (w σ)) /\
  forall ch, ch ∈ errChs (w σ) -> errHeap σ !! ch = Some fresh_chan.

Definition wf_recv (σ : World) : Prop :=
  NoDup (waiters (recvFDChans (w σ))) /\
  forall ch, ch ∈ waiters (recvFDChans (w σ)) -> fdHeap σ !! ch = Some fresh_chan.

Definition wf (σ : World) : Prop := wf_send σ /\ wf_recv σ.

(** The contract of [io.Writer], which [net.Conn] embeds: a [Write] that
    returns no error has written the whole slice. *)
Definition io_Writer (net : NetConn) : Prop :=
  forall c p n, Write_res net c p = (n, None) -> n = Z.of_nat (length p).

(** The messages [Write] sends for the drained descriptors [fds]: the
    i-th carries the one byte [b[i]] and the rights of the i-th
    descriptor. *)
Definition drain_msgs (b : list byte) (fds : list Z) : list WireMsg :=
  zip_with (fun bi fd => MsgUnix [bi] [fd]) b fds.

(** The wrapped connection after [msgs] more writes. *)
Definition conn_after (c : Conn) (msgs : list WireMsg) : Conn :=
  mkConn (wire c ++ msgs) (nclose c).

(** What the loop of [Write] leaves behind after draining the
    descriptors [fds] with the result channels [chs]: the wrapper's
    fields and the other heaps are untouched, one message per descriptor
    went to the connection, every descriptor was closed, and the j-th
    result channel is closed, holding the error of the j-th message if
    it had one. *)
Definition Write_loop_post (net : NetConn) (b : list byte) (fds : list Z)
    (chs : list nat) (σ σ' : World) : Prop :=
  w σ' = w σ /\ fdHeap σ' = fdHeap σ /\ fileHeap σ' = fileHeap σ /\
  goroutines σ' = goroutines σ /\
  conn σ' = conn_after (conn σ) (drain_msgs b fds) /\
  os σ' = foldl sys_close (os σ) fds /\
  length (errHeap σ') = length (errHeap σ) /\
  (forall ch, ch ∉ chs -> errHeap σ' !! ch = errHeap σ !! ch) /\
  (forall j ch fd bj,
      chs !! j = Some ch -> fds !! j = Some fd -> b !! j = Some bj ->
      errHeap σ' !! ch =
        Some (mkChan
                (option_list
                   (WriteMsgUnix_err net
                      (conn_after (conn σ) (drain_msgs b (take j fds))) [bj] [fd]))
                1 true)).

(** What one call of [Write] with the buffer [b] does to the world [σ],
    with [limit] the number of drained entries. *)
Definition Write_post (net : NetConn) (b : list byte) (σ : World)
    (res : Z * option error) (σ' : World) : Prop :=
  let limit := Nat.min (length (sendFDs (w σ))) maxFDCount in
  let fds := take limit (sendFDs (w σ)) in
  let chs := take limit (errChs (w σ)) in
  (* the queue keeps what lies beyond the drained front *)
  sendFDs (w σ') = drop limit (sendFDs (w σ)) /\
  errChs (w σ') = drop limit (errChs (w σ)) /\
  recvFDChans (w σ') = recvFDChans (w σ) /\
  recvedFDs (w σ') = recvedFDs (w σ) /\
  (* one message per drained entry, in queue order, then the rest *)
  conn σ' = conn_after (conn σ) (drain_msgs b fds ++ [MsgData (drop limit b)]) /\
  length (drain_msgs b fds) = limit /\
  (forall j fd, fds !! j = Some fd ->
     exists bj, b !! j = Some bj /\ drain_msgs b fds !! j = Some (MsgUnix [bj] [fd])) /\
  (* the byte count *)
  res = (let r := Write_res net (conn_after (conn σ) (drain_msgs b fds)) (drop limit b) in
         match snd r with
         | None => (fst r + Z.of_nat limit, None)
         | Some e => (fst r, Some e)
         end) /\
  (io_Writer net -> snd res = None -> fst res = Z.of_nat (length b)) /\
  (* the result channels and the descriptors of the drained entries *)
  (forall j ch fd bj,
      chs !! j = Some ch -> fds !! j = Some fd -> b !! j = Some bj ->
      errHeap σ' !! ch =
        Some (mkChan
                (option_list
                   (WriteMsgUnix_err net
                      (conn_after (conn σ) (drain_msgs b (take j fds))) [bj] [fd]))
                1 true)) /\
  (forall ch, ch ∉ chs -> errHeap σ' !! ch = errHeap σ !! ch) /\
  (forall fd, fd ∈ fds -> fdtable (os σ') !! fd = None) /\
  fdHeap σ' = fdHeap σ.

(** The operating system after [n] successive [F_DUPFD] calls on [fd]
    (a failed call leaves it as it is), and what the call made in the
    state [o] delivers to its requester: the new descriptor, or nothing
    when the duplication fails. *)
Fixpoint dups (o : OS) (fd : Z) (n : nat) : OS :=
  match n with
  | O => o
  | S n' => dups (fst (F_DUPFD o fd)) fd n'
  end.

Definition delivered (o : OS) (fd : Z) : list Z :=
  match snd (F_DUPFD o fd) with
  | inl fd' => [fd']
  | inr _ => []
  end.

(** What the arrival of the descriptor [fd] with the not yet cached
    identity [key] does, [chs] being the waiters registered for [key]:
    the descriptor is cached, the j-th waiter's channel is closed and
    holds what the j-th duplication delivered, and the waiter list of
    [key] is gone.  Nothing else changes. *)
Definition arrival_post (fd : Z) (key : inodeKey) (chs : list nat)
    (σ σ' : World) : Prop :=
  recvedFDs (w σ') = <[key := fd]> (recvedFDs (w σ)) /\
  recvFDChans (w σ') = delete key (recvFDChans (w σ)) /\
  sendFDs (w σ') = sendFDs (w σ) /\ errChs (w σ') = errChs (w σ) /\
  errHeap σ' = errHeap σ /\ conn σ' = conn σ /\
  os σ' = dups (os σ) fd (length chs) /\
  (forall j ch, chs !! j = Some ch ->
     fdHeap σ' !! ch = Some (mkChan (delivered (dups (os σ) fd j) fd) 1 true)) /\
  (forall ch, ch ∉ chs -> fdHeap σ' !! ch = fdHeap σ !! ch).

(** Every cached descriptor of [σ] is still the cached descriptor of its
    identity in [σ']. *)
Definition cache_kept (σ σ' : World) : Prop :=
  forall key c, recvedFDs (w σ) !! key = Some c -> recvedFDs (w σ') !! key = Some c.

(** The descriptors [Read] examines, in the order it examines them:
    when the socket delivered ancillary data and the data parses, the
    descriptors of its rights messages up to the first message that does
    not parse as a rights message. *)
Fixpoint examined_msgs (msgs : list (list Z + error)) : list Z :=
  match msgs with
  | [] => []
  | inr _ :: _ => []
  | inl fds :: msgs' => fds ++ examined_msgs msgs'
  end.

Definition examined (d : Delivery) : list Z :=
  if decide (rd_oobn d <> 0) then
    match rd_ctl d with
    | inl msgs => examined_msgs msgs
    | inr _ => []
    end
  else [].

(** What [Read] returns. *)
Definition Read_result (d : Delivery) : Z * option error :=
  match rd_err d with
  | Some e => (0, Some e)
  | None => (rd_n d, None)
  end.

(** The delivery [d] with its ancillary data cut down to one rights
    message that carries the descriptors [fds]. *)
Definition cut_to (d : Delivery) (fds : list Z) : Delivery :=
  mkDelivery (rd_n d) (rd_oobn d) (inl [inl fds]) (rd_err d).

(** What [close] leaves behind: an empty wrapper on a connection closed
    once more; every queued send's result channel holds the one
    "connection closed" error naming its descriptor and is closed, and
    the descriptor is closed; every cached descriptor is closed; every
    waiter's channel is closed without a value; no other channel and no
    other descriptor is touched. *)
Definition close_post (σ σ' : World) : Prop :=
  w σ' = wrapConn /\
  conn σ' = mkConn (wire (conn σ)) (S (nclose (conn σ))) /\
  (forall j fd ch,
     sendFDs (w σ) !! j = Some fd -> errChs (w σ) !! j = Some ch ->
     errHeap σ' !! ch = Some (mkChan [ErrConnClosed fd] 1 true)) /\
  (forall ch, ch ∉ errChs (w σ) -> errHeap σ' !! ch = errHeap σ !! ch) /\
  (forall fd, fd ∈ sendFDs (w σ) -> fdtable (os σ') !! fd = None) /\
  (forall key fd, recvedFDs (w σ) !! key = Some fd -> fdtable (os σ') !! fd = None) /\
  (forall key chs ch,
     recvFDChans (w σ) !! key = Some chs -> ch ∈ chs ->
     fdHeap σ' !! ch = Some (mkChan [] 1 true)) /\
  (forall ch, ch ∉ waiters (recvFDChans (w σ)) -> fdHeap σ' !! ch = fdHeap σ !! ch) /\
  (forall x, x ∉ sendFDs (w σ) -> (forall key, recvedFDs (w σ) !! key <> Some x) ->
             fdtable (os σ') !! x = fdtable (os σ) !! x).

(** In the specification's words, a malformed locator: the parser rejects it,
    or its scheme is not [inode], or its device field (the host) or its
    inode field (the path without its leading slash) is not a valid
    decimal field. *)
Definition malformed_URL (u : URL) : Prop :=
  Scheme u <> "inode"%string \/
  ~ valid_decimal_u64 (Host u) \/
  ~ valid_decimal_u64 (TrimPrefix_slash (Path u)).

Definition malformed_locator (url_Parse : string -> URL + error) (s : string) : Prop :=
  match url_Parse s with
  | inr _ => True
  | inl u => malformed_URL u
  end.

(** ** The per-call credential adapter ([per_rpc_transport_credentials.go])

    The adapter only sees a transceiver through the [FDTransceiver]
    interface.  A transceiver is known here by a name; what the adapter
    does to it is the sequence of method calls it makes, each of which
    returns a channel the callee has made.  A deferred closure
    [func(transceiver) { go joinXChs(transceiver.Op(args), out) }] is
    the pair of the operation it will invoke and the channel [out] it
    will relay into.  Channels are named by creation order. *)
Module PerRPC.

Definition Transceiver := nat.

Inductive Op :=
| OpSendFD (fd : Z)
| OpSendFile (file : Z)
| OpRecvFD (dev ino : Z)
| OpRecvFile (dev ino : Z).

Record Deferred := mkDeferred { d_op : Op; d_out : nat }.

(** What [peer.FromContext] finds in a context: no peer, or a peer whose
    address does or does not implement [FDTransceiver]. *)
Record Peer := mkPeer { Addr : option Transceiver }.
Record Context := mkContext { ctx_peer : option Peer }.

(** The wrapped [credentials.PerRPCCredentials]. *)
Record Credentials := mkCredentials {
  creds_GetRequestMetadata : Context -> list string -> gmap string string * option error;
  creds_RequireTransportSecurity : bool
}.

Record wrapPerRPCCredentials := mkWrap {
  PerRPCCredentials : option Credentials;
  FDTransceiver : option Transceiver;
  transceiverFuncs : list Deferred
}.

(** A method call on a transceiver with the channel it returned, and a
    goroutine [joinErrChs(in, out)] (or [joinFDChs], [joinFileChs]). *)
Record Call := mkCall { c_on : Transceiver; c_op : Op; c_ret : nat }.
Record Join := mkJoin { j_in : nat; j_out : nat }.

Record World := mkWorld {
  nchans : nat;
  calls : list Call;
  joins : list Join;
  cred : wrapPerRPCCredentials
}.

(** [FromPeer] and [FromContext]. *)
Definition FromPeer (p : Peer) : option Transceiver := Addr p.

Definition FromContext (ctx : Context) : option Transceiver :=
  match ctx_peer ctx with
  | None => None
  | Some p => FromPeer p
  end.

(** [make(chan T, 1)]. *)
Definition make_chan (σ : World) : nat * World :=
  (nchans σ, mkWorld (S (nchans σ)) (calls σ) (joins σ) (cred σ)).

(** [go joinXChs(transceiver.Op(args), out)]: the method call is
    evaluated first, then the goroutine starts on the channel it
    returned. *)
Definition call_and_join (t : Transceiver) (op : Op) (out : nat) (σ : World) : World :=
  let inner := nchans σ in
  mkWorld (S (nchans σ)) (calls σ ++ [mkCall t op inner])
    (joins σ ++ [mkJoin inner out]) (cred σ).

(** The invocation [f(transceiver)] of a deferred closure. *)
Definition invoke (t : Transceiver) (f : Deferred) (σ : World) : World :=
  call_and_join t (d_op f) (d_out f) σ.

Definition set_cred (c : wrapPerRPCCredentials) (σ : World) : World :=
  mkWorld (nchans σ) (calls σ) (joins σ) c.

(** [wrapPerRPCCredentials.GetRequestMetadata]. *)
Definition GetRequestMetadata (ctx : Context) (uri : list string) (σ : World)
  : (gmap string string * option error) * World :=
  let σ1 :=
    match FDTransceiver (cred σ) with
    | Some _ => σ
    | None =>
        match FromContext ctx with
        | Some transceiver =>
            let σa :=
              set_cred (mkWrap (PerRPCCredentials (cred σ)) (Some transceiver)
                          (transceiverFuncs (cred σ))) σ in
            let σb := foldl (fun s f => invoke transceiver f s) σa
                        (transceiverFuncs (cred σ)) in
            set_cred (mkWrap (PerRPCCredentials (cred σb)) (FDTransceiver (cred σb)) [])
              σb
        | None => σ
        end
    end in
  match PerRPCCredentials (cred σ1) with
  | Some c => (creds_GetRequestMetadata c ctx uri, σ1)
  | None => ((∅, None), σ1)
  end.

(** [wrapPerRPCCredentials.RequireTransportSecurity]. *)
Definition RequireTransportSecurity (σ : World) : bool :=
  match PerRPCCredentials (cred σ) with
  | Some c => creds_RequireTransportSecurity c
  | None => false
  end.

(** The task every send and receive method of the adapter hands to its
    executor, for the operation [op] and the channel [out]. *)
Definition submit (op : Op) (out : nat) (σ : World) : World :=
  match FDTransceiver (cred σ) with
  | Some t => call_and_join t op out σ
  | None =>
      set_cred (mkWrap (PerRPCCredentials (cred σ)) (FDTransceiver (cred σ))
                  (transceiverFuncs (cred σ) ++ [mkDeferred op out])) σ
  end.

(** [wrapPerRPCCredentials.SendFD], [SendFile], [RecvFD], [RecvFile]. *)
Definition SendFD (fd : Z) (σ : World) : nat * World :=
  let '(out, σ1) := make_chan σ in (out, submit (OpSendFD fd) out σ1).

Definition SendFile (file : Z) (σ : World) : nat * World :=
  let '(out, σ1) := make_chan σ in (out, submit (OpSendFile file) out σ1).

Definition RecvFD (dev inode : Z) (σ : World) : nat * World :=
  let '(out, σ1) := make_chan σ in (out, submit (OpRecvFD dev inode) out σ1).

Definition RecvFile (dev ino : Z) (σ : World) : nat * World :=
  let '(out, σ1) := make_chan σ in (out, submit (OpRecvFile dev ino) out σ1).

(** [wrapPerRPCCredentials.RecvFileByURL] and [RecvFDByURL]. *)
Definition RecvFileByURL (url_Parse : string -> URL + error) (urlStr : string)
    (σ : World) : (option nat * option error) * World :=
  match URLStringToDevIno url_Parse urlStr with
  | inr err => ((None, Some err), σ)
  | inl (dev, ino) =>
      let '(out, σ1) := make_chan σ in
      ((Some out, None), submit (OpRecvFile dev ino) out σ1)
  end.

Definition RecvFDByURL (url_Parse : string -> URL + error) (urlStr : string)
    (σ : World) : (option nat * option error) * World :=
  match URLStringToDevIno url_Parse urlStr with
  | inr err => ((None, Some err), σ)
  | inl (dev, ino) =>
      let '(out, σ1) := make_chan σ in
      ((Some out, None), submit (OpRecvFD dev ino) out σ1)
  end.

(** [PerRPCCredentials(cred)] on credentials that are not yet wrapped. *)
Definition new (c : option Credentials) : World :=
  mkWorld 0 [] [] (mkWrap c None []).

(** What the replay of the deferred closures [fs] against [t] adds, the
    first new channel being number [n]: the calls, and the relays. *)
Definition replay_calls (t : Transceiver) (n : nat) (fs : list Deferred) : list Call :=
  imap (fun i f => mkCall t (d_op f) (n + i)) fs.

Definition replay_joins (n : nat) (fs : list Deferred) : list Join :=
  imap (fun i f => mkJoin (n + i) (d_out f)) fs.

(** Two sends and a receive deferred on fresh credentials, and a context
    whose peer is transceiver 7. *)
Definition example_deferred : World :=
  snd (RecvFD 2049 77 (snd (SendFD 4 (snd (SendFD 3 (new None)))))).

Definition example_ctx : Context := mkContext (Some (mkPeer (Some 7%nat))).

End PerRPC.

(** The world after the loop body of [Write] has handled the drained
    entry [(fd, ch)] with the byte [bi], and the world after one waiter
    (or one [RecvFD] on a cached identity) has been resolved on the
    channel [ch] by a duplication of [fd]. *)
Definition body_world (net : NetConn) (σ : World) (bi : byte) (fd : Z) (ch : nat)
  : World :=
  mkWorld (sys_close (os σ) fd)
    (<[ch := mkChan (option_list (WriteMsgUnix_err net (conn σ) [bi] [fd])) 1 true]>
       (errHeap σ))
    (fdHeap σ) (fileHeap σ) (conn_after (conn σ) [MsgUnix [bi] [fd]])
    (goroutines σ) (w σ).

Definition resolve_world (σ : World) (fd : Z) (ch : nat) : World :=
  mkWorld (fst (F_DUPFD (os σ) fd)) (errHeap σ)
    (<[ch := mkChan (delivered (os σ) fd) 1 true]> (fdHeap σ))
    (fileHeap σ) (conn σ) (goroutines σ) (w σ).

(** The send queue, its result channels and their heap are the same in
    [σ'] as in [σ]. *)
Definition send_side_kept (σ σ' : World) : Prop :=
  sendFDs (w σ') = sendFDs (w σ) /\ errChs (w σ') = errChs (w σ) /\
  errHeap σ' = errHeap σ.

(** ** More of the package

    The functions of the package beside the ones above, with what they
    need. *)

(** [FilenameToURL], given what [os.Stat] reports for a file name. *)
Definition FilenameToURL (os_Stat : string -> Stat_t + error) (filename : string)
  : URL + error :=
  match os_Stat filename with
  | inr err => inr err
  | inl fi => inl (mkURL "inode" (Sprintf_d (Dev fi)) (Sprintf_d (Ino fi)))
  end.

(** The descriptors a sequence of messages carries as rights, in the
    order they were written. *)
Definition rights_of (msgs : list WireMsg) : list Z :=
  flat_map (fun m => match m with MsgUnix _ r => r | MsgData _ => [] end) msgs.

(** *** Receiving from a channel, and the relays

    [v, ok := <-ch]: the oldest buffered value, or the end of a closed
    and drained channel; a receive on an open, empty channel (or on a
    channel that does not exist) blocks. *)
Inductive received (V : Type) :=
| Value (v : V) (h : list (Chan V))
| Drained
| WouldBlock.
Arguments Value {V} _ _.
Arguments Drained {V}.
Arguments WouldBlock {V}.

Definition chan_recv {V} (h : list (Chan V)) (ch : nat) : received V :=
  match h !! ch with
  | None => WouldBlock
  | Some c =>
      match buf c with
      | v :: rest => Value v (<[ch := mkChan rest (cap c) (closed c)]> h)
      | [] => if closed c then Drained else WouldBlock
      end
  end.

(** [joinErrChs], [joinFDChs], [joinFileChs] and the relay goroutine of
    [SendFile]: [for v := range in { out <- v }; close(out)], run from
    its start until it ends, panics or blocks, nothing else running
    meanwhile.  [fuel] bounds the number of receives; the loop makes at
    most one more than [in] holds values. *)
Fixpoint join_loop {V} (fuel : nat) (inCh out : nat) (h : list (Chan V))
  : outcome (list (Chan V)) :=
  match fuel with
  | O => Blocks
  | S fuel' =>
      match chan_recv h inCh with
      | Value v h1 =>
          match chan_send h1 out v with
          | Ret h2 => join_loop fuel' inCh out h2
          | Panics p => Panics p
          | Blocks => Blocks
          end
      | Drained => chan_close h out
      | WouldBlock => Blocks
      end
  end.

Definition join {V} (inCh out : nat) (h : list (Chan V)) : outcome (list (Chan V)) :=
  join_loop (S (length (default [] (buf <$> h !! inCh)))) inCh out h.

(** The goroutine of [connWrap.RecvFile]: every descriptor received from
    [fdCh] is wrapped by [os.NewFile] and sent on [fileCh], which is
    closed when [fdCh] ends. *)
Definition recv_fdCh (ch : nat) : M (option Z) :=
  fun σ =>
    match chan_recv (fdHeap σ) ch with
    | Value fd h => Ret (Some fd, set_fdHeap h σ)
    | Drained => Ret (None, σ)
    | WouldBlock => Blocks
    end.
Definition send_fileCh (ch : nat) (f : File) : M unit :=
  lift_heap fileHeap set_fileHeap (fun h => chan_send h ch f).
Definition close_fileCh (ch : nat) : M unit :=
  lift_heap fileHeap set_fileHeap (fun h => chan_close h ch).

Fixpoint FileRelay_loop (fuel : nat) (fdCh fileCh : nat) : M unit :=
  match fuel with
  | O => fun _ => Blocks
  | S fuel' =>
      let* r := recv_fdCh fdCh in
      match r with
      | Some fd => send_fileCh fileCh (mkFile fd) ;; FileRelay_loop fuel' fdCh fileCh
      | None => close_fileCh fileCh
      end
  end.

(** A goroutine the wrapper has started, run until it ends or blocks. *)
Definition run (fuel : nat) (g : Goroutine) : M unit :=
  match g with
  | FileRelay fdCh fileCh => FileRelay_loop fuel fdCh fileCh
  end.

(** *** [connWrap.SendFile]

    What a [SyscallConn] does, as far as [SendFile] can tell: the error
    of [SyscallConn()] if it fails, the descriptor [raw.Control] invokes
    the callback on if it invokes it, and the error [raw.Control]
    returns. *)
Record SyscallConn := mkSyscallConn {
  sc_err : option error;
  sc_fd : option Z;
  sc_ctl_err : option error
}.

Section SendFile.
(** [errors.Wrapf(err, "unable to retrieve syscall.RawConn for src %+v", file)]. *)
Variable errors_Wrapf : error -> SyscallConn -> error.

(** [connWrap.SendFile]: the result channel, and the relay goroutine the
    callback has started, if any, as its input and output channels. *)
Definition SendFile (file : SyscallConn) : M (nat * option (nat * nat)) :=
  let* errCh := make_errCh 1 in
  match sc_err file with
  | Some err =>
      send_errCh errCh (errors_Wrapf err file) ;;
      close_errCh errCh ;;
      ret (errCh, None)
  | None =>
      let* started :=
        match sc_fd file with
        | None => ret None
        | Some fd =>
            let* st := syscall_Fstat fd in
            match st with
            | inr statErr =>
                send_errCh errCh statErr ;;
                close_errCh errCh ;;
                ret None
            | inl _ =>
                let* errChIn := SendFD fd in
                ret (Some (errChIn, errCh))
            end
        end in
      match sc_ctl_err file with
      | Some err => send_errCh errCh err ;; close_errCh errCh
      | None => ret tt
      end ;;
      ret (errCh, started)
  end.
End SendFile.

(** *** Combined per-call credentials and the call options

    The interceptors of the package replace the per-call credential
    options of a call by one option that carries all their credentials,
    combined.  Credentials are the ones of other packages, known by a
    value of [L] and by what their two methods do on a state [St], or a
    combination of credentials; a nil map is the empty map; the other
    call options are values of [Opt]. *)
Module Combined.
Section CombinedCreds.
Variable St L Opt : Type.
Variable leaf_GetRequestMetadata :
  L -> PerRPC.Context -> list string -> St -> (gmap string string * option error) * St.
Variable leaf_RequireTransportSecurity : L -> bool.

#[warnings="-register-all"] Inductive Creds :=
| Leaf (l : L)
| Cobmined (cs : list Creds).   (* cobminedPerRPCCredentials *)

(** The loop of [cobminedPerRPCCredentials.GetRequestMetadata], [get]
    being the method of the members. *)
Definition GetRequestMetadata_loop
    (get : Creds -> St -> (gmap string string * option error) * St)
  : list Creds -> gmap string string -> St -> (gmap string string * option error) * St :=
  fix loop c result s :=
    match c with
    | [] => ((result, None), s)
    | creds :: c' =>
        let r := get creds s in
        match snd (fst r) with
        | Some err => ((∅, Some err), snd r)
        | None => loop c' (fst (fst r) ∪ result) (snd r)
        end
    end.

Fixpoint GetRequestMetadata (c : Creds) (ctx : PerRPC.Context) (uri : list string)
    {struct c} : St -> (gmap string string * option error) * St :=
  match c with
  | Leaf l => leaf_GetRequestMetadata l ctx uri
  | Cobmined cs =>
      GetRequestMetadata_loop (fun creds => GetRequestMetadata creds ctx uri) cs ∅
  end.

Fixpoint RequireTransportSecurity (c : Creds) : bool :=
  match c with
  | Leaf l => leaf_RequireTransportSecurity l
  | Cobmined cs =>
      (fix loop c :=
         match c with
         | [] => false
         | creds :: c' => if RequireTransportSecurity creds then true else loop c'
         end) cs
  end.

(** [grpc.CallOption]: [grpc.PerRPCCredsCallOption], or another one. *)
Inductive CallOption :=
| PerRPCCredsCallOption (Creds : Creds)
| OtherCallOption (o : Opt).

(** [mergePerCredentialsCallOptions]. *)
Fixpoint merge_loop (callOpts result : list CallOption) (combinedCredentials : list Creds)
  : list CallOption * list Creds :=
  match callOpts with
  | [] => (result, combinedCredentials)
  | PerRPCCredsCallOption v :: rest =>
      merge_loop rest result (combinedCredentials ++ [v])
  | opt :: rest => merge_loop rest (result ++ [opt]) combinedCredentials
  end.

Definition mergePerCredentialsCallOptions (callOpts : list CallOption)
  : list CallOption :=
  let r := merge_loop callOpts [] [] in
  fst r ++ [PerRPCCredsCallOption (Cobmined (snd r))].

(** [PerRPCCredentialsFromCallOptions]: the loop runs from the last
    option down; [None] is nil. *)
Fixpoint FromCallOptions_loop (i : nat) (opts : list CallOption) : option Creds :=
  match i with
  | O => None
  | S i' =>
      match opts !! i' with
      | Some (PerRPCCredsCallOption c) => Some c
      | _ => FromCallOptions_loop i' opts
      end
  end.

Definition PerRPCCredentialsFromCallOptions (opts : list CallOption) : option Creds :=
  FromCallOptions_loop (length opts) opts.

(** The credentials of the per-call credential options of a list, and
    its other options, both in the order of the list. *)
Definition credentials_of (opts : list CallOption) : list Creds :=
  omap (fun opt => match opt with PerRPCCredsCallOption c => Some c | _ => None end) opts.

Definition other_options (opts : list CallOption) : list CallOption :=
  omap (fun opt => match opt with PerRPCCredsCallOption _ => None | _ => Some opt end) opts.
End CombinedCreds.
Arguments Leaf {L} _.
Arguments Cobmined {L} _.
Arguments PerRPCCredsCallOption {L Opt} _.
Arguments OtherCallOption {L Opt} _.
Arguments GetRequestMetadata_loop {St L} _ _ _ _.
Arguments GetRequestMetadata {St L} _ _ _ _ _.
Arguments RequireTransportSecurity {L} _ _.
Arguments merge_loop {L Opt} _ _ _.
Arguments mergePerCredentialsCallOptions {L Opt} _.
Arguments FromCallOptions_loop {L Opt} _ _.
Arguments PerRPCCredentialsFromCallOptions {L Opt} _.
Arguments credentials_of {L Opt} _.
Arguments other_options {L Opt} _.

(** The credentials of a call that uses the adapter of this package
    beside plain ones: the state is the adapter's world. *)
Definition adapter_or_plain (l : PerRPC.Credentials + unit) (ctx : PerRPC.Context)
    (uri : list string) (σ : PerRPC.World)
  : (gmap string string * option error) * PerRPC.World :=
  match l with
  | inl c => (PerRPC.creds_GetRequestMetadata c ctx uri, σ)
  | inr _ => PerRPC.GetRequestMetadata ctx uri σ
  end.
End Combined.

(** *** The methods of the per-call adapter, by operation *)

Definition PerRPC_method (op : PerRPC.Op) : PerRPC.World -> nat * PerRPC.World :=
  match op with
  | PerRPC.OpSendFD fd => PerRPC.SendFD fd
  | PerRPC.OpSendFile file => PerRPC.SendFile file
  | PerRPC.OpRecvFD dev inode => PerRPC.RecvFD dev inode
  | PerRPC.OpRecvFile dev ino => PerRPC.RecvFile dev ino
  end.

(** The channels a sequence of method calls returns, and the world it
    leaves. *)
Fixpoint PerRPC_methods (ops : list PerRPC.Op) (σ : PerRPC.World)
  : list nat * PerRPC.World :=
  match ops with
  | [] => ([], σ)
  | op :: ops' =>
      let r := PerRPC_method op σ in
      let r' := PerRPC_methods ops' (snd r) in
      (fst r :: fst r', snd r')
  end.

(** *** [FileToURL]

    [u] and [err] are the named results.  The callback given to
    [raw.Control] assigns both from [FDToURL]; the value [raw.Control]
    returns is assigned to [err] after the callback has run.  [None] is
    nil. *)
Definition FileToURL (errors_WithStack : error -> error) (os : OS) (file : SyscallConn)
  : option URL * option error :=
  let u : option URL := None in
  let err := sc_err file in
  match err with
  | Some e => (None, Some (errors_WithStack e))
  | None =>
      let after_callback :=
        match sc_fd file with
        | Some fd =>
            match FDToURL os fd with
            | inl u' => (Some u', None)
            | inr e => (None, Some e)
            end
        | None => (u, err)
        end in
      let u := fst after_callback in
      let err := sc_ctl_err file in
      match err with
      | Some e => (None, Some (errors_WithStack e))
      | None => (u, err)
      end
  end.

(** *** [connWrap.SendFilename]

    An [*os.File] is its descriptor and whether [Close] has been called
    on it.  The first [Close] closes the descriptor; [Close] returns an
    error if it has already been called.  The raw connection of an open
    file runs the callback of [Control] on its descriptor; on a closed
    file [Control] fails without running it.  [os.OpenFile] resolves
    the name and takes the lowest free descriptor. *)
Record OsFile := mkOsFile { of_fd : Z; of_closed : bool }.

(** The goroutine [SendFilename] starts: its two channels and the file
    as it is when [SendFilename] returns. *)
Record FilenameRelay := mkFilenameRelay {
  fr_errChIn : nat;
  fr_errChOut : nat;
  fr_file : OsFile
}.

(** [for v := range in { out <- v }], run until the input ends or the
    loop blocks. *)
Fixpoint forward_loop {V} (fuel : nat) (inCh out : nat) (h : list (Chan V))
  : outcome (list (Chan V)) :=
  match fuel with
  | O => Blocks
  | S fuel' =>
      match chan_recv h inCh with
      | Value v h1 =>
          match chan_send h1 out v with
          | Ret h2 => forward_loop fuel' inCh out h2
          | Panics p => Panics p
          | Blocks => Blocks
          end
      | Drained => Ret h
      | WouldBlock => Blocks
      end
  end.

Definition forward {V} (inCh out : nat) (h : list (Chan V)) : outcome (list (Chan V)) :=
  forward_loop (S (length (default [] (buf <$> h !! inCh)))) inCh out h.

Section SendFilename.
Variable errors_Wrapf : error -> SyscallConn -> error.
(** What a file name resolves to, and the errors of a second [Close]
    and of [Control] on a closed file. *)
Variable fs : string -> Stat_t + error.
Variable ErrClosed ErrFileClosing : error.

(** [os.OpenFile(filename, unix.O_PATH, 0)] (and [os.Open(filename)]
    where [O_PATH] does not exist). *)
Definition os_OpenFile (filename : string) : M (OsFile + error) :=
  fun σ =>
    match fs filename with
    | inr err => Ret (inr err, σ)
    | inl st =>
        match lowest_free (os σ) with
        | None => Ret (inr (ErrErrno EMFILE), σ)
        | Some fd =>
            Ret (inl (mkOsFile fd false),
                 set_os (fun o => mkOS (<[fd := st]> (fdtable o)) (nofile o)) σ)
        end
    end.

Definition File_Close (file : OsFile) : M (OsFile * option error) :=
  if of_closed file then ret (file, Some ErrClosed)
  else syscall_Close (of_fd file) ;; ret (mkOsFile (of_fd file) true, None).

Definition File_SyscallConn (file : OsFile) : SyscallConn :=
  if of_closed file then mkSyscallConn None None (Some ErrFileClosing)
  else mkSyscallConn None (Some (of_fd file)) None.

(** [connWrap.SendFilename]: the result channel and, when the file
    could be opened, the goroutine started and the relay [SendFile] has
    started, if any. *)
Definition SendFilename (filename : string)
  : M (nat * option (FilenameRelay * option (nat * nat))) :=
  let* errCh := make_errCh 1 in
  let* r := os_OpenFile filename in
  match r with
  | inr err =>
      send_errCh errCh err ;;
      close_errCh errCh ;;
      ret (errCh, None)
  | inl file =>
      let* sent := SendFile errors_Wrapf (File_SyscallConn file) in
      let* closed := File_Close file in
      ret (errCh, Some (mkFilenameRelay (fst sent) errCh (fst closed), snd sent))
  end.

(** The goroutine of [SendFilename]. *)
Definition run_FilenameRelay (g : FilenameRelay) : M unit :=
  lift_heap errHeap set_errHeap (forward (fr_errChIn g) (fr_errChOut g)) ;;
  let* closed := File_Close (fr_file g) in
  match snd closed with
  | Some err => send_errCh (fr_errChOut g) err
  | None => ret tt
  end ;;
  close_errCh (fr_errChOut g).
End SendFilename.

(** *** Sequences of operations on one wrapper

    The operations a user of the wrapper and the transport run on it,
    one after the other. *)
Inductive Action :=
| ActSendFD (fd : Z)
| ActSendFile (file : SyscallConn)
| ActRecvFD (dev ino : Z)
| ActRecvFDByURL (urlStr : string)
| ActRecvFile (dev ino : Z)
| ActRecvFileByURL (urlStr : string)
| ActRead (d : Delivery)
| ActWrite (b : list byte)
| ActClose.

Section Actions.
Variable net : NetConn.
Variable url_Parse : string -> URL + error.
Variable errors_Wrapf : error -> SyscallConn -> error.

Definition perform (a : Action) : M unit :=
  match a with
  | ActSendFD fd => SendFD fd ;; ret tt
  | ActSendFile file => SendFile errors_Wrapf file ;; ret tt
  | ActRecvFD dev ino => RecvFD dev ino ;; ret tt
  | ActRecvFDByURL urlStr => RecvFDByURL url_Parse urlStr ;; ret tt
  | ActRecvFile dev ino => RecvFile dev ino ;; ret tt
  | ActRecvFileByURL urlStr => RecvFileByURL url_Parse urlStr ;; ret tt
  | ActRead d => Read d ;; ret tt
  | ActWrite b => Write net b ;; ret tt
  | ActClose => Close net ;; ret tt
  end.
End Actions.

(** *** Transport credentials ([transport_credentials.go]), [wrapConn]
    and the dial options

    A [net.Conn] as the handshakes see it: a connection of another
    package, which has a [WriteMsgUnix] method or not and implements
    [FDSender] or not, or a wrapper of this package around a
    connection.  A capturer is known by a number; calling it is recorded
    in a log with the sender it was given. *)
Module Transport.

Inductive NetConn :=
| Foreign (name : nat) (hasWriteMsgUnix isFDSender : bool)
| ConnWrap (Conn : NetConn).

Definition has_WriteMsgUnix (conn : NetConn) : bool :=
  match conn with
  | Foreign _ b _ => b
  | ConnWrap _ => false
  end.

Definition is_FDSender (conn : NetConn) : bool :=
  match conn with
  | Foreign _ _ b => b
  | ConnWrap _ => true
  end.

(** [wrapConn]. *)
Definition wrapConn (conn : NetConn) : NetConn :=
  match conn with
  | ConnWrap _ => conn
  | Foreign _ _ _ => if has_WriteMsgUnix conn then ConnWrap conn else conn
  end.

Definition AuthInfo := nat.
Definition Log := list (nat * NetConn).
Definition HandshakeResult : Type := NetConn * option AuthInfo * option error.

(** The transport credentials of another package, by their two
    handshakes. *)
Record Handshaker := mkHandshaker {
  hs_ClientHandshake : NetConn -> HandshakeResult;
  hs_ServerHandshake : NetConn -> HandshakeResult
}.

(** [credentials.TransportCredentials]: the ones of another package, or
    [wrapTransportCredentials] with its capturers around credentials
    that may be nil. *)
#[warnings="-register-all"] Inductive Creds :=
| ForeignCreds (h : Handshaker)
| wrapTransportCredentials (capturers : list nat) (TransportCredentials : option Creds).

(** [TransportCredentials(cred, capturers...)]. *)
Definition TransportCredentials (cred : option Creds) (capturers : list nat) : Creds :=
  match cred with
  | Some (wrapTransportCredentials _ _ as c) => c
  | _ => wrapTransportCredentials capturers cred
  end.

Definition capture (capturers : list nat) (fdsender : NetConn) (log : Log) : Log :=
  log ++ map (fun capturer => (capturer, fdsender)) capturers.

(** [ClientHandshake]. *)
Fixpoint ClientHandshake (c : Creds) (rawConn : NetConn) (log : Log)
  : HandshakeResult * Log :=
  match c with
  | ForeignCreds h => (hs_ClientHandshake h rawConn, log)
  | wrapTransportCredentials capturers inner =>
      let conn := wrapConn rawConn in
      let fdsender := conn in
      let ok := is_FDSender conn in
      let r :=
        match inner with
        | Some c' => ClientHandshake c' conn log
        | None => ((conn, None, None), log)
        end in
      (fst r, if ok then capture capturers fdsender (snd r) else snd r)
  end.

(** [ServerHandshake]. *)
Fixpoint ServerHandshake (c : Creds) (rawConn : NetConn) (log : Log)
  : HandshakeResult * Log :=
  match c with
  | ForeignCreds h => (hs_ServerHandshake h rawConn, log)
  | wrapTransportCredentials capturers inner =>
      let conn := wrapConn rawConn in
      let r :=
        match inner with
        | Some c' => ServerHandshake c' conn log
        | None => ((conn, None, None), log)
        end in
      let conn' := fst (fst (fst r)) in
      (fst r, if is_FDSender conn' then capture capturers conn' (snd r) else snd r)
  end.

(** The dial options: [credentialsDialOption] with the option of
    [grpc.WithTransportCredentials] it embeds, known by the credentials
    that option installs; or an option of another package, which has an
    [AddPresenders] method or not; [Presented] is what that method
    returns. *)
Record credentialsDialOption := mkCredentialsDialOption {
  creds : option Creds;
  capturers : list nat;
  DialOption_creds : Creds
}.

Inductive DialOption :=
| Own (o : credentialsDialOption)
| Other (name : nat) (hasAddPresenders : bool)
| Presented (name : nat) (presenders : list nat).

(** [WithTransportCredentials]. *)
Definition WithTransportCredentials (creds : option Creds) (capturers : list nat)
  : DialOption :=
  Own (mkCredentialsDialOption creds capturers (TransportCredentials creds [])).

(** [CaptureSender]. *)
Fixpoint CaptureSender_loop (capturer : nat) (dialopts rvDialOpts : list DialOption)
    (rvOK : bool) : list DialOption * bool :=
  match dialopts with
  | [] => (rvDialOpts, rvOK)
  | Other name true :: rest =>
      CaptureSender_loop capturer rest (rvDialOpts ++ [Presented name [capturer]]) true
  | dialopt :: rest =>
      CaptureSender_loop capturer rest (rvDialOpts ++ [dialopt]) rvOK
  end.

Definition CaptureSender (capturer : nat) (dialopts : list DialOption)
  : list DialOption * bool :=
  CaptureSender_loop capturer dialopts [] false.

(** The credentials a dial option installs for the handshakes, if it
    installs any. *)
Definition installed (o : DialOption) : option Creds :=
  match o with
  | Own o => Some (DialOption_creds o)
  | _ => None
  end.

End Transport.

(** ** Example worlds *)

(** A process with the three standard descriptors and descriptor 5 open,
    the latter on a file with the largest inode number, and a limit of
    8 descriptors. *)
Definition example_os : OS :=
  mkOS {[ 0 := mkStat 1 1; 1 := mkStat 1 1; 2 := mkStat 1 1;
          5 := mkStat 2049 18446744073709551615 ]} 8.

(** A connection that accepts everything and reports a second close. *)
Definition example_net : NetConn :=
  mkNetConn (fun _ _ _ => None)
            (fun _ p => (Z.of_nat (length p), None))
            (fun c => match nclose c with O => None | S _ => Some (ErrNet 0) end).

(** A freshly wrapped connection in that process. *)
Definition example_world : World :=
  mkWorld example_os [] [] [] (mkConn [] 0) [] wrapConn.

(** The world an operation leaves behind (the world itself if the
    operation does not return). *)
Definition world_after {A} (m : M A) (σ : World) : World :=
  match m σ with
  | Ret (_, σ') => σ'
  | _ => σ
  end.

(** Two descriptors queued by two calls of [SendFD] on descriptor 5. *)
Definition example_queued1 : World := world_after (SendFD 5) example_world.
Definition example_queued : World := world_after (SendFD 5) example_queued1.

(** One descriptor, number 5, arriving in one rights message. *)
Definition example_delivery : Delivery := mkDelivery 1 24 (inl [inl [5]]) None.

Definition example_stat : Stat_t := mkStat 2049 18446744073709551615.
Definition example_key : inodeKey := mkKey 2049 18446744073709551615.

(** A process at its descriptor limit: descriptors 0 to 5 are open and
    the limit is 6. *)
Definition example_full_os : OS :=
  mkOS {[ 0 := mkStat 1 1; 1 := mkStat 1 1; 2 := mkStat 1 1; 3 := mkStat 1 1;
          4 := mkStat 1 1; 5 := example_stat ]} 6.

(** The same with room for exactly one more descriptor. *)
Definition example_tight_os : OS := mkOS (fdtable example_full_os) 7.

(** Descriptor 5 arrived and was cached while the table was full. *)
Definition example_cached_full : World :=
  world_after (Read example_delivery)
    (mkWorld example_full_os [] [] [] (mkConn [] 0) [] wrapConn).

(** The same with room left in the table. *)
Definition example_cached : World :=
  world_after (Read example_delivery) example_world.

(** Two receivers wait for the identity of descriptor 5. *)
Definition example_two_waiters : World :=
  world_after (RecvFD 2049 18446744073709551615)
    (world_after (RecvFD 2049 18446744073709551615) example_world).

(** The same at the moment descriptor 5 has arrived, with room for one
    more descriptor. *)
Definition example_two_waiters_tight : World :=
  set_os (fun _ => example_tight_os) example_two_waiters.

(** A second descriptor, number 3, for the file of the cached
    descriptor 5 has arrived. *)
Definition example_second_arrival : World :=
  set_os (fun o => mkOS (<[3 := example_stat]> (fdtable o)) (nofile o)) example_cached.

(** The same descriptor 3 delivered behind a control message that is
    not a rights message (the error of the failed parse is not looked
    at). *)
Definition example_behind_delivery : Delivery :=
  mkDelivery 1 48 (inl [inr (ErrErrno EBADF); inl [3]]) None.

(** A wrapper with two queued sends, one cached descriptor and one
    waiter for another identity. *)
Definition example_busy : World :=
  world_after (RecvFD 7 7) (world_after (Read example_delivery) example_queued).

(** A parser for locators of the plain form [scheme://host/path], to
    have a concrete instance of [url.Parse] at hand. *)
Fixpoint example_scheme (s : string) : option (string * string) :=
  match s with
  | EmptyString => None
  | String ":" (String "/" (String "/" rest)) => Some (EmptyString, rest)
  | String c s' =>
      match example_scheme s' with
      | Some (scheme, rest) => Some (String c scheme, rest)
      | None => None
      end
  end.

Fixpoint example_authority (s : string) : string * string :=
  match s with
  | EmptyString => (EmptyString, EmptyString)
  | String "/" _ => (EmptyString, s)
  | String c s' => let '(host, path) := example_authority s' in (String c host, path)
  end.

Definition example_url_Parse (s : string) : URL + error :=
  match example_scheme s with
  | None => inr (ErrURLParse 0)
  | Some (scheme, rest) =>
      let '(host, path) := example_authority rest in inl (mkURL scheme host path)
  end.

(** A process with room for two hundred descriptors, and a wrapper in it
    on which descriptor 5 was sent a hundred times. *)
Definition example_roomy_world : World :=
  mkWorld (mkOS (fdtable example_os) 200) [] [] [] (mkConn [] 0) [] wrapConn.

Definition example_hundred : World :=
  Nat.iter 100 (world_after (SendFD 5)) example_roomy_world.

(** Descriptors 5 and 6 have arrived for the same file while two
    receivers wait for it. *)
Definition example_twins : World :=
  set_os (fun o => mkOS (<[6 := example_stat]> (fdtable o)) (nofile o))
    example_two_waiters.

(** Two receivers wait for the identity of descriptor 5 and one for
    another identity. *)
Definition example_three_waiters : World :=
  world_after (RecvFD 7 7) example_two_waiters.

(** * Properties *)

(** *** Properties of the decimal codec *)

Lemma digit_val_range c : is_digit c = true -> 0 <= digit_val c <= 9.
Proof.
  unfold is_digit, digit_val. intros H.
  apply andb_prop in H as [H1 H2]. lia.
Qed.

Lemma digit_char_is_digit d : 0 <= d <= 9 -> is_digit (digit_char d) = true.
Proof.
  intros Hd. unfold is_digit, digit_char.
  rewrite nat_ascii_embedding by lia.
  rewrite Z2Nat.id by lia. apply andb_true_intro. split; lia.
Qed.

Lemma digit_val_char d : 0 <= d <= 9 -> digit_val (digit_char d) = d.
Proof.
  intros Hd. unfold digit_val, digit_char.
  rewrite nat_ascii_embedding by lia. lia.
Qed.

Lemma decimal_value_from_mono acc s :
  0 <= acc -> all_digits s = true -> acc <= decimal_value_from acc s.
Proof.
  revert acc. induction s as [|c s IH]; intros acc Hacc Hs; simpl in *; [lia|].
  apply andb_prop in Hs as [Hc Hs].
  pose proof (digit_val_range c Hc).
  specialize (IH (acc * 10 + digit_val c) ltac:(lia) Hs). lia.
Qed.

(** One iteration of the loop of [ParseUint] on a digit: the two overflow
    tests together say that [n * 10 + d] does not fit in 64 bits. *)
Lemma ParseUint_loop_step s0 c s n :
  is_digit c = true -> 0 <= n <= maxUint64 ->
  ParseUint_loop s0 n (String c s) =
    if n * 10 + digit_val c <=? maxUint64
    then ParseUint_loop s0 (n * 10 + digit_val c) s
    else inr (ErrRange s0).
Proof.
  intros Hc Hn. pose proof (digit_val_range c Hc) as Hd.
  cbn [ParseUint_loop]. rewrite Hc.
  assert (cutoff = 1844674407370955162) as -> by reflexivity.
  assert (maxUint64 = 18446744073709551615) as Hmax by reflexivity.
  rewrite Hmax in *. unfold uint64.
  assert (2 ^ 64 = 18446744073709551616) as -> by reflexivity.
  destruct (Z.leb_spec 1844674407370955162 n) as [Hcut|Hcut].
  { destruct (Z.leb_spec (n * 10 + digit_val c) 18446744073709551615); [lia|done]. }
  rewrite (Z.mod_small (n * 10)) by lia.
  destruct (Z.leb_spec (n * 10 + digit_val c) 18446744073709551615) as [Hfit|Hfit].
  - rewrite (Z.mod_small (n * 10 + digit_val c)) by lia.
    destruct (Z.ltb_spec (n * 10 + digit_val c) (n * 10)); [lia|].
    destruct (Z.ltb_spec 18446744073709551615 (n * 10 + digit_val c)); [lia|].
    done.
  - assert ((n * 10 + digit_val c) mod 18446744073709551616
            = n * 10 + digit_val c - 18446744073709551616) as ->.
    { symmetry. apply (Z.mod_unique_pos _ _ 1); lia. }
    destruct (Z.ltb_spec (n * 10 + digit_val c - 18446744073709551616) (n * 10));
      [done|lia].
Qed.

(** The loop of [ParseUint] computes the decimal value exactly when the
    string is all digits and the value fits. *)
Lemma ParseUint_loop_ok s0 s n :
  0 <= n <= maxUint64 -> all_digits s = true ->
  decimal_value_from n s <= maxUint64 ->
  ParseUint_loop s0 n s = inl (decimal_value_from n s).
Proof.
  revert n. induction s as [|c s IH]; intros n Hn Hs Hv; [done|].
  cbn [all_digits] in Hs. apply andb_prop in Hs as [Hc Hs].
  rewrite ParseUint_loop_step by done. cbn [decimal_value_from] in *.
  pose proof (digit_val_range c Hc) as Hd.
  pose proof (decimal_value_from_mono (n * 10 + digit_val c) s ltac:(lia) Hs) as Hm.
  destruct (Z.leb_spec (n * 10 + digit_val c) maxUint64); [|lia].
  apply IH; [lia|done|done].
Qed.

Lemma ParseUint_loop_inv s0 s n v :
  0 <= n <= maxUint64 ->
  ParseUint_loop s0 n s = inl v ->
  all_digits s = true /\ v = decimal_value_from n s /\ v <= maxUint64.
Proof.
  revert n. induction s as [|c s IH]; intros n Hn H.
  { cbn in H. inversion H; subst. split; [done|]. split; [done|lia]. }
  destruct (is_digit c) eqn:Hc; [|by cbn in H; rewrite Hc in H].
  rewrite ParseUint_loop_step in H by done.
  pose proof (digit_val_range c Hc) as Hd.
  destruct (Z.leb_spec (n * 10 + digit_val c) maxUint64); [|done].
  apply IH in H as (Hs & -> & Hle); [|lia].
  cbn [all_digits decimal_value_from]. rewrite Hc, Hs. done.
Qed.

(** [ParseUint] succeeds exactly on the valid decimal fields. *)
Lemma ParseUint_valid s v :
  ParseUint s = inl v <-> valid_decimal_u64 s /\ v = decimal_value s.
Proof.
  unfold ParseUint, valid_decimal_u64, decimal_value. split.
  - destruct s as [|c s]; [done|]. intros H.
    apply ParseUint_loop_inv in H as (Hs & -> & Hle); [|unfold maxUint64; lia].
    done.
  - intros ((Hne & Hs & Hle) & ->). destruct s as [|c s]; [done|].
    apply ParseUint_loop_ok; [unfold maxUint64; lia|done|done].
Qed.

Lemma ParseUint_invalid s :
  ~ valid_decimal_u64 s -> exists err, ParseUint s = inr err.
Proof.
  intros Hn. destruct (ParseUint s) as [v|err] eqn:H; [|by eexists].
  exfalso. apply Hn. apply (ParseUint_valid s v). done.
Qed.

Lemma append_cons c (s1 s2 : string) :
  (String c s1 ++ s2)%string = String c (s1 ++ s2)%string.
Proof. reflexivity. Qed.

Lemma all_digits_app s1 s2 :
  all_digits (s1 ++ s2) = all_digits s1 && all_digits s2.
Proof.
  induction s1 as [|c s1 IH]; [done|].
  rewrite append_cons. cbn [all_digits]. rewrite IH. by rewrite andb_assoc.
Qed.

Lemma decimal_value_from_app acc s1 s2 :
  decimal_value_from acc (s1 ++ s2) =
  decimal_value_from (decimal_value_from acc s1) s2.
Proof.
  revert acc. induction s1 as [|c s1 IH]; intros acc; [done|].
  rewrite append_cons. cbn [decimal_value_from]. apply IH.
Qed.

Lemma string_app_assoc (s1 s2 s3 : string) :
  ((s1 ++ s2) ++ s3 = s1 ++ (s2 ++ s3))%string.
Proof.
  induction s1 as [|c s1 IH]; [done|].
  rewrite !append_cons. by rewrite IH.
Qed.

(** [fmtInteger] puts in front of the buffer a non-empty run of digits
    that reads back as [u]. *)
Lemma fmtInteger_spec fuel u buf :
  0 <= u < 10 ^ Z.of_nat (S fuel) ->
  exists pre,
    fmtInteger fuel u buf = (pre ++ buf)%string /\
    pre <> EmptyString /\ all_digits pre = true /\
    forall acc,
      decimal_value_from acc pre = acc * 10 ^ Z.of_nat (String.length pre) + u.
Proof.
  revert u buf. induction fuel as [|fuel IH]; intros u buf Hu.
  - change (10 ^ Z.of_nat 1) with 10 in Hu.
    exists (String (digit_char u) EmptyString). cbn [fmtInteger].
    split; [done|]. split; [done|]. split.
    + cbn [all_digits]. rewrite digit_char_is_digit by lia. done.
    + intros acc. cbn [decimal_value_from String.length].
      rewrite digit_val_char by lia. change (10 ^ Z.of_nat 1) with 10. lia.
  - cbn [fmtInteger]. destruct (Z.leb_spec 10 u) as [Hge|Hlt].
    + assert (0 <= u / 10 < 10 ^ Z.of_nat (S fuel)) as Hq.
      { split; [apply Z.div_pos; lia|].
        apply Z.div_lt_upper_bound; [lia|].
        rewrite <- Z.pow_succ_r by lia. rewrite <- Nat2Z.inj_succ. lia. }
      destruct (IH (u / 10) (String (digit_char (u - u / 10 * 10)) buf) Hq)
        as (pre & Heq & Hne & Hdig & Hval).
      pose proof (Z.div_mod u 10 ltac:(lia)) as Hdm.
      pose proof (Z.mod_pos_bound u 10 ltac:(lia)) as Hmod.
      assert (0 <= u - u / 10 * 10 <= 9) as Hd by lia.
      exists (pre ++ String (digit_char (u - u / 10 * 10)) EmptyString)%string.
      split; [by rewrite Heq, string_app_assoc|].
      split; [by destruct pre|]. split.
      * rewrite all_digits_app, Hdig. cbn [all_digits].
        rewrite digit_char_is_digit by done. done.
      * intros acc. rewrite decimal_value_from_app, Hval.
        cbn [decimal_value_from]. rewrite digit_val_char by done.
        assert (String.length (pre ++ String (digit_char (u - u / 10 * 10)) "")
                = S (String.length pre)) as ->.
        { clear. induction pre as [|c pre IH]; [done|].
          rewrite append_cons. cbn [String.length]. by rewrite IH. }
        rewrite Nat2Z.inj_succ, Z.pow_succ_r by lia. lia.
    + exists (String (digit_char u) EmptyString).
      split; [done|]. split; [done|]. split.
      * cbn [all_digits]. rewrite digit_char_is_digit by lia. done.
      * intros acc. cbn [decimal_value_from String.length].
        rewrite digit_val_char by lia. change (10 ^ Z.of_nat 1) with 10. lia.
Qed.

Lemma string_app_empty_r (s : string) : (s ++ "")%string = s.
Proof. induction s as [|c s IH]; [done|]. rewrite append_cons. by rewrite IH. Qed.

(** [%d] of a 64-bit unsigned value is a valid decimal field that reads
    back as the value. *)
Lemma Sprintf_d_decimal u :
  0 <= u <= maxUint64 ->
  valid_decimal_u64 (Sprintf_d u) /\ decimal_value (Sprintf_d u) = u.
Proof.
  intros Hu. unfold Sprintf_d, valid_decimal_u64, decimal_value.
  destruct (fmtInteger_spec 20 u EmptyString) as (pre & Heq & Hne & Hdig & Hval).
  { assert (maxUint64 < 10 ^ Z.of_nat 21) by reflexivity. lia. }
  rewrite Heq, string_app_empty_r, Hval. split; [|lia].
  split; [done|]. split; [done|lia].
Qed.

Lemma ParseUint_Sprintf_d u :
  0 <= u <= maxUint64 -> ParseUint (Sprintf_d u) = inl u.
Proof.
  intros Hu. apply ParseUint_valid.
  destruct (Sprintf_d_decimal u Hu) as [Hv Hd]. done.
Qed.

Lemma valid_decimal_first_digit s :
  valid_decimal_u64 s ->
  exists c s', s = String c s' /\ is_digit c = true.
Proof.
  intros (Hne & Hs & _). destruct s as [|c s]; [done|].
  cbn [all_digits] in Hs. apply andb_prop in Hs as [Hc _]. eauto.
Qed.



(** ** The identity codec *)

Lemma URLToDevIno_ok (u : URL) (d i : Z) :
  URLToDevIno u = inl (d, i) <->
  Scheme u = "inode"%string /\
  valid_decimal_u64 (Host u) /\ d = decimal_value (Host u) /\
  valid_decimal_u64 (TrimPrefix_slash (Path u)) /\
  i = decimal_value (TrimPrefix_slash (Path u)).
Proof.
  unfold URLToDevIno. split.
  - destruct (String.eqb_spec (Scheme u) "inode") as [Hs|Hs]; cbn [negb]; [|done].
    destruct (ParseUint (Host u)) as [d'|] eqn:Hd; [|done].
    destruct (ParseUint (TrimPrefix_slash (Path u))) as [i'|] eqn:Hi; [|done].
    intros [= <- <-].
    apply ParseUint_valid in Hd as [? ?]. apply ParseUint_valid in Hi as [? ?].
    done.
  - intros (Hs & Hd & -> & Hi & ->). rewrite Hs. cbn.
    rewrite (proj2 (ParseUint_valid (Host u) _) (conj Hd eq_refl)).
    by rewrite (proj2 (ParseUint_valid (TrimPrefix_slash (Path u)) _) (conj Hi eq_refl)).
Qed.

Section CodecRoundTrip.
Variable escapeHost escapePath : string -> string.

(** Decimal digits are unreserved characters: [net/url] does not escape
    them, in a host or in a path. *)
Hypothesis escapeHost_digits : forall s, all_digits s = true -> escapeHost s = s.
Hypothesis escapePath_digits : forall s, all_digits s = true -> escapePath s = s.


Variable url_Parse : string -> URL + error.

(** What [url.Parse] does on a locator of the generic form with a host
    and a path of digits. *)
Hypothesis url_Parse_locator : forall host path,
  valid_decimal_u64 host -> valid_decimal_u64 path ->
  url_Parse ("inode://" ++ host ++ "/" ++ path)%string
    = inl (mkURL "inode" host (String "/" path)).

(** The same round trip through the locator string. *)
Lemma URLStringToDevIno_roundtrip (device inode : Z) :
  0 <= device <= maxUint64 -> 0 <= inode <= maxUint64 ->
  URLStringToDevIno url_Parse
    ("inode://" ++ Sprintf_d device ++ "/" ++ Sprintf_d inode)%string
    = inl (device, inode).
Proof.
  intros Hdev Hino.
  destruct (Sprintf_d_decimal device Hdev) as [Hvd Hdd].
  destruct (Sprintf_d_decimal inode Hino) as [Hvi Hdi].
  unfold URLStringToDevIno. rewrite url_Parse_locator by done.
  apply URLToDevIno_ok. done.
Qed.
End CodecRoundTrip.


(** ** Descriptors and channels *)

Lemma bind_Ret {A B} (m : M A) (k : A -> M B) σ a σ' :
  m σ = Ret (a, σ') -> bind m k σ = k a σ'.
Proof. intros H. unfold bind. by rewrite H. Qed.

Lemma lowest_free_spec o n :
  lowest_free o = Some n ->
  fdtable o !! n = None /\ 0 <= n < nofile o.
Proof.
  unfold lowest_free. intros H.
  destruct (list_find _ _) as [[i x]|] eqn:Hf; [|done].
  cbn in H. injection H as ->.
  apply list_find_Some in Hf as (Hl & Hn & _).
  split; [done|]. apply lookup_seqZ in Hl. lia.
Qed.

Lemma F_DUPFD_ok o fd o' n :
  F_DUPFD o fd = (o', inl n) ->
  exists st,
    fdtable o !! fd = Some st /\ fdtable o !! n = None /\
    o' = mkOS (<[n := st]> (fdtable o)) (nofile o).
Proof.
  unfold F_DUPFD. destruct (fdtable o !! fd) as [st|] eqn:Hfd; [|done].
  destruct (lowest_free o) as [m|] eqn:Hm; [|done].
  intros [= <- <-]. exists st. split; [done|]. split; [|done].
  by apply lowest_free_spec in Hm as [? _].
Qed.

Lemma F_DUPFD_fail o fd o' e : F_DUPFD o fd = (o', inr e) -> o' = o.
Proof.
  unfold F_DUPFD. destruct (fdtable o !! fd); [|by intros [= <-]].
  destruct (lowest_free o); [done|by intros [= <-]].
Qed.

Lemma chan_send_fresh {V} (h : list (Chan V)) ch v :
  h !! ch = Some fresh_chan ->
  chan_send h ch v = Ret (<[ch := mkChan [v] 1 false]> h).
Proof. unfold chan_send. intros ->. done. Qed.

Lemma chan_close_open {V} (h : list (Chan V)) ch l :
  h !! ch = Some (mkChan l 1 false) ->
  chan_close h ch = Ret (<[ch := mkChan l 1 true]> h).
Proof. unfold chan_close. intros ->. done. Qed.

(** A send followed by a close on a fresh channel. *)
Lemma chan_send_close_fresh {V} (h : list (Chan V)) ch v :
  h !! ch = Some fresh_chan ->
  exists h1, chan_send h ch v = Ret h1 /\
             chan_close h1 ch = Ret (<[ch := mkChan [v] 1 true]> h).
Proof.
  intros Hch. eexists. split; [by apply chan_send_fresh|].
  erewrite chan_close_open.
  - by rewrite list_insert_insert_eq.
  - apply list_lookup_insert_eq. by eapply lookup_lt_Some.
Qed.

(** ** [Write] *)

Section WriteProps.
Variable net : NetConn.

Lemma Write_body_ok b chs i fd σ bi ch :
  b !! i = Some bi -> chs !! i = Some ch ->
  errHeap σ !! ch = Some fresh_chan ->
  Write_body net b chs i fd σ = Ret (tt, body_world net σ bi fd ch).
Proof.
  intros Hb Hch Hfresh.
  unfold Write_body, index, bind, conn_WriteMsgUnix. rewrite Hb, Hch. cbn.
  destruct (WriteMsgUnix_err net (conn σ) [bi] [fd]) as [e|] eqn:He.
  - destruct (chan_send_close_fresh (errHeap σ) ch e Hfresh) as (h1 & Hs & Hc).
    unfold send_errCh, close_errCh, lift_heap. cbn. rewrite Hs. cbn.
    rewrite Hc. cbn. unfold body_world. by rewrite He.
  - unfold close_errCh, lift_heap, ret. cbn.
    rewrite (chan_close_open _ _ [] Hfresh). cbn.
    unfold body_world. by rewrite He.
Qed.

Lemma Write_body_short b chs i fd σ :
  b !! i = None ->
  Write_body net b chs i fd σ = Panics (IndexOutOfRange i (length b)).
Proof. intros Hb. unfold Write_body, index, bind. by rewrite Hb. Qed.

Lemma conn_after_nil c : conn_after c [] = c.
Proof. destruct c. unfold conn_after. cbn. by rewrite app_nil_r. Qed.

Lemma conn_after_app c l1 l2 :
  conn_after (conn_after c l1) l2 = conn_after c (l1 ++ l2).
Proof. unfold conn_after. cbn. by rewrite app_assoc. Qed.

Lemma foldl_sys_close_lookup fds : forall o fd,
  fdtable (foldl sys_close o fds) !! fd =
    if decide (fd ∈ fds) then None else fdtable o !! fd.
Proof.
  induction fds as [|x fds IH]; intros o fd; cbn [foldl].
  - rewrite decide_False by apply not_elem_of_nil. done.
  - rewrite IH. cbn [sys_close fdtable].
    destruct (decide (fd ∈ fds)) as [Hin|Hin].
    + rewrite decide_True by (by right). done.
    + destruct (decide (fd = x)) as [->|Hne].
      * rewrite decide_True by left. apply lookup_delete_eq.
      * rewrite decide_False by (by intros [?|?]%elem_of_cons).
        by apply lookup_delete_ne.
Qed.

Lemma foldl_sys_close_nofile fds : forall o,
  nofile (foldl sys_close o fds) = nofile o.
Proof. induction fds as [|x fds IH]; intros o; cbn [foldl]; [done|]. by rewrite IH. Qed.

(** The loop of [Write] when the buffer has a byte for every drained
    entry. *)
Lemma Write_loop_ok b chsAll fds : forall i σ,
  (i + length fds <= length chsAll)%nat ->
  NoDup (take (length fds) (drop i chsAll)) ->
  (forall ch, ch ∈ take (length fds) (drop i chsAll) ->
              errHeap σ !! ch = Some fresh_chan) ->
  (i + length fds <= length b)%nat ->
  exists σ',
    forI_ i fds (Write_body net b chsAll) σ = Ret (tt, σ') /\
    Write_loop_post net (drop i b) fds (take (length fds) (drop i chsAll)) σ σ'.
Proof.
  induction fds as [|fd fds IH]; intros i σ Hlen Hnd Hfresh Hb.
  - exists σ. split; [done|]. unfold Write_loop_post. cbn [length take].
    rewrite take_0. unfold drain_msgs. rewrite zip_with_nil_r.
    rewrite conn_after_nil. repeat split; try done.
  - cbn [length] in *.
    destruct (lookup_lt_is_Some_2 b i ltac:(lia)) as [bi Hbi].
    destruct (lookup_lt_is_Some_2 chsAll i ltac:(lia)) as [ch Hch].
    rewrite (drop_S _ _ _ Hch) in *. rewrite (drop_S _ _ _ Hbi).
    cbn [take] in *. apply NoDup_cons in Hnd as [Hnotin Hnd].
    cbn [forI_]. unfold bind at 1.
    rewrite (Write_body_ok b chsAll i fd σ bi ch Hbi Hch) by (apply Hfresh; left).
    destruct (IH (S i) (body_world net σ bi fd ch)) as (σ' & Hrun & Hpost);
      [lia|done| |lia|].
    { intros ch' Hin. cbn [body_world errHeap].
      rewrite list_lookup_insert_ne by (intros ->; done).
      apply Hfresh. by right. }
    exists σ'. split; [done|].
    destruct Hpost as (Hw & Hfd & Hfile & Hgo & Hconn & Hos & Hlenh & Hother & Hmine).
    unfold Write_loop_post. cbn [body_world w fdHeap fileHeap goroutines conn os errHeap] in *.
    rewrite length_insert in Hlenh.
    repeat split; try done.
    + rewrite Hconn, conn_after_app. done.
    + intros ch' Hnin. apply not_elem_of_cons in Hnin as [Hne Hnin].
      rewrite Hother by done. by rewrite list_lookup_insert_ne.
    + intros j ch' fd' bj Hj Hfdj Hbj. destruct j as [|j].
      * cbn in Hj, Hfdj, Hbj. injection Hj as <-. injection Hfdj as <-.
        injection Hbj as <-. rewrite Hother by done.
        rewrite take_0. unfold drain_msgs at 1. rewrite zip_with_nil_r.
        rewrite conn_after_nil. apply list_lookup_insert_eq.
        eapply lookup_lt_Some. apply Hfresh. left.
      * cbn in Hj, Hfdj, Hbj. rewrite (Hmine j ch' fd' bj Hj Hfdj Hbj).
        rewrite conn_after_app. done.
Qed.

(** The loop of [Write] when the buffer runs out before the drained
    entries do: the index expression [b[i]] panics at [i = len(b)]. *)
Lemma Write_loop_short b chsAll fds : forall i σ,
  (i + length fds <= length chsAll)%nat ->
  NoDup (take (length fds) (drop i chsAll)) ->
  (forall ch, ch ∈ take (length fds) (drop i chsAll) ->
              errHeap σ !! ch = Some fresh_chan) ->
  (i <= length b < i + length fds)%nat ->
  forI_ i fds (Write_body net b chsAll) σ
    = Panics (IndexOutOfRange (length b) (length b)).
Proof.
  induction fds as [|fd fds IH]; intros i σ Hlen Hnd Hfresh Hb.
  - cbn [length] in Hb. lia.
  - cbn [length] in *. cbn [forI_]. unfold bind at 1.
    destruct (b !! i) as [bi|] eqn:Hbi.
    + destruct (lookup_lt_is_Some_2 chsAll i ltac:(lia)) as [ch Hch].
      rewrite (drop_S _ _ _ Hch) in *. cbn [take] in *.
      apply NoDup_cons in Hnd as [Hnotin Hnd].
      rewrite (Write_body_ok b chsAll i fd σ bi ch Hbi Hch) by (apply Hfresh; left).
      apply lookup_lt_Some in Hbi.
      apply IH; [lia|done| |lia].
      intros ch' Hin. cbn [body_world errHeap].
      rewrite list_lookup_insert_ne by (intros ->; done).
      apply Hfresh. by right.
    + rewrite Write_body_short by done.
      apply lookup_ge_None in Hbi. by replace i with (length b) by lia.
Qed.

Lemma drain_msgs_lookup b fds j fd bj :
  fds !! j = Some fd -> b !! j = Some bj ->
  drain_msgs b fds !! j = Some (MsgUnix [bj] [fd]).
Proof.
  intros Hfd Hb. unfold drain_msgs. rewrite lookup_zip_with, Hb. cbn. by rewrite Hfd.
Qed.

Lemma drain_msgs_length b fds :
  (length fds <= length b)%nat -> length (drain_msgs b fds) = length fds.
Proof. intros H. unfold drain_msgs. rewrite length_zip_with. lia. Qed.

(** [Write] under the invariant of the send queue, for a buffer with at
    least one byte per drained entry. *)
Lemma Write_ok b σ :
  wf_send σ ->
  (Nat.min (length (sendFDs (w σ))) maxFDCount <= length b)%nat ->
  exists res σ', Write net b σ = Ret (res, σ') /\ Write_post net b σ res σ'.
Proof.
  intros (Hlen & Hnd & Hfresh) Hb.
  set (limit := Nat.min (length (sendFDs (w σ))) maxFDCount) in *.
  set (fds := take limit (sendFDs (w σ))).
  set (chs := take limit (errChs (w σ))).
  assert (length fds = limit) as Hfdslen by (unfold fds; rewrite length_take; lia).
  assert (length chs = limit) as Hchslen by (unfold chs; rewrite length_take; lia).
  (* the loop *)
  assert (forall σ0, errHeap σ0 = errHeap σ ->
            exists σ1, forI_ 0 fds (Write_body net b chs) σ0 = Ret (tt, σ1) /\
                       Write_loop_post net b fds chs σ0 σ1) as Hloop.
  { intros σ0 Hh.
    destruct (Write_loop_ok b chs fds 0 σ0) as (σ1 & Hrun & Hpost).
    - lia.
    - rewrite drop_0, Hfdslen, <- Hchslen, firstn_all. unfold chs.
      eapply sublist_NoDup; [done|apply sublist_take].
    - rewrite drop_0, Hfdslen, <- Hchslen, firstn_all. intros ch Hin.
      rewrite Hh. apply Hfresh. unfold chs in Hin.
      eapply elem_of_take in Hin as (? & ? & ?). by eapply list_elem_of_lookup_2.
    - lia.
    - exists σ1. split; [done|].
      by rewrite !drop_0, Hfdslen, <- Hchslen, firstn_all in Hpost. }
  (* the prologue computes the two local slices *)
  set (σ0 := set_w (fun cw => mkConnWrap (drop limit (sendFDs cw)) (drop limit (errChs cw))
                                (recvFDChans cw) (recvedFDs cw)) σ).
  destruct (Hloop σ0 eq_refl) as (σ1 & Hrun & Hpost).
  destruct Hpost as (Hw & Hfd & Hfile & Hgo & Hconn & Hos & Hlenh & Hother & Hmine).
  set (r := Write_res net (conn σ1) (drop limit b)).
  exists (match snd r with None => (fst r + Z.of_nat limit, None)
                         | Some e => (fst r, Some e) end).
  exists (set_conn (conn_after (conn σ1) [MsgData (drop limit b)]) σ1).
  split.
  - unfold Write. unfold bind at 1. cbn [gets].
    destruct (decide (0 < length (sendFDs (w σ)))%nat) as [Hpos|Hzero].
    + unfold bind at 1. unfold bind at 2.
      assert ((if decide (maxFDCount < length (sendFDs (w σ)))%nat
               then maxFDCount else length (sendFDs (w σ))) = limit) as ->.
      { unfold limit. case_decide; lia. }
      unfold slice_to, slice_from.
      rewrite !decide_True by lia.
      cbn [bind ret modify fst snd]. unfold bind. cbn [ret modify fst snd].
      fold fds chs.
      change (set_w _ (set_w _ σ)) with σ0.
      rewrite Hrun. rewrite Hfdslen, decide_True by lia.
      unfold conn_Write, conn_after, ret. fold r.
      destruct (snd r); done.
    + assert (sendFDs (w σ) = []) as Hnil by (destruct (sendFDs (w σ)); [done|cbn in Hzero; lia]).
      assert (limit = 0%nat) as Hl0 by (unfold limit; rewrite Hnil; done).
      assert (fds = []) as Hfds by (unfold fds; rewrite Hl0; apply take_0).
      assert (errChs (w σ) = []) as Hcnil.
      { rewrite Hnil in Hlen. destruct (errChs (w σ)); [done|cbn in Hlen; lia]. }
      assert (σ0 = σ) as Hσ0.
      { unfold σ0, set_w. rewrite Hl0, !drop_0. destruct σ as [? ? ? ? ? ? []]. done. }
      rewrite Hσ0, Hfds in Hrun. cbn in Hrun. injection Hrun as <-.
      unfold bind. cbn [ret fst snd forI_ length]. unfold slice_from.
      rewrite decide_True by lia. cbn [ret].
      unfold conn_Write, r. rewrite Hl0, drop_0. unfold conn_after.
      unfold ret. destruct (snd (Write_res net (conn σ) b)); done.
  - unfold Write_post. fold limit fds chs.
    cbn [set_conn w conn errHeap os fdHeap].
    rewrite Hw, Hconn, Hfd, Hos. cbn [σ0 set_w w conn os fdHeap errHeap] in *.
    subst r. rewrite Hconn.
    split; [done|]. split; [done|]. split; [done|]. split; [done|].
    split; [by rewrite conn_after_app|].
    split; [by rewrite drain_msgs_length by lia|].
    split.
    { intros j fd Hj. destruct (lookup_lt_is_Some_2 b j) as [bj Hbj].
      { apply lookup_lt_Some in Hj. lia. }
      exists bj. split; [done|]. by apply drain_msgs_lookup. }
    split; [done|]. split.
    { intros Hio Hnone.
      destruct (Write_res net (conn_after (conn σ) (drain_msgs b fds)) (drop limit b))
        as [n [e|]] eqn:Hr; cbn in *; [done|].
      apply Hio in Hr. rewrite Hr, length_drop. lia. }
    split; [done|]. split; [done|]. split; [|done].
    intros fd Hin. rewrite foldl_sys_close_lookup. by rewrite decide_True.
Qed.

(** [Write] under the invariant of the send queue, for a buffer shorter
    than the number of drained entries. *)
Lemma Write_short b σ :
  wf_send σ ->
  (length b < Nat.min (length (sendFDs (w σ))) maxFDCount)%nat ->
  Write net b σ = Panics (IndexOutOfRange (length b) (length b)).
Proof.
  intros (Hlen & Hnd & Hfresh) Hb.
  set (limit := Nat.min (length (sendFDs (w σ))) maxFDCount) in *.
  set (fds := take limit (sendFDs (w σ))).
  set (chs := take limit (errChs (w σ))).
  assert (length fds = limit) as Hfdslen by (unfold fds; rewrite length_take; lia).
  assert (length chs = limit) as Hchslen by (unfold chs; rewrite length_take; lia).
  unfold Write. unfold bind at 1. cbn [gets].
  rewrite decide_True by lia.
  unfold bind at 1. unfold bind at 2.
  assert ((if decide (maxFDCount < length (sendFDs (w σ)))%nat
           then maxFDCount else length (sendFDs (w σ))) = limit) as ->.
  { unfold limit. case_decide; lia. }
  unfold slice_to, slice_from.
  rewrite !decide_True by lia.
  cbn [bind ret modify fst snd]. unfold bind. cbn [ret modify fst snd].
  fold fds chs.
  rewrite (Write_loop_short b chs fds 0); [done|lia| | |lia].
  - rewrite drop_0, Hfdslen, <- Hchslen, firstn_all.
    eapply sublist_NoDup; [done|apply sublist_take].
  - rewrite drop_0, Hfdslen, <- Hchslen, firstn_all. intros ch Hin.
    cbn [set_w errHeap]. apply Hfresh. unfold chs in Hin.
    eapply elem_of_take in Hin as (? & ? & ?). by eapply list_elem_of_lookup_2.
Qed.

(** [Write] keeps the invariant of the send queue. *)
Lemma Write_wf_send b σ res σ' :
  wf_send σ -> Write_post net b σ res σ' -> wf_send σ'.
Proof.
  intros (Hlen & Hnd & Hfresh) Hpost.
  destruct Hpost as (Hs & Hc & _ & _ & _ & _ & _ & _ & _ & _ & Hother & _).
  set (limit := Nat.min (length (sendFDs (w σ))) maxFDCount) in *.
  rewrite <- (take_drop limit (errChs (w σ))) in Hnd.
  apply NoDup_app in Hnd as (_ & Hdisj & Hnd').
  unfold wf_send. rewrite Hs, Hc. split; [by rewrite !length_drop, Hlen|].
  split; [done|]. intros ch Hin. rewrite Hother.
  - apply Hfresh. rewrite <- (take_drop limit (errChs (w σ))).
    apply elem_of_app. by right.
  - intros Hin'. by apply (Hdisj ch).
Qed.
End WriteProps.

(** ** [SendFD] *)

Lemma lookup_snoc_new {A} (l : list A) x : (l ++ [x]) !! length l = Some x.
Proof. by apply list_lookup_middle. Qed.

Lemma insert_snoc_new {A} (l : list A) x y : <[length l := y]> (l ++ [x]) = l ++ [y].
Proof. rewrite insert_app_r_alt by lia. by rewrite Nat.sub_diag. Qed.

(** What [SendFD] does, by the outcome of the duplication. *)
Lemma SendFD_spec fd σ :
  SendFD fd σ =
    let ch := length (errHeap σ) in
    match F_DUPFD (os σ) fd with
    | (o, inl fd') =>
        Ret (ch, mkWorld o (errHeap σ ++ [fresh_chan]) (fdHeap σ) (fileHeap σ)
                   (conn σ) (goroutines σ)
                   (mkConnWrap (sendFDs (w σ) ++ [fd']) (errChs (w σ) ++ [ch])
                      (recvFDChans (w σ)) (recvedFDs (w σ))))
    | (o, inr errno) =>
        Ret (ch, mkWorld o (errHeap σ ++ [mkChan [ErrErrno errno] 1 true]) (fdHeap σ)
                   (fileHeap σ) (conn σ) (goroutines σ) (w σ))
    end.
Proof.
  unfold SendFD, bind, make_errCh, chan_make, syscall_F_DUPFD. cbn.
  destruct (F_DUPFD (os σ) fd) as [o [fd'|errno]]; cbn; [done|].
  unfold send_errCh, close_errCh, lift_heap. cbn.
  rewrite (chan_send_fresh _ _ _ (lookup_snoc_new (errHeap σ) fresh_chan)). cbn.
  erewrite chan_close_open.
  2:{ apply list_lookup_insert_eq. rewrite length_app. cbn. lia. }
  cbn. rewrite list_insert_insert_eq, insert_snoc_new. done.
Qed.

(** [SendFD] keeps the invariant of the send queue. *)
Lemma SendFD_wf_send fd σ ch σ' :
  wf_send σ -> SendFD fd σ = Ret (ch, σ') -> wf_send σ'.
Proof.
  intros (Hlen & Hnd & Hfresh). rewrite SendFD_spec. cbn zeta.
  assert (forall c, c ∈ errChs (w σ) -> (c < length (errHeap σ))%nat) as Hbound.
  { intros c Hc. eapply lookup_lt_Some. by apply Hfresh. }
  destruct (F_DUPFD (os σ) fd) as [o [fd'|errno]]; intros [= <- <-];
    unfold wf_send; cbn [w errHeap sendFDs errChs].
  - split; [rewrite !length_app; cbn; lia|]. split.
    + apply NoDup_app. split; [done|]. split; [|apply NoDup_singleton].
      intros c Hc ->%list_elem_of_singleton. apply Hbound in Hc. lia.
    + intros c [Hc| ->%list_elem_of_singleton]%elem_of_app.
      * rewrite lookup_app_l by by apply Hbound. by apply Hfresh.
      * apply lookup_snoc_new.
  - split; [done|]. split; [done|]. intros c Hc.
    rewrite lookup_app_l by by apply Hbound. by apply Hfresh.
Qed.

Lemma wf_send_example_world : wf_send example_world.
Proof.
  split; [done|]. split; [apply NoDup_nil_2|].
  intros ch Hin. by apply elem_of_nil in Hin.
Qed.

Lemma wf_send_example_queued : wf_send example_queued.
Proof.
  apply (SendFD_wf_send 5 example_queued1 1%nat example_queued); [|reflexivity].
  apply (SendFD_wf_send 5 example_world 0%nat example_queued1); [|reflexivity].
  apply wf_send_example_world.
Qed.

(** ** The contract of [Write] *)

(** C1 (as amended): for every call to Write on a wrapped connection in
    a well-formed state whose pending-send queue holds k entries, with a
    buffer of at least min(k, 64) bytes, exactly min(k, 64) entries are
    drained from the front of the queue in queue (submission) order, the
    j-th transmitted as one ancillary-data message carrying exactly the
    one byte b[j]; the entries beyond the cap remain queued; the byte
    count returned on success is the count of the wrapped connection's
    write plus the drained count, which is the full buffer length when
    the wrapped connection honours the io.Writer contract; each drained
    entry's result channel is closed and its descriptor closed. *)
Theorem Write_drains_queue_front (net : NetConn) (b : list byte) (σ : World) :
  wf_send σ ->
  (Nat.min (length (sendFDs (w σ))) maxFDCount <= length b)%nat ->
  exists res σ',
    Write net b σ = Ret (res, σ') /\
    Write_post net b σ res σ' /\
    wf_send σ' /\
    (length (sendFDs (w σ')) = length (sendFDs (w σ)) - maxFDCount)%nat.
Proof.
  intros Hwf Hb. destruct (Write_ok net b σ Hwf Hb) as (res & σ' & Hrun & Hpost).
  exists res, σ'. split; [done|]. split; [done|].
  split; [by eapply Write_wf_send|].
  destruct Hpost as (Hq & _). rewrite Hq, length_drop. lia.
Qed.

Lemma Write_drains_queue_front_witness :
  exists res σ',
    Write example_net ["a"; "b"; "c"]%byte example_queued = Ret (res, σ') /\
    Write_post example_net ["a"; "b"; "c"]%byte example_queued res σ' /\
    wf_send σ' /\
    (length (sendFDs (w σ')) = length (sendFDs (w example_queued)) - maxFDCount)%nat.
Proof.
  apply (Write_drains_queue_front example_net ["a"; "b"; "c"]%byte example_queued).
  - apply wf_send_example_queued.
  - vm_compute. lia.
Defined.

(** C1 as stated fails: with two entries queued and a one-byte buffer,
    Write does not return at all, so the second entry is not transmitted
    and no byte count is returned. *)
Lemma Write_short_buffer_counterexample :
  wf_send example_queued /\
  length (sendFDs (w example_queued)) = 2%nat /\
  Write example_net ["a"]%byte example_queued = Panics (IndexOutOfRange 1 1) /\
  ~ (exists res σ',
       Write example_net ["a"]%byte example_queued = Ret (res, σ') /\
       Write_post example_net ["a"]%byte example_queued res σ').
Proof.
  split; [apply wf_send_example_queued|]. split; [reflexivity|].
  assert (Write example_net ["a"]%byte example_queued = Panics (IndexOutOfRange 1 1))
    as Hp by (vm_compute; reflexivity).
  split; [done|]. intros (res & σ' & Hrun & _). by rewrite Hp in Hrun.
Qed.

(** C10: Write reads [b] at the positions 0 .. min(k, 64) - 1 without a
    length check.  With k > 0 entries queued the call returns, the j-th
    message carrying b[j], when len(b) >= min(k, 64); for any shorter
    buffer the index expression is out of range, at index len(b). *)
Theorem Write_buffer_length_precondition (net : NetConn) (b : list byte) (σ : World) :
  wf_send σ ->
  (0 < length (sendFDs (w σ)))%nat ->
  let limit := Nat.min (length (sendFDs (w σ))) maxFDCount in
  ((limit <= length b)%nat ->
   exists res σ',
     Write net b σ = Ret (res, σ') /\
     forall j, (j < limit)%nat ->
       exists bj fd, b !! j = Some bj /\ sendFDs (w σ) !! j = Some fd /\
                     wire (conn σ') !! (length (wire (conn σ)) + j)%nat
                       = Some (MsgUnix [bj] [fd])) /\
  ((length b < limit)%nat ->
   Write net b σ = Panics (IndexOutOfRange (length b) (length b))).
Proof.
  intros Hwf Hpos limit. split.
  - intros Hb. destruct (Write_ok net b σ Hwf Hb) as (res & σ' & Hrun & Hpost).
    exists res, σ'. split; [done|]. intros j Hj.
    destruct Hpost as (_ & _ & _ & _ & Hconn & Hlen & Hmsg & _).
    fold limit in Hconn, Hlen, Hmsg.
    destruct (lookup_lt_is_Some_2 (take limit (sendFDs (w σ))) j) as [fd Hfd].
    { rewrite length_take. lia. }
    destruct (Hmsg j fd Hfd) as (bj & Hbj & Hm).
    exists bj, fd. split; [done|]. split.
    { rewrite lookup_take_lt in Hfd by done. done. }
    rewrite Hconn. cbn [conn_after wire].
    rewrite lookup_app_r by lia.
    replace (length (wire (conn σ)) + j - length (wire (conn σ)))%nat with j by lia.
    rewrite lookup_app_l by lia. done.
  - intros Hb. by apply Write_short.
Qed.

Lemma Write_buffer_length_precondition_witness :
  let limit := Nat.min (length (sendFDs (w example_queued))) maxFDCount in
  ((limit <= length ["a"]%byte)%nat ->
   exists res σ',
     Write example_net ["a"]%byte example_queued = Ret (res, σ') /\
     forall j, (j < limit)%nat ->
       exists bj fd, ["a"]%byte !! j = Some bj /\
                     sendFDs (w example_queued) !! j = Some fd /\
                     wire (conn σ') !! (length (wire (conn example_queued)) + j)%nat
                       = Some (MsgUnix [bj] [fd])) /\
  ((length ["a"]%byte < limit)%nat ->
   Write example_net ["a"]%byte example_queued
     = Panics (IndexOutOfRange (length ["a"]%byte) (length ["a"]%byte))).
Proof.
  apply (Write_buffer_length_precondition example_net ["a"]%byte example_queued).
  - apply wf_send_example_queued.
  - vm_compute. lia.
Defined.

(** ** Duplicates *)

Lemma delivered_inv o fd fd' :
  delivered o fd = [fd'] ->
  exists st,
    fdtable o !! fd = Some st /\ fdtable o !! fd' = None /\
    fdtable (fst (F_DUPFD o fd)) !! fd' = Some st.
Proof.
  unfold delivered. destruct (F_DUPFD o fd) as [o' [n|e]] eqn:Hd; cbn; [|done].
  intros [= ->]. apply F_DUPFD_ok in Hd as (st & Hfd & Hn & ->).
  exists st. cbn. by rewrite lookup_insert_eq.
Qed.

Lemma delivered_nil o fd :
  delivered o fd = [] -> exists e, snd (F_DUPFD o fd) = inr e /\ fst (F_DUPFD o fd) = o.
Proof.
  unfold delivered. destruct (F_DUPFD o fd) as [o' [n|e]] eqn:Hd; cbn; [done|].
  intros _. exists e. split; [done|]. by apply F_DUPFD_fail in Hd.
Qed.

(** A duplication never disturbs a descriptor that is already open. *)
Lemma F_DUPFD_keeps o fd x st :
  fdtable o !! x = Some st -> fdtable (fst (F_DUPFD o fd)) !! x = Some st.
Proof.
  intros Hx. destruct (F_DUPFD o fd) as [o' [n|e]] eqn:Hd; cbn.
  - apply F_DUPFD_ok in Hd as (st' & Hfd & Hn & ->). cbn.
    rewrite lookup_insert_ne; [done|]. intros ->. by rewrite Hx in Hn.
  - apply F_DUPFD_fail in Hd as ->. done.
Qed.

Lemma dups_keeps fd n : forall o x st,
  fdtable o !! x = Some st -> fdtable (dups o fd n) !! x = Some st.
Proof.
  induction n as [|n IH]; intros o x st Hx; cbn [dups]; [done|].
  apply IH. by apply F_DUPFD_keeps.
Qed.

Lemma dups_S o fd n : dups o fd (S n) = fst (F_DUPFD (dups o fd n) fd).
Proof. revert o. induction n as [|n IH]; intros o; [done|]. cbn [dups] in *. apply IH. Qed.

(** ** The waiters of a map *)

Lemma waiters_delete (m : gmap inodeKey (list nat)) key l :
  m !! key = Some l -> waiters m ≡ₚ l ++ waiters (delete key m).
Proof.
  intros H. unfold waiters. rewrite <- (map_to_list_delete m key l H). done.
Qed.

Lemma waiters_insert (m : gmap inodeKey (list nat)) key l :
  waiters (<[key := l]> m) ≡ₚ l ++ waiters (delete key m).
Proof.
  unfold waiters. rewrite <- insert_delete_eq.
  rewrite map_to_list_insert by apply lookup_delete_eq. done.
Qed.

Lemma waiters_default (m : gmap inodeKey (list nat)) key :
  waiters m ≡ₚ default [] (m !! key) ++ waiters (delete key m).
Proof.
  destruct (m !! key) as [l|] eqn:H; cbn.
  - by apply waiters_delete.
  - by rewrite delete_id.
Qed.

Lemma waiters_empty : waiters ∅ = [].
Proof. unfold waiters. by rewrite map_to_list_empty. Qed.

(** ** The loop over the waiting receivers *)


(** A duplication followed by the hand-over on a fresh channel. *)
Lemma resolve_fresh (σ : World) fd ch :
  fdHeap σ !! ch = Some fresh_chan ->
  (let* r := syscall_F_DUPFD fd in
   match r with
   | inr _ => close_fdCh ch
   | inl fd' => send_fdCh ch fd' ;; close_fdCh ch
   end) σ = Ret (tt, resolve_world σ fd ch).
Proof.
  intros Hfresh. unfold bind, syscall_F_DUPFD, resolve_world, delivered.
  destruct (F_DUPFD (os σ) fd) as [o [fd'|e]]; cbn.
  - destruct (chan_send_close_fresh (fdHeap σ) ch fd' Hfresh) as (h1 & Hs & Hc).
    unfold send_fdCh, close_fdCh, lift_heap. cbn. rewrite Hs. cbn. by rewrite Hc.
  - unfold close_fdCh, lift_heap. cbn.
    by rewrite (chan_close_open _ _ [] Hfresh).
Qed.

Lemma Read_waiter_ok key fd ch σ :
  recvedFDs (w σ) !! key = Some fd ->
  fdHeap σ !! ch = Some fresh_chan ->
  Read_waiter key ch σ = Ret (tt, resolve_world σ fd ch).
Proof.
  intros Hkey Hfresh. unfold Read_waiter. unfold bind at 1. cbn [gets].
  rewrite Hkey. cbn [default]. by apply resolve_fresh.
Qed.

Lemma Read_waiters_ok key fd chs : forall σ,
  recvedFDs (w σ) !! key = Some fd ->
  NoDup chs ->
  (forall ch, ch ∈ chs -> fdHeap σ !! ch = Some fresh_chan) ->
  exists σ',
    forM_ chs (Read_waiter key) σ = Ret (tt, σ') /\
    w σ' = w σ /\ errHeap σ' = errHeap σ /\ fileHeap σ' = fileHeap σ /\
    conn σ' = conn σ /\ goroutines σ' = goroutines σ /\
    os σ' = dups (os σ) fd (length chs) /\
    length (fdHeap σ') = length (fdHeap σ) /\
    (forall ch, ch ∉ chs -> fdHeap σ' !! ch = fdHeap σ !! ch) /\
    (forall j ch, chs !! j = Some ch ->
       fdHeap σ' !! ch = Some (mkChan (delivered (dups (os σ) fd j) fd) 1 true)).
Proof.
  induction chs as [|ch chs IH]; intros σ Hkey Hnd Hfresh.
  - exists σ. repeat split; try done.
  - apply NoDup_cons in Hnd as [Hnotin Hnd].
    cbn [forM_]. unfold bind at 1.
    rewrite (Read_waiter_ok key fd ch σ Hkey) by (apply Hfresh; left).
    destruct (IH (resolve_world σ fd ch)) as
      (σ' & Hrun & Hw & Herr & Hfile & Hconn & Hgo & Hos & Hlen & Hother & Hmine);
      [done|done| |].
    { intros ch' Hin. cbn [resolve_world fdHeap].
      rewrite list_lookup_insert_ne by (intros ->; done).
      apply Hfresh. by right. }
    cbn [resolve_world w errHeap fileHeap conn goroutines os fdHeap] in *.
    rewrite length_insert in Hlen.
    exists σ'. repeat split; try done.
    + intros ch' Hnin. apply not_elem_of_cons in Hnin as [Hne Hnin].
      rewrite Hother by done. by rewrite list_lookup_insert_ne.
    + intros j ch' Hj. destruct j as [|j]; cbn in Hj.
      * injection Hj as <-. rewrite Hother by done.
        apply list_lookup_insert_eq. eapply lookup_lt_Some. apply Hfresh. left.
      * by apply Hmine.
Qed.

Lemma dups_add fd n : forall o m, dups o fd (n + m) = dups (dups o fd n) fd m.
Proof. induction n as [|n IH]; intros o m; [done|]. cbn [Nat.add dups]. apply IH. Qed.

(** What a successful duplication delivers is a descriptor that was not
    open before and stays open, for the same file, however many further
    duplications follow. *)
Lemma delivered_dups o fd st n j fd' :
  fdtable o !! fd = Some st -> (j < n)%nat ->
  delivered (dups o fd j) fd = [fd'] ->
  fdtable o !! fd' = None /\ fd' <> fd /\ fdtable (dups o fd n) !! fd' = Some st.
Proof.
  intros Hfd Hj Hdel.
  apply delivered_inv in Hdel as (st' & Hst' & Hfree & Hnew).
  rewrite (dups_keeps fd j o fd st Hfd) in Hst'. injection Hst' as <-.
  split; [|split].
  - destruct (fdtable o !! fd') as [x|] eqn:Hx; [|done].
    by rewrite (dups_keeps fd j o fd' x Hx) in Hfree.
  - intros ->. by rewrite (dups_keeps fd j o fd st Hfd) in Hfree.
  - replace n with (S j + (n - S j))%nat by lia.
    rewrite dups_add. apply dups_keeps. by rewrite dups_S.
Qed.

(** The body of the loop of [Read] on a descriptor whose identity is not
    cached yet. *)
Lemma Read_fd_new fd stat σ :
  wf_recv σ ->
  Fstat (os σ) fd = inl stat ->
  recvedFDs (w σ) !! mkKey (uint64 (Dev stat)) (Ino stat) = None ->
  exists σ',
    Read_fd fd σ = Ret (tt, σ') /\
    arrival_post fd (mkKey (uint64 (Dev stat)) (Ino stat))
      (default [] (recvFDChans (w σ) !! mkKey (uint64 (Dev stat)) (Ino stat))) σ σ'.
Proof.
  intros [Hnd Hfresh] Hstat Hnone.
  set (key := mkKey (uint64 (Dev stat)) (Ino stat)) in *.
  set (chs := default [] (recvFDChans (w σ) !! key)).
  pose proof (waiters_default (recvFDChans (w σ)) key) as Hperm. fold chs in Hperm.
  set (σ0 := set_w (update_recvedFDs (fun m => <[key := fd]> m)) σ).
  destruct (Read_waiters_ok key fd chs σ0) as
    (σ1 & Hrun & Hw & Herr & Hfile & Hconn & Hgo & Hos & Hlen & Hother & Hmine).
  { cbn. apply lookup_insert_eq. }
  { rewrite Hperm in Hnd. by apply NoDup_app in Hnd as (? & _ & _). }
  { intros ch Hin. cbn. apply Hfresh. rewrite Hperm. apply elem_of_app. by left. }
  exists (set_w (update_recvFDChans (fun m => delete key m)) σ1). split.
  - unfold Read_fd. unfold bind at 1. unfold syscall_Fstat. cbn [gets].
    rewrite Hstat. unfold bind at 1. cbn [gets]. fold key. rewrite Hnone.
    unfold bind at 1. cbn [modify]. fold chs. fold σ0.
    unfold bind at 1. rewrite Hrun. done.
  - unfold arrival_post. cbn [set_w w recvedFDs recvFDChans sendFDs errChs errHeap
                               conn os fdHeap update_recvFDChans].
    rewrite Hw, Herr, Hconn, Hos. cbn. done.
Qed.

(** The same on a descriptor whose identity is cached: the new
    descriptor is closed and nothing else changes. *)
Lemma Read_fd_cached fd stat c σ :
  Fstat (os σ) fd = inl stat ->
  recvedFDs (w σ) !! mkKey (uint64 (Dev stat)) (Ino stat) = Some c ->
  Read_fd fd σ = Ret (tt, set_os (fun o => sys_close o fd) σ).
Proof.
  intros Hstat Hc. unfold Read_fd. unfold bind at 1. unfold syscall_Fstat. cbn [gets].
  rewrite Hstat. unfold bind at 1. cbn [gets]. by rewrite Hc.
Qed.

Lemma Read_fd_nostat fd e σ :
  Fstat (os σ) fd = inr e -> Read_fd fd σ = Ret (tt, σ).
Proof.
  intros Hstat. unfold Read_fd. unfold bind at 1. unfold syscall_Fstat. cbn [gets].
  by rewrite Hstat.
Qed.

Lemma arrival_wf_recv fd key chs σ σ' :
  wf_recv σ -> chs = default [] (recvFDChans (w σ) !! key) ->
  arrival_post fd key chs σ σ' -> wf_recv σ'.
Proof.
  intros [Hnd Hfresh] -> (_ & Hchans & _ & _ & _ & _ & _ & _ & Hother).
  pose proof (waiters_default (recvFDChans (w σ)) key) as Hperm.
  rewrite Hperm in Hnd. apply NoDup_app in Hnd as (_ & Hdisj & Hnd').
  split; rewrite Hchans; [done|].
  intros ch Hin. rewrite Hother.
  - apply Hfresh. rewrite Hperm. apply elem_of_app. by right.
  - intros Hin'. by apply (Hdisj ch).
Qed.

Lemma arrival_cache_kept fd key chs σ σ' :
  recvedFDs (w σ) !! key = None ->
  arrival_post fd key chs σ σ' -> cache_kept σ σ'.
Proof.
  intros Hnone (Hcache & _) k c Hk. rewrite Hcache.
  rewrite lookup_insert_ne; [done|]. intros ->. by rewrite Hk in Hnone.
Qed.

Lemma send_side_kept_refl σ : send_side_kept σ σ.
Proof. done. Qed.

Lemma send_side_kept_trans σ1 σ2 σ3 :
  send_side_kept σ1 σ2 -> send_side_kept σ2 σ3 -> send_side_kept σ1 σ3.
Proof. intros (? & ? & ?) (? & ? & ?). repeat split; congruence. Qed.

Lemma cache_kept_trans σ1 σ2 σ3 :
  cache_kept σ1 σ2 -> cache_kept σ2 σ3 -> cache_kept σ1 σ3.
Proof. intros H1 H2 k c Hc. by apply H2, H1. Qed.

(** Under the invariant the body of the loop always returns, keeps the
    invariant, keeps every cached descriptor and leaves the send side
    alone. *)
Lemma Read_fd_total fd σ :
  wf_recv σ ->
  exists σ', Read_fd fd σ = Ret (tt, σ') /\ wf_recv σ' /\ cache_kept σ σ' /\
             send_side_kept σ σ'.
Proof.
  intros Hwf. destruct (Fstat (os σ) fd) as [stat|e] eqn:Hstat.
  - destruct (recvedFDs (w σ) !! mkKey (uint64 (Dev stat)) (Ino stat)) as [c|] eqn:Hc.
    + eexists. split; [by eapply Read_fd_cached|]. split; [done|].
      split; [by intros k c'|done].
    + destruct (Read_fd_new fd stat σ Hwf Hstat Hc) as (σ' & Hrun & Hpost).
      exists σ'. split; [done|]. split; [by eapply arrival_wf_recv|].
      split; [by eapply arrival_cache_kept|].
      by destruct Hpost as (_ & _ & ? & ? & ? & _).
  - exists σ. split; [by eapply Read_fd_nostat|]. split; [done|].
    split; [by intros k c|done].
Qed.

Lemma Read_fds_total fds : forall σ,
  wf_recv σ ->
  exists σ', forM_ fds Read_fd σ = Ret (tt, σ') /\ wf_recv σ' /\ cache_kept σ σ' /\
             send_side_kept σ σ'.
Proof.
  induction fds as [|fd fds IH]; intros σ Hwf.
  - exists σ. split; [done|]. split; [done|]. split; [by intros k c|done].
  - destruct (Read_fd_total fd σ Hwf) as (σ1 & Hrun1 & Hwf1 & Hk1 & Hs1).
    destruct (IH σ1 Hwf1) as (σ' & Hrun & Hwf' & Hk & Hs).
    exists σ'. cbn [forM_]. erewrite bind_Ret by exact Hrun1.
    split; [done|]. split; [done|].
    split; [by eapply cache_kept_trans|by eapply send_side_kept_trans].
Qed.

Lemma Read_msgs_total msgs : forall σ,
  wf_recv σ ->
  exists σ', Read_msgs msgs σ = Ret (tt, σ') /\ wf_recv σ' /\ cache_kept σ σ' /\
             send_side_kept σ σ'.
Proof.
  induction msgs as [|[fds|e] msgs IH]; intros σ Hwf.
  - exists σ. split; [done|]. split; [done|]. split; [by intros k c|done].
  - destruct (Read_fds_total fds σ Hwf) as (σ1 & Hrun1 & Hwf1 & Hk1 & Hs1).
    destruct (IH σ1 Hwf1) as (σ' & Hrun & Hwf' & Hk & Hs).
    exists σ'. cbn [Read_msgs]. erewrite bind_Ret by exact Hrun1.
    split; [done|]. split; [done|].
    split; [by eapply cache_kept_trans|by eapply send_side_kept_trans].
  - exists σ. split; [done|]. split; [done|]. split; [by intros k c|done].
Qed.

(** [Read], on whatever the socket delivered. *)
Lemma Read_total d σ :
  wf_recv σ ->
  exists σ',
    Read d σ = Ret (match rd_err d with
                     | Some e => (0, Some e)
                     | None => (rd_n d, None)
                     end, σ') /\
    wf_recv σ' /\ cache_kept σ σ' /\ send_side_kept σ σ'.
Proof.
  intros Hwf. unfold Read. unfold bind at 1.
  destruct (decide (rd_oobn d <> 0)) as [Hoob|Hoob].
  - destruct (rd_ctl d) as [msgs|e].
    + destruct (Read_msgs_total msgs σ Hwf) as (σ' & Hrun & Hwf' & Hk & Hs).
      rewrite Hrun. by exists σ'.
    + exists σ. split; [done|]. split; [done|]. split; [by intros k c|done].
  - exists σ. split; [done|]. split; [done|]. split; [by intros k c|done].
Qed.

(** What [RecvFD] does, by whether the identity is cached. *)
Lemma RecvFD_spec d i σ :
  RecvFD d i σ =
    let ch := length (fdHeap σ) in
    match recvedFDs (w σ) !! mkKey d i with
    | Some fd =>
        Ret (ch, mkWorld (fst (F_DUPFD (os σ) fd)) (errHeap σ)
                   (fdHeap σ ++ [mkChan (delivered (os σ) fd) 1 true])
                   (fileHeap σ) (conn σ) (goroutines σ) (w σ))
    | None =>
        Ret (ch, mkWorld (os σ) (errHeap σ) (fdHeap σ ++ [fresh_chan])
                   (fileHeap σ) (conn σ) (goroutines σ)
                   (update_recvFDChans
                      (fun m => <[mkKey d i := default [] (m !! mkKey d i) ++ [ch]]> m)
                      (w σ)))
    end.
Proof.
  unfold RecvFD. unfold bind at 1. unfold make_fdCh, chan_make.
  unfold bind at 1. cbn [gets set_fdHeap w].
  destruct (recvedFDs (w σ) !! mkKey d i) as [fd|] eqn:Hc.
  - unfold bind at 1.
    rewrite (resolve_fresh _ fd (length (fdHeap σ))) by apply lookup_snoc_new.
    unfold resolve_world, ret, set_fdHeap.
    cbn [os errHeap fdHeap fileHeap conn goroutines w].
    by rewrite insert_snoc_new.
  - done.
Qed.

(** [RecvFD] keeps the invariant of the waiters. *)
Lemma RecvFD_wf_recv d i σ ch σ' :
  wf_recv σ -> RecvFD d i σ = Ret (ch, σ') -> wf_recv σ'.
Proof.
  intros [Hnd Hfresh]. rewrite RecvFD_spec. cbn zeta.
  assert (forall c, c ∈ waiters (recvFDChans (w σ)) -> (c < length (fdHeap σ))%nat)
    as Hbound.
  { intros c Hc. eapply lookup_lt_Some. by apply Hfresh. }
  destruct (recvedFDs (w σ) !! mkKey d i) as [fd|]; intros [= <- <-];
    unfold wf_recv; cbn [w fdHeap recvFDChans update_recvFDChans].
  - split; [done|]. intros c Hc.
    rewrite lookup_app_l by by apply Hbound. by apply Hfresh.
  - pose proof (waiters_default (recvFDChans (w σ)) (mkKey d i)) as Hperm.
    pose proof (waiters_insert (recvFDChans (w σ)) (mkKey d i)
                  (default [] (recvFDChans (w σ) !! mkKey d i) ++ [length (fdHeap σ)]))
      as Hperm'.
    assert (waiters (<[mkKey d i :=
                         default [] (recvFDChans (w σ) !! mkKey d i) ++ [length (fdHeap σ)]]>
                       (recvFDChans (w σ)))
            ≡ₚ length (fdHeap σ) :: waiters (recvFDChans (w σ))) as Hp.
    { rewrite Hperm', Hperm. rewrite <- app_assoc.
      rewrite (Permutation_app_comm [length (fdHeap σ)]).
      rewrite app_assoc. by rewrite <- Permutation_cons_append. }
    split.
    + rewrite Hp. apply NoDup_cons. split; [|done].
      intros Hin. apply Hbound in Hin. lia.
    + intros c Hc. rewrite Hp in Hc. apply elem_of_cons in Hc as [->|Hc].
      * apply lookup_snoc_new.
      * rewrite lookup_app_l by by apply Hbound. by apply Hfresh.
Qed.

Lemma wf_recv_example_world : wf_recv example_world.
Proof.
  split; cbn; rewrite waiters_empty; [apply NoDup_nil_2|].
  intros ch Hin. by apply elem_of_nil in Hin.
Qed.

Lemma wf_recv_example_two_waiters : wf_recv example_two_waiters.
Proof.
  apply (RecvFD_wf_recv 2049 18446744073709551615
           (world_after (RecvFD 2049 18446744073709551615) example_world) 1%nat);
    [|reflexivity].
  apply (RecvFD_wf_recv 2049 18446744073709551615 example_world 0%nat);
    [|reflexivity].
  apply wf_recv_example_world.
Qed.

Lemma wf_recv_set_os f σ : wf_recv σ -> wf_recv (set_os f σ).
Proof. by intros [? ?]. Qed.


(** ** The receive side *)

(** *** [Read] as the run of its loop body over the examined descriptors *)

Lemma forM__app {A} (f : A -> M unit) (l1 l2 : list A) σ :
  forM_ (l1 ++ l2) f σ =
    match forM_ l1 f σ with
    | Ret (_, σ1) => forM_ l2 f σ1
    | Panics p => Panics p
    | Blocks => Blocks
    end.
Proof.
  revert σ. induction l1 as [|x l1 IH]; intros σ; [done|].
  cbn [app forM_]. unfold bind. destruct (f x σ) as [[u σ1]| |]; [|done|done].
  apply IH.
Qed.

Lemma Read_msgs_examined msgs : forall σ,
  Read_msgs msgs σ = forM_ (examined_msgs msgs) Read_fd σ.
Proof.
  induction msgs as [|[fds|e] msgs IH]; intros σ; [done| |done].
  cbn [Read_msgs examined_msgs]. rewrite forM__app. unfold bind.
  destruct (forM_ fds Read_fd σ) as [[u σ1]| |]; [|done|done]. apply IH.
Qed.

Lemma Read_examined d σ :
  Read d σ =
    match forM_ (examined d) Read_fd σ with
    | Ret (_, σ') => Ret (Read_result d, σ')
    | Panics p => Panics p
    | Blocks => Blocks
    end.
Proof.
  unfold Read, examined, Read_result. unfold bind at 1.
  destruct (decide (rd_oobn d <> 0)); [|done].
  destruct (rd_ctl d) as [msgs|e]; [|done].
  rewrite Read_msgs_examined.
  by destruct (forM_ (examined_msgs msgs) Read_fd σ) as [[[] σ']| |].
Qed.

Lemma examined_cut_to d fds :
  rd_oobn d <> 0 -> examined (cut_to d fds) = fds.
Proof.
  intros Hoob. unfold examined, cut_to. cbn [rd_oobn rd_ctl].
  rewrite decide_True by done. cbn [examined_msgs]. apply app_nil_r.
Qed.

Lemma examined_oobn d : examined d <> [] -> rd_oobn d <> 0.
Proof. unfold examined. by destruct (decide (rd_oobn d <> 0)). Qed.

(** What a step of the loop and a run of steps leave alone: the
    channels that belong to no waiter, and the identities without
    waiters; no waiter is added. *)
Lemma Read_fd_frame fd σ σ' :
  wf_recv σ -> Read_fd fd σ = Ret (tt, σ') ->
  (forall ch, ch ∉ waiters (recvFDChans (w σ)) -> fdHeap σ' !! ch = fdHeap σ !! ch) /\
  (forall key, recvFDChans (w σ) !! key = None -> recvFDChans (w σ') !! key = None) /\
  (forall ch, ch ∈ waiters (recvFDChans (w σ')) -> ch ∈ waiters (recvFDChans (w σ))).
Proof.
  intros Hwf Hrun. destruct (Fstat (os σ) fd) as [stat|e] eqn:Hstat.
  - destruct (recvedFDs (w σ) !! mkKey (uint64 (Dev stat)) (Ino stat)) as [c|] eqn:Hc.
    + rewrite (Read_fd_cached fd stat c σ Hstat Hc) in Hrun. by injection Hrun as <-.
    + destruct (Read_fd_new fd stat σ Hwf Hstat Hc) as (σ1 & Hrun1 & Hpost).
      rewrite Hrun in Hrun1. injection Hrun1 as <-.
      destruct Hpost as (_ & Hchans & _ & _ & _ & _ & _ & _ & Hother).
      pose proof (waiters_default (recvFDChans (w σ))
                    (mkKey (uint64 (Dev stat)) (Ino stat))) as Hperm.
      split; [|split].
      * intros ch Hnin. apply Hother. intros Hin. apply Hnin.
        rewrite Hperm. apply elem_of_app. by left.
      * intros key Hk. rewrite Hchans.
        destruct (decide (key = mkKey (uint64 (Dev stat)) (Ino stat))) as [->|Hne].
        -- apply lookup_delete_eq.
        -- by rewrite lookup_delete_ne.
      * intros ch Hin. rewrite Hchans in Hin. rewrite Hperm.
        apply elem_of_app. by right.
  - rewrite (Read_fd_nostat fd e σ Hstat) in Hrun. by injection Hrun as <-.
Qed.

Lemma Read_fds_frame fds : forall σ,
  wf_recv σ ->
  exists σ',
    forM_ fds Read_fd σ = Ret (tt, σ') /\ wf_recv σ' /\ cache_kept σ σ' /\
    (forall ch, ch ∉ waiters (recvFDChans (w σ)) -> fdHeap σ' !! ch = fdHeap σ !! ch) /\
    (forall key, recvFDChans (w σ) !! key = None -> recvFDChans (w σ') !! key = None).
Proof.
  induction fds as [|fd fds IH]; intros σ Hwf.
  - exists σ. split; [done|]. split; [done|]. split; [by intros k c|done].
  - destruct (Read_fd_total fd σ Hwf) as (σ1 & Hrun1 & Hwf1 & Hk1 & _).
    destruct (Read_fd_frame fd σ σ1 Hwf Hrun1) as (Hf1 & Hn1 & Hsub1).
    destruct (IH σ1 Hwf1) as (σ' & Hrun & Hwf' & Hk & Hf & Hn).
    exists σ'. cbn [forM_]. erewrite bind_Ret by exact Hrun1.
    split; [done|]. split; [done|].
    split; [by eapply cache_kept_trans|]. split.
    + intros ch Hnin. rewrite Hf; [by apply Hf1|].
      intros Hin. by apply Hnin, Hsub1.
    + intros key Hkey. by apply Hn, Hn1.
Qed.

(** A [Read] whose examined descriptors are [pre], then [fd], then
    [post], through the reads of the deliveries cut before and after
    [fd]. *)
Lemma Read_split d pre fd post σ :
  wf_recv σ ->
  examined d = pre ++ fd :: post ->
  exists σ0 σ1 σ',
    Read (cut_to d pre) σ = Ret (Read_result d, σ0) /\
    Read (cut_to d (pre ++ [fd])) σ = Ret (Read_result d, σ1) /\
    Read d σ = Ret (Read_result d, σ') /\
    wf_recv σ0 /\ wf_recv σ1 /\ wf_recv σ' /\
    Read_fd fd σ0 = Ret (tt, σ1) /\
    cache_kept σ σ0 /\ cache_kept σ1 σ' /\
    (forall ch, ch ∉ waiters (recvFDChans (w σ1)) -> fdHeap σ' !! ch = fdHeap σ1 !! ch) /\
    (forall key, recvFDChans (w σ1) !! key = None -> recvFDChans (w σ') !! key = None) /\
    forM_ post Read_fd σ1 = Ret (tt, σ').
Proof.
  intros Hwf Hex.
  assert (rd_oobn d <> 0) as Hoob.
  { apply examined_oobn. rewrite Hex. by destruct pre. }
  destruct (Read_fds_frame pre σ Hwf) as (σ0 & Hrun0 & Hwf0 & Hk0 & _).
  destruct (Read_fd_total fd σ0 Hwf0) as (σ1 & Hrun1 & Hwf1 & _).
  destruct (Read_fds_frame post σ1 Hwf1) as (σ' & Hrun' & Hwf' & Hk' & Hf' & Hn').
  exists σ0, σ1, σ'.
  split.
  { rewrite Read_examined, examined_cut_to by done. by rewrite Hrun0. }
  split.
  { rewrite Read_examined, examined_cut_to by done.
    rewrite forM__app, Hrun0. cbn [forM_]. by erewrite bind_Ret by exact Hrun1. }
  split.
  { rewrite Read_examined, Hex, forM__app, Hrun0. cbn [forM_].
    erewrite bind_Ret by exact Hrun1. by rewrite Hrun'. }
  done.
Qed.

(** The loop body on a descriptor whose identity is not yet cached. *)
Lemma Read_fd_arrival (fd : Z) (stat : Stat_t) (σ : World) :
  wf_recv σ ->
  Fstat (os σ) fd = inl stat ->
  let key := mkKey (uint64 (Dev stat)) (Ino stat) in
  let chs := default [] (recvFDChans (w σ) !! key) in
  recvedFDs (w σ) !! key = None ->
  exists σ',
    Read_fd fd σ = Ret (tt, σ') /\
    recvedFDs (w σ') !! key = Some fd /\
    recvFDChans (w σ') !! key = None /\
    (forall j ch, chs !! j = Some ch ->
       fdHeap σ' !! ch = Some (mkChan (delivered (dups (os σ) fd j) fd) 1 true)) /\
    (forall j ch fd', chs !! j = Some ch ->
       delivered (dups (os σ) fd j) fd = [fd'] ->
       fdtable (os σ) !! fd' = None /\ fd' <> fd /\ fdtable (os σ') !! fd' = Some stat) /\
    ((forall j, (j < length chs)%nat -> delivered (dups (os σ) fd j) fd <> []) ->
     forall ch, ch ∈ chs -> exists fd', fdHeap σ' !! ch = Some (mkChan [fd'] 1 true)) /\
    arrival_post fd key chs σ σ'.
Proof.
  intros Hwf Hstat key chs Hnone.
  destruct (Read_fd_new fd stat σ Hwf Hstat Hnone) as (σ' & Hrun & Hpost).
  fold key chs in Hpost. exists σ'. split; [done|].
  pose proof Hpost as (Hcache & Hchans & _ & _ & _ & _ & Hos & Hmine & _).
  assert (fdtable (os σ) !! fd = Some stat) as Hopen.
  { unfold Fstat in Hstat. by destruct (fdtable (os σ) !! fd); simplify_eq. }
  split; [by rewrite Hcache, lookup_insert_eq|].
  split; [by rewrite Hchans, lookup_delete_eq|].
  split; [done|]. split; [|split; [|done]].
  - intros j ch fd' Hj Hdel. rewrite Hos.
    apply (delivered_dups (os σ) fd stat (length chs) j fd' Hopen); [|done].
    by eapply lookup_lt_Some.
  - intros Hall ch Hin. apply list_elem_of_lookup in Hin as [j Hj].
    rewrite (Hmine j ch Hj).
    specialize (Hall j (lookup_lt_Some _ _ _ Hj)).
    unfold delivered in *. destruct (snd (F_DUPFD (dups (os σ) fd j) fd)); [|done].
    by eexists.
Qed.

(** C2 (as amended): for every descriptor Read examines (a descriptor
    of a rights message of the ancillary data that no message failing
    to parse as rights precedes) whose identity is not cached when its
    turn comes, that is, after the Read of the descriptors examined
    before it: the descriptor is cached and the waiters registered for
    its identity are resolved one by one in registration order, each by
    its own duplication of the cached descriptor; a waiter whose
    duplication succeeds receives the fresh duplicate (a descriptor that
    was not open before, open on the same file) and one whose
    duplication fails receives nothing, and either way its channel is
    closed; the waiter list of the identity is cleared.  All of this
    still holds when Read returns.  If every duplication succeeds, every
    waiter receives a duplicate. *)
Theorem Read_arrival_resolves_waiters
    (d : Delivery) (pre post : list Z) (fd : Z) (stat : Stat_t) (σ : World) :
  wf_recv σ ->
  examined d = pre ++ fd :: post ->
  exists σ0 σ1 σ',
    Read (cut_to d pre) σ = Ret (Read_result d, σ0) /\
    Read (cut_to d (pre ++ [fd])) σ = Ret (Read_result d, σ1) /\
    Read d σ = Ret (Read_result d, σ') /\
    wf_recv σ' /\
    (Fstat (os σ0) fd = inl stat ->
     let key := mkKey (uint64 (Dev stat)) (Ino stat) in
     let chs := default [] (recvFDChans (w σ0) !! key) in
     recvedFDs (w σ0) !! key = None ->
     arrival_post fd key chs σ0 σ1 /\
     recvedFDs (w σ') !! key = Some fd /\
     recvFDChans (w σ') !! key = None /\
     (forall j ch, chs !! j = Some ch ->
        fdHeap σ' !! ch = Some (mkChan (delivered (dups (os σ0) fd j) fd) 1 true)) /\
     (forall j ch fd', chs !! j = Some ch ->
        delivered (dups (os σ0) fd j) fd = [fd'] ->
        fdtable (os σ0) !! fd' = None /\ fd' <> fd /\
        fdtable (os σ1) !! fd' = Some stat) /\
     ((forall j, (j < length chs)%nat -> delivered (dups (os σ0) fd j) fd <> []) ->
      forall ch, ch ∈ chs -> exists fd', fdHeap σ' !! ch = Some (mkChan [fd'] 1 true))).
Proof.
  intros Hwf Hex.
  destruct (Read_split d pre fd post σ Hwf Hex)
    as (σ0 & σ1 & σ' & Hr0 & Hr1 & Hr & Hwf0 & Hwf1 & Hwf' & Hstep & _ & Hk' & Hf' & Hn' & _).
  exists σ0, σ1, σ'. split; [done|]. split; [done|]. split; [done|]. split; [done|].
  intros Hstat key chs Hnone.
  destruct (Read_fd_arrival fd stat σ0 Hwf0 Hstat Hnone)
    as (σ1' & Hstep' & Hcache & Hgone & Hmine & Hdups & Hall & Hpost).
  rewrite Hstep in Hstep'. injection Hstep' as <-.
  fold key chs in Hcache, Hgone, Hmine, Hdups, Hall, Hpost.
  assert (forall ch, ch ∈ chs -> fdHeap σ' !! ch = fdHeap σ1 !! ch) as Hstay.
  { intros ch Hin. apply Hf'. intros Hw.
    destruct Hwf1 as [_ Hfresh1]. specialize (Hfresh1 ch Hw).
    apply list_elem_of_lookup in Hin as [j Hj].
    rewrite (Hmine j ch Hj) in Hfresh1. discriminate. }
  split; [done|]. split; [by apply Hk'|]. split; [by apply Hn'|].
  split.
  { intros j ch Hj. rewrite Hstay by (by eapply list_elem_of_lookup_2).
    by apply Hmine. }
  split; [done|].
  intros Hok ch Hin. rewrite Hstay by done. by apply Hall.
Qed.

Lemma Read_arrival_resolves_waiters_witness :
  exists σ0 σ1 σ',
    Read (cut_to (mkDelivery 1 48 (inl [inl [9]; inl [5; 2]; inr (ErrErrno EBADF)]) None)
            [9]) example_two_waiters = Ret ((1, None), σ0) /\
    Read (mkDelivery 1 48 (inl [inl [9]; inl [5; 2]; inr (ErrErrno EBADF)]) None)
      example_two_waiters = Ret ((1, None), σ') /\
    arrival_post 5 example_key [0%nat; 1%nat] σ0 σ1 /\
    recvedFDs (w σ') !! example_key = Some 5 /\
    recvFDChans (w σ') !! example_key = None /\
    fdHeap σ' !! 0%nat = Some (mkChan [3] 1 true) /\
    fdHeap σ' !! 1%nat = Some (mkChan [4] 1 true).
Proof.
  destruct (Read_arrival_resolves_waiters
              (mkDelivery 1 48 (inl [inl [9]; inl [5; 2]; inr (ErrErrno EBADF)]) None)
              [9] [2] 5 example_stat example_two_waiters)
    as (σ0 & σ1 & σ' & Hr0 & _ & Hr & _ & Harr).
  - apply wf_recv_example_two_waiters.
  - reflexivity.
  - assert (σ0 = example_two_waiters) as ->.
    { vm_compute in Hr0. by injection Hr0 as <-. }
    destruct (Harr eq_refl eq_refl) as (Hpost & Hc & Hw & Hmine & _).
    exists example_two_waiters, σ1, σ'.
    split; [reflexivity|]. split; [exact Hr|]. split; [exact Hpost|].
    split; [exact Hc|]. split; [exact Hw|].
    split.
    + exact (Hmine 0%nat 0%nat eq_refl).
    + exact (Hmine 1%nat 1%nat eq_refl).
Defined.

(** C2 as stated fails: with two waiters and room for one more
    descriptor, the first waiter receives a duplicate and the second
    receives nothing. *)
Lemma Read_waiters_mixed_counterexample :
  wf_recv example_two_waiters_tight /\
  recvFDChans (w example_two_waiters_tight) !! example_key = Some [0%nat; 1%nat] /\
  recvedFDs (w example_two_waiters_tight) !! example_key = None /\
  exists σ',
    Read example_delivery example_two_waiters_tight = Ret ((1, None), σ') /\
    recvedFDs (w σ') !! example_key = Some 5 /\
    fdHeap σ' !! 0%nat = Some (mkChan [6] 1 true) /\
    fdHeap σ' !! 1%nat = Some (mkChan [] 1 true).
Proof.
  split; [apply wf_recv_set_os, wf_recv_example_two_waiters|].
  split; [reflexivity|]. split; [reflexivity|].
  eexists. split; [vm_compute; reflexivity|].
  split; [reflexivity|]. split; reflexivity.
Qed.




Lemma wf_recv_example_cached : wf_recv example_cached.
Proof.
  split; [vm_compute; apply NoDup_nil_2|].
  intros ch Hin. vm_compute in Hin. by apply elem_of_nil in Hin.
Qed.

(** C5 (as amended): the cache is a map, so it holds at most one
    descriptor per identity, and over a whole Read, whatever arrives,
    every cached descriptor stays the cached descriptor of its identity.
    Whenever Read examines a descriptor (a descriptor of a rights message
    of the ancillary data that no message failing to parse as rights
    precedes) whose identity has a cached descriptor when its turn
    comes, that is, after the Read of the descriptors examined before
    it: the examined descriptor is closed, no other descriptor is
    touched and the wrapper's state, channels included, is left
    unchanged; the cached descriptor is still the cached one when Read
    returns, and when the descriptor is the last one examined it is
    closed when Read returns. *)
Theorem Read_first_arrival_wins
    (d : Delivery) (pre post : list Z) (fd c : Z) (stat : Stat_t) (σ : World) :
  wf_recv σ ->
  examined d = pre ++ fd :: post ->
  exists σ0 σ1 σ',
    Read (cut_to d pre) σ = Ret (Read_result d, σ0) /\
    Read (cut_to d (pre ++ [fd])) σ = Ret (Read_result d, σ1) /\
    Read d σ = Ret (Read_result d, σ') /\
    wf_recv σ' /\ cache_kept σ σ' /\
    (Fstat (os σ0) fd = inl stat ->
     let key := mkKey (uint64 (Dev stat)) (Ino stat) in
     recvedFDs (w σ0) !! key = Some c ->
     w σ1 = w σ0 /\ fdHeap σ1 = fdHeap σ0 /\ errHeap σ1 = errHeap σ0 /\
     fdtable (os σ1) !! fd = None /\
     (forall x, x <> fd -> fdtable (os σ1) !! x = fdtable (os σ0) !! x) /\
     recvedFDs (w σ') !! key = Some c /\
     (post = [] -> σ' = σ1)).
Proof.
  intros Hwf Hex.
  destruct (Read_split d pre fd post σ Hwf Hex)
    as (σ0 & σ1 & σ' & Hr0 & Hr1 & Hr & Hwf0 & Hwf1 & Hwf' & Hstep & _ & Hk' & _ & _ & Hpost).
  exists σ0, σ1, σ'. split; [done|]. split; [done|]. split; [done|]. split; [done|].
  split.
  { destruct (Read_total d σ Hwf) as (σ'' & Hrun & _ & Hk & _).
    fold (Read_result d) in Hrun. rewrite Hr in Hrun. by injection Hrun as <-. }
  intros Hstat key Hc.
  rewrite (Read_fd_cached fd stat c σ0 Hstat Hc) in Hstep. injection Hstep as <-.
  cbn [set_os w fdHeap errHeap os sys_close fdtable].
  split; [done|]. split; [done|]. split; [done|].
  split; [apply lookup_delete_eq|].
  split; [intros x Hx; by apply lookup_delete_ne|].
  split; [by apply Hk'|].
  intros ->. cbn [forM_] in Hpost. unfold ret in Hpost. by injection Hpost as <-.
Qed.

Lemma Read_first_arrival_wins_witness :
  exists σ1 σ',
    Read (cut_to (mkDelivery 1 48 (inl [inl [9]; inl [3; 2]; inr (ErrErrno EBADF)]) None)
            [9; 3]) example_second_arrival = Ret ((1, None), σ1) /\
    Read (mkDelivery 1 48 (inl [inl [9]; inl [3; 2]; inr (ErrErrno EBADF)]) None)
      example_second_arrival = Ret ((1, None), σ') /\
    cache_kept example_second_arrival σ' /\
    w σ1 = w example_second_arrival /\
    fdtable (os σ1) !! 3 = None /\
    recvedFDs (w σ') !! example_key = Some 5.
Proof.
  destruct (Read_first_arrival_wins
              (mkDelivery 1 48 (inl [inl [9]; inl [3; 2]; inr (ErrErrno EBADF)]) None)
              [9] [2] 3 5 example_stat example_second_arrival)
    as (σ0 & σ1 & σ' & Hr0 & Hr1 & Hr & _ & Hkept & Harr).
  - apply wf_recv_set_os, wf_recv_example_cached.
  - reflexivity.
  - assert (σ0 = example_second_arrival) as ->.
    { vm_compute in Hr0. by injection Hr0 as <-. }
    destruct (Harr eq_refl eq_refl) as (Hw & _ & _ & Hclosed & _ & Hc & _).
    exists σ1, σ'.
    split; [exact Hr1|]. split; [exact Hr|]. split; [exact Hkept|].
    split; [exact Hw|]. split; [exact Hclosed|exact Hc].
Defined.

(** C5 as stated fails: a descriptor that arrives behind a control
    message that does not parse as a rights message is not examined.
    Descriptor 3 is open on the file whose identity is cached with
    descriptor 5; it arrives in the second control message, the first
    one is not a rights message; Read returns, changes nothing, and
    descriptor 3 is still open. *)
Lemma Read_unexamined_duplicate_counterexample :
  wf_recv example_second_arrival /\
  Fstat (os example_second_arrival) 3 = inl example_stat /\
  recvedFDs (w example_second_arrival)
    !! mkKey (uint64 (Dev example_stat)) (Ino example_stat) = Some 5 /\
  rd_ctl example_behind_delivery = inl [inr (ErrErrno EBADF); inl [3]] /\
  Read example_behind_delivery example_second_arrival
    = Ret ((1, None), example_second_arrival) /\
  fdtable (os example_second_arrival) !! 3 = Some example_stat.
Proof.
  split; [apply wf_recv_set_os, wf_recv_example_cached|].
  split; [reflexivity|]. split; [reflexivity|]. split; [reflexivity|].
  split; reflexivity.
Qed.

(** C8: a failed duplication surfaces on the operation's own result
    channel.  SendFD duplicates before it returns: when the duplication
    fails its new channel holds the error and is closed and nothing is
    queued, and when it succeeds the duplicate is queued with the new
    channel, still open and empty.  RecvFD on a cached identity and the
    resolution of a waiter at an arrival close the operation's channel
    without a value when their duplication fails. *)
Theorem duplication_failure_on_result_channel (fd : Z) (σ : World) :
  (exists σ',
     SendFD fd σ = Ret (length (errHeap σ), σ') /\
     errHeap σ !! length (errHeap σ) = None /\
     os σ' = fst (F_DUPFD (os σ) fd) /\
     match snd (F_DUPFD (os σ) fd) with
     | inr errno =>
         errHeap σ' !! length (errHeap σ) = Some (mkChan [ErrErrno errno] 1 true) /\
         w σ' = w σ
     | inl fd' =>
         errHeap σ' !! length (errHeap σ) = Some fresh_chan /\
         sendFDs (w σ') = sendFDs (w σ) ++ [fd'] /\
         errChs (w σ') = errChs (w σ) ++ [length (errHeap σ)]
     end) /\
  (forall device inode errno,
     recvedFDs (w σ) !! mkKey device inode = Some fd ->
     snd (F_DUPFD (os σ) fd) = inr errno ->
     exists σ',
       RecvFD device inode σ = Ret (length (fdHeap σ), σ') /\
       fdHeap σ !! length (fdHeap σ) = None /\
       fdHeap σ' !! length (fdHeap σ) = Some (mkChan [] 1 true) /\
       w σ' = w σ) /\
  (wf_recv σ ->
   forall stat,
     Fstat (os σ) fd = inl stat ->
     recvedFDs (w σ) !! mkKey (uint64 (Dev stat)) (Ino stat) = None ->
     exists σ',
       Read_fd fd σ = Ret (tt, σ') /\
       forall j ch errno,
         default [] (recvFDChans (w σ) !! mkKey (uint64 (Dev stat)) (Ino stat)) !! j
           = Some ch ->
         snd (F_DUPFD (dups (os σ) fd j) fd) = inr errno ->
         fdHeap σ' !! ch = Some (mkChan [] 1 true)).
Proof.
  split; [|split].
  - rewrite SendFD_spec. cbn zeta.
    destruct (F_DUPFD (os σ) fd) as [o [fd'|errno]]; eexists; (split; [done|]);
      cbn [os errHeap w fst snd sendFDs errChs];
      (split; [by apply lookup_ge_None_2|]); (split; [done|]).
    + split; [apply lookup_snoc_new|done].
    + split; [apply lookup_snoc_new|done].
  - intros device inode errno Hc Hfail. rewrite RecvFD_spec. cbn zeta. rewrite Hc.
    eexists. split; [done|]. cbn [fdHeap w].
    split; [by apply lookup_ge_None_2|]. split; [|done].
    rewrite lookup_snoc_new. unfold delivered. by rewrite Hfail.
  - intros Hwf stat Hstat Hnone.
    destruct (Read_fd_new fd stat σ Hwf Hstat Hnone) as (σ' & Hrun & Hpost).
    exists σ'. split; [done|]. intros j ch errno Hj Hfail.
    destruct Hpost as (_ & _ & _ & _ & _ & _ & _ & Hmine & _).
    rewrite (Hmine j ch Hj). unfold delivered. by rewrite Hfail.
Qed.

Lemma duplication_failure_on_result_channel_witness :
  (exists σ',
     SendFD 5 example_cached_full = Ret (0%nat, σ') /\
     errHeap σ' !! 0%nat = Some (mkChan [ErrErrno EMFILE] 1 true) /\
     w σ' = w example_cached_full) /\
  (exists σ',
     RecvFD 2049 18446744073709551615 example_cached_full = Ret (0%nat, σ') /\
     fdHeap σ' !! 0%nat = Some (mkChan [] 1 true)) /\
  (exists σ',
     Read_fd 5 example_two_waiters_tight = Ret (tt, σ') /\
     fdHeap σ' !! 1%nat = Some (mkChan [] 1 true)).
Proof.
  split; [|split].
  - destruct (duplication_failure_on_result_channel 5 example_cached_full)
      as [(σ' & Hrun & _ & _ & Hres) _].
    exists σ'. split; [exact Hrun|]. exact Hres.
  - destruct (duplication_failure_on_result_channel 5 example_cached_full)
      as (_ & Hrecv & _).
    destruct (Hrecv 2049 18446744073709551615 EMFILE eq_refl eq_refl)
      as (σ' & Hrun & _ & Hch & _).
    exists σ'. split; [exact Hrun|exact Hch].
  - destruct (duplication_failure_on_result_channel 5 example_two_waiters_tight)
      as (_ & _ & Hread).
    destruct (Hread (wf_recv_set_os _ _ wf_recv_example_two_waiters)
                example_stat eq_refl eq_refl) as (σ' & Hrun & Hfail).
    exists σ'. split; [exact Hrun|].
    exact (Hfail 1%nat 1%nat EMFILE eq_refl eq_refl).
Defined.

(** ** [close] *)

Lemma foldl_delete_lookup {V} (ks : list inodeKey) : forall (m : gmap inodeKey V) k,
  foldl (fun m k => delete k m) m ks !! k =
    if decide (k ∈ ks) then None else m !! k.
Proof.
  induction ks as [|x ks IH]; intros m k; cbn [foldl].
  - rewrite decide_False by apply not_elem_of_nil. done.
  - rewrite IH. destruct (decide (k ∈ ks)) as [Hin|Hin].
    + rewrite decide_True by (by right). done.
    + destruct (decide (k = x)) as [->|Hne].
      * rewrite decide_True by left. apply lookup_delete_eq.
      * rewrite decide_False by (by intros [?|?]%elem_of_cons).
        by apply lookup_delete_ne.
Qed.

Lemma foldl_delete_all {V} (m : gmap inodeKey V) :
  foldl (fun m k => delete k m) m (map_to_list m).*1 = ∅.
Proof.
  apply map_eq. intros k. rewrite foldl_delete_lookup, lookup_empty.
  case_decide as Hin; [done|].
  destruct (m !! k) as [v|] eqn:Hk; [|done].
  exfalso. apply Hin. apply list_elem_of_fmap. exists (k, v).
  split; [done|]. by apply elem_of_map_to_list.
Qed.

(** The loop of [close] over the cached descriptors. *)
Lemma close_cached_loop (l : list (inodeKey * Z)) : forall σ,
  exists σ',
    forM_ l (fun '(k, fd) =>
               syscall_Close fd ;;
               modify (set_w (update_recvedFDs (fun m => delete k m)))) σ
      = Ret (tt, σ') /\
    os σ' = foldl sys_close (os σ) l.*2 /\
    recvedFDs (w σ') = foldl (fun m k => delete k m) (recvedFDs (w σ)) l.*1 /\
    sendFDs (w σ') = sendFDs (w σ) /\ errChs (w σ') = errChs (w σ) /\
    recvFDChans (w σ') = recvFDChans (w σ) /\
    errHeap σ' = errHeap σ /\ fdHeap σ' = fdHeap σ /\ fileHeap σ' = fileHeap σ /\
    conn σ' = conn σ /\ goroutines σ' = goroutines σ.
Proof.
  induction l as [|[k fd] l IH]; intros σ.
  - exists σ. repeat split; done.
  - cbn [forM_].
    destruct (IH (set_w (update_recvedFDs (fun m => delete k m))
                    (set_os (fun o => sys_close o fd) σ)))
      as (σ' & Hrun & Hos & Hc & Hs & He & Hr & Heh & Hfh & Hfi & Hco & Hgo).
    exists σ'. split; [|by repeat split].
    erewrite bind_Ret; [exact Hrun|]. done.
Qed.

(** Closing a list of distinct fresh channels. *)
Lemma close_chans_loop (chs : list nat) : forall σ,
  NoDup chs ->
  (forall ch, ch ∈ chs -> fdHeap σ !! ch = Some fresh_chan) ->
  exists σ',
    forM_ chs close_fdCh σ = Ret (tt, σ') /\
    (forall ch, ch ∈ chs -> fdHeap σ' !! ch = Some (mkChan [] 1 true)) /\
    (forall ch, ch ∉ chs -> fdHeap σ' !! ch = fdHeap σ !! ch) /\
    os σ' = os σ /\ w σ' = w σ /\ errHeap σ' = errHeap σ /\
    fileHeap σ' = fileHeap σ /\ conn σ' = conn σ /\ goroutines σ' = goroutines σ.
Proof.
  induction chs as [|ch chs IH]; intros σ Hnd Hfresh.
  - exists σ. repeat split; try done. intros ch Hin. by apply elem_of_nil in Hin.
  - apply NoDup_cons in Hnd as [Hnotin Hnd].
    assert (fdHeap σ !! ch = Some fresh_chan) as Hch by (apply Hfresh; left).
    assert (close_fdCh ch σ
            = Ret (tt, set_fdHeap (<[ch := mkChan [] 1 true]> (fdHeap σ)) σ)) as Hstep.
    { unfold close_fdCh, lift_heap. by rewrite (chan_close_open _ _ [] Hch). }
    destruct (IH (set_fdHeap (<[ch := mkChan [] 1 true]> (fdHeap σ)) σ))
      as (σ' & Hrun & Hmine & Hother & Hrest); [done| |].
    { intros ch' Hin. cbn. rewrite list_lookup_insert_ne by (intros ->; done).
      apply Hfresh. by right. }
    exists σ'. split; [cbn [forM_]; by erewrite bind_Ret|].
    cbn [set_fdHeap fdHeap os w errHeap fileHeap conn goroutines] in *.
    split; [|split; [|done]].
    + intros ch' [->|Hin]%elem_of_cons; [|by apply Hmine].
      rewrite Hother by done. apply list_lookup_insert_eq. by eapply lookup_lt_Some.
    + intros ch' [Hne Hnin]%not_elem_of_cons.
      rewrite Hother by done. by apply list_lookup_insert_ne.
Qed.

(** The loop of [close] over the waiters. *)
Lemma close_waiters_loop (l : list (inodeKey * list nat)) : forall σ,
  NoDup (mjoin l.*2) ->
  (forall ch, ch ∈ mjoin l.*2 -> fdHeap σ !! ch = Some fresh_chan) ->
  exists σ',
    forM_ l (fun '(k, recvChs) =>
               forM_ recvChs close_fdCh ;;
               modify (set_w (update_recvFDChans (fun m => delete k m)))) σ
      = Ret (tt, σ') /\
    (forall ch, ch ∈ mjoin l.*2 -> fdHeap σ' !! ch = Some (mkChan [] 1 true)) /\
    (forall ch, ch ∉ mjoin l.*2 -> fdHeap σ' !! ch = fdHeap σ !! ch) /\
    recvFDChans (w σ') = foldl (fun m k => delete k m) (recvFDChans (w σ)) l.*1 /\
    sendFDs (w σ') = sendFDs (w σ) /\ errChs (w σ') = errChs (w σ) /\
    recvedFDs (w σ') = recvedFDs (w σ) /\
    os σ' = os σ /\ errHeap σ' = errHeap σ /\
    fileHeap σ' = fileHeap σ /\ conn σ' = conn σ /\ goroutines σ' = goroutines σ.
Proof.
  induction l as [|[k chs] l IH]; intros σ Hnd Hfresh.
  - exists σ. repeat split; try done. intros ch Hin. by apply elem_of_nil in Hin.
  - cbn [fmap list_fmap snd mjoin list_join] in Hnd, Hfresh.
    change (NoDup (chs ++ mjoin l.*2)) in Hnd.
    apply NoDup_app in Hnd as (Hnd1 & Hdisj & Hnd2).
    destruct (close_chans_loop chs σ Hnd1) as
      (σ1 & Hrun1 & Hmine1 & Hother1 & Hos1 & Hw1 & He1 & Hf1 & Hc1 & Hg1).
    { intros ch Hin. apply Hfresh. apply elem_of_app. by left. }
    destruct (IH (set_w (update_recvFDChans (fun m => delete k m)) σ1))
      as (σ' & Hrun & Hmine & Hother & Hr & Hs & He & Hc & Hos & Heh & Hfi & Hco & Hgo);
      [done| |].
    { intros ch Hin. cbn. rewrite Hother1.
      - apply Hfresh. apply elem_of_app. by right.
      - intros Hin'. by apply (Hdisj ch). }
    exists σ'. split.
    { cbn [forM_]. erewrite bind_Ret; [exact Hrun|].
      by erewrite bind_Ret. }
    cbn [set_w w fdHeap os errHeap fileHeap conn goroutines update_recvFDChans
           recvFDChans sendFDs errChs recvedFDs] in *.
    rewrite Hw1 in *.
    change (mjoin ((k, chs) :: l).*2) with (chs ++ mjoin l.*2).
    split; [|split; [|split; [exact Hr|by repeat split; congruence]]].
    + intros ch [Hin|Hin]%elem_of_app; [|by apply Hmine].
      rewrite Hother by (by apply Hdisj). by apply Hmine1.
    + intros ch [Hn1 Hn2]%not_elem_of_app.
      rewrite Hother by done. by apply Hother1.
Qed.

(** The loop of [close] over the queued sends. *)
Lemma close_send_loop (fds : list Z) : forall i σ,
  (i + length fds <= length (errChs (w σ)))%nat ->
  NoDup (take (length fds) (drop i (errChs (w σ)))) ->
  (forall ch, ch ∈ take (length fds) (drop i (errChs (w σ))) ->
              errHeap σ !! ch = Some fresh_chan) ->
  exists σ',
    forI_ i fds
      (fun k fd =>
         let* cw' := gets w in
         let* ch := index (errChs cw') k in
         send_errCh ch (ErrConnClosed fd) ;;
         close_errCh ch ;;
         syscall_Close fd) σ = Ret (tt, σ') /\
    w σ' = w σ /\ fdHeap σ' = fdHeap σ /\ fileHeap σ' = fileHeap σ /\
    conn σ' = conn σ /\ goroutines σ' = goroutines σ /\
    os σ' = foldl sys_close (os σ) fds /\
    (forall j fd ch,
       fds !! j = Some fd -> errChs (w σ) !! (i + j)%nat = Some ch ->
       errHeap σ' !! ch = Some (mkChan [ErrConnClosed fd] 1 true)) /\
    (forall ch, ch ∉ take (length fds) (drop i (errChs (w σ))) ->
                errHeap σ' !! ch = errHeap σ !! ch).
Proof.
  induction fds as [|fd fds IH]; intros i σ Hlen Hnd Hfresh.
  - exists σ. repeat split; done.
  - cbn [length] in *.
    destruct (lookup_lt_is_Some_2 (errChs (w σ)) i ltac:(lia)) as [ch Hch].
    rewrite (drop_S _ _ _ Hch) in *. cbn [take] in *.
    apply NoDup_cons in Hnd as [Hnotin Hnd].
    assert (errHeap σ !! ch = Some fresh_chan) as Hfr by (apply Hfresh; left).
    destruct (chan_send_close_fresh (errHeap σ) ch (ErrConnClosed fd) Hfr)
      as (h1 & Hsend & Hclose).
    set (σ1 := set_os (fun o => sys_close o fd)
                 (set_errHeap (<[ch := mkChan [ErrConnClosed fd] 1 true]> (errHeap σ)) σ)).
    assert ((let* cw' := gets w in
             let* ch := index (errChs cw') i in
             send_errCh ch (ErrConnClosed fd) ;;
             close_errCh ch ;;
             syscall_Close fd) σ = Ret (tt, σ1)) as Hstep.
    { unfold bind at 1. cbn [gets]. unfold bind at 1. unfold index. rewrite Hch.
      cbn [ret]. unfold bind at 1. unfold send_errCh, lift_heap. rewrite Hsend.
      unfold bind at 1. unfold close_errCh, lift_heap. cbn [set_errHeap errHeap].
      rewrite Hclose. done. }
    destruct (IH (S i) σ1) as
      (σ' & Hrun & Hw & Hfd & Hfile & Hconn & Hgo & Hos & Hmine & Hother);
      [cbn; lia|done| |].
    { intros ch' Hin. cbn. rewrite list_lookup_insert_ne by (intros ->; done).
      apply Hfresh. by right. }
    exists σ'. split; [cbn [forI_]; by erewrite bind_Ret|].
    cbn [σ1 set_os set_errHeap w fdHeap fileHeap conn goroutines os errHeap] in *.
    repeat split; try done.
    + intros j fd' ch' Hj Hchj. destruct j as [|j]; cbn in Hj.
      * injection Hj as <-. rewrite Nat.add_0_r, Hch in Hchj. injection Hchj as <-.
        rewrite Hother by done. apply list_lookup_insert_eq. by eapply lookup_lt_Some.
      * apply (Hmine j); [done|]. by rewrite <- Nat.add_succ_comm in Hchj.
    + intros ch' [Hne Hnin]%not_elem_of_cons.
      rewrite Hother by done. by apply list_lookup_insert_ne.
Qed.

Section CloseProps.
Variable net : NetConn.

(** [close] under the invariant. *)
Lemma close_ok σ :
  wf σ ->
  exists σ', close net σ = Ret (Close_err net (conn σ), σ') /\ close_post σ σ'.
Proof.
  intros [(Hlen & Hnd & Hfresh) (Hwnd & Hwfresh)].
  set (σ0 := set_conn (mkConn (wire (conn σ)) (S (nclose (conn σ)))) σ).
  destruct (close_cached_loop (map_to_list (recvedFDs (w σ))) σ0)
    as (σ1 & Hrun1 & Hos1 & Hc1 & Hs1 & He1 & Hr1 & Heh1 & Hfh1 & Hfi1 & Hco1 & Hgo1).
  destruct (close_waiters_loop (map_to_list (recvFDChans (w σ))) σ1)
    as (σ2 & Hrun2 & Hmine2 & Hother2 & Hr2 & Hs2 & He2 & Hc2 & Hos2 & Heh2 & Hfi2
          & Hco2 & Hgo2).
  { done. }
  { intros ch Hin. rewrite Hfh1. by apply Hwfresh. }
  cbn [σ0 set_conn w os errHeap fdHeap fileHeap conn goroutines] in *.
  destruct (close_send_loop (sendFDs (w σ)) 0 σ2)
    as (σ3 & Hrun3 & Hw3 & Hfd3 & Hfile3 & Hconn3 & Hgo3 & Hos3 & Hmine3 & Hother3).
  { rewrite He2, He1. lia. }
  { rewrite He2, He1, drop_0, Hlen, firstn_all. done. }
  { rewrite He2, He1, drop_0, Hlen, firstn_all, Heh2, Heh1. done. }
  rewrite He2, He1, drop_0, Hlen, firstn_all in Hother3.
  exists (set_w (update_errChs (fun _ => [])) (set_w (update_sendFDs (fun _ => [])) σ3)).
  split.
  - unfold close. unfold bind at 1. unfold conn_Close. fold σ0.
    unfold bind at 1. cbn [gets σ0 set_conn w].
    erewrite bind_Ret by exact Hrun1.
    erewrite bind_Ret by exact Hrun2.
    erewrite bind_Ret by exact Hrun3. done.
  - unfold close_post.
    cbn [set_w w conn errHeap fdHeap os update_errChs update_sendFDs sendFDs errChs
           recvFDChans recvedFDs].
    split.
    { unfold update_errChs, update_sendFDs, wrapConn.
      cbn [sendFDs errChs recvFDChans recvedFDs].
      rewrite Hw3, Hr2, Hc2, Hc1, Hr1, !foldl_delete_all. done. }
    rewrite Hconn3, Hco2, Hco1, Hfd3, Hos3, Hos2, Hos1.
    rewrite Heh2, Heh1 in Hother3.
    split; [done|]. split.
    { intros j fd ch Hj Hch. apply (Hmine3 j); [done|]. by rewrite He2, He1. }
    split; [done|]. split.
    { intros fd Hin. rewrite foldl_sys_close_lookup. by rewrite decide_True. }
    split.
    { intros key fd Hk. rewrite !foldl_sys_close_lookup. case_decide; [done|].
      rewrite decide_True; [done|].
      apply list_elem_of_fmap. exists (key, fd). split; [done|].
      by apply elem_of_map_to_list. }
    split.
    { intros key chs ch Hk Hin. apply Hmine2. unfold waiters.
      apply list_elem_of_join. exists chs. split; [done|].
      apply list_elem_of_fmap. exists (key, chs). split; [done|].
      by apply elem_of_map_to_list. }
    split.
    { intros ch Hnin. rewrite Hother2 by done. by rewrite Hfh1. }
    intros x Hx Hnc. rewrite !foldl_sys_close_lookup.
    rewrite decide_False by done. rewrite decide_False; [done|].
    intros Hin. apply list_elem_of_fmap in Hin as ([key fd] & -> & Hin).
    apply elem_of_map_to_list in Hin. by apply (Hnc key).
Qed.

Lemma wf_wrapConn σ : w σ = wrapConn -> wf σ.
Proof.
  intros Hw. unfold wf, wf_send, wf_recv. rewrite Hw. cbn. rewrite waiters_empty.
  repeat split; try apply NoDup_nil_2; intros ch Hin; by apply elem_of_nil in Hin.
Qed.

(** A second [close] finds nothing to do. *)
Lemma close_again σ :
  w σ = wrapConn ->
  exists σ',
    close net σ = Ret (Close_err net (conn σ), σ') /\
    w σ' = w σ /\ errHeap σ' = errHeap σ /\ fdHeap σ' = fdHeap σ /\ os σ' = os σ.
Proof.
  intros Hw. unfold close. unfold bind at 1. unfold conn_Close.
  unfold bind at 1. cbn [gets set_conn w]. rewrite Hw. cbn [wrapConn recvedFDs
    recvFDChans sendFDs]. rewrite !map_to_list_empty. cbn [forM_ forI_].
  eexists. split; [reflexivity|].
  cbn [set_w set_conn w errHeap fdHeap os update_errChs update_sendFDs]. rewrite Hw.
  done.
Qed.
End CloseProps.

Lemma wf_intro σ chs ws :
  errChs (w σ) = chs -> waiters (recvFDChans (w σ)) = ws ->
  length (sendFDs (w σ)) = length chs ->
  NoDup chs -> Forall (fun ch => errHeap σ !! ch = Some fresh_chan) chs ->
  NoDup ws -> Forall (fun ch => fdHeap σ !! ch = Some fresh_chan) ws ->
  wf σ.
Proof.
  intros <- <- Hlen Hnd Hall Hnd' Hall'. rewrite Forall_forall in Hall, Hall'.
  by repeat split.
Qed.

Lemma wf_example_busy : wf example_busy.
Proof.
  apply (wf_intro example_busy [0; 1]%nat [0%nat]); try reflexivity.
  - apply (bool_decide_unpack _). by vm_compute.
  - repeat constructor.
  - apply (bool_decide_unpack _). by vm_compute.
  - repeat constructor.
Qed.

(** C3: closing a connection with N queued-but-untransmitted sends (N
    distinct result channels, by the invariant) makes each of the N
    channels hold exactly the one ConnectionClosed error of its
    descriptor and be closed, with every queued duplicate closed; every
    cached received descriptor is closed; every waiter's channel is
    closed without a value; no other channel is touched; and a second
    close returns leaving the wrapper, the channels and the descriptors
    as the first close left them. *)
Theorem close_fails_pending_and_is_idempotent (net : NetConn) (σ : World) :
  wf σ ->
  exists σ',
    close net σ = Ret (Close_err net (conn σ), σ') /\
    close_post σ σ' /\
    length (errChs (w σ)) = length (sendFDs (w σ)) /\
    NoDup (errChs (w σ)) /\
    exists σ'',
      close net σ' = Ret (Close_err net (conn σ'), σ'') /\
      w σ'' = w σ' /\ errHeap σ'' = errHeap σ' /\ fdHeap σ'' = fdHeap σ' /\
      os σ'' = os σ'.
Proof.
  intros Hwf. destruct (close_ok net σ Hwf) as (σ' & Hrun & Hpost).
  exists σ'. split; [done|]. split; [done|].
  destruct Hwf as [(Hlen & Hnd & _) _]. split; [done|]. split; [done|].
  apply close_again. by destruct Hpost as [Hw _].
Qed.

Lemma close_fails_pending_and_is_idempotent_witness :
  exists σ',
    close example_net example_busy = Ret (None, σ') /\
    w σ' = wrapConn /\
    errHeap σ' !! 0%nat = Some (mkChan [ErrConnClosed 3] 1 true) /\
    errHeap σ' !! 1%nat = Some (mkChan [ErrConnClosed 4] 1 true) /\
    fdHeap σ' !! 0%nat = Some (mkChan [] 1 true) /\
    fdtable (os σ') !! 3 = None /\ fdtable (os σ') !! 4 = None /\
    fdtable (os σ') !! 5 = None /\
    exists σ'',
      close example_net σ' = Ret (Close_err example_net (conn σ'), σ'') /\
      w σ'' = w σ' /\ errHeap σ'' = errHeap σ' /\ fdHeap σ'' = fdHeap σ' /\
      os σ'' = os σ'.
Proof.
  destruct (close_fails_pending_and_is_idempotent example_net example_busy
              wf_example_busy) as (σ' & Hrun & Hpost & _ & _ & Hagain).
  destruct Hpost as (Hw & _ & Hsend & _ & Hfds & Hcache & Hwait & _).
  exists σ'. split; [exact Hrun|]. split; [exact Hw|].
  split; [exact (Hsend 0%nat 3 0%nat eq_refl eq_refl)|].
  split; [exact (Hsend 1%nat 4 1%nat eq_refl eq_refl)|].
  split; [apply (Hwait (mkKey 7 7) [0%nat] 0%nat eq_refl); left|].
  split; [apply Hfds; left|].
  split; [apply Hfds; right; left|].
  split; [exact (Hcache example_key 5 eq_refl)|].
  exact Hagain.
Defined.

(** The example parser reads a locator of digits as [net/url] does. *)
Lemma example_authority_digits host rest :
  all_digits host = true ->
  example_authority (host ++ String "/" rest) = (host, String "/" rest).
Proof.
  induction host as [|c host IH]; intros Hd; [done|].
  cbn [all_digits] in Hd. apply andb_prop in Hd as [Hc Hd].
  rewrite append_cons. cbn [example_authority]. rewrite (IH Hd).
  destruct c as [[] [] [] [] [] [] [] []]; done.
Qed.

Lemma example_url_Parse_locator host path :
  valid_decimal_u64 host -> valid_decimal_u64 path ->
  example_url_Parse ("inode://" ++ host ++ "/" ++ path)%string
    = inl (mkURL "inode" host (String "/" path)).
Proof.
  intros (_ & Hh & _) _. unfold example_url_Parse.
  change (example_scheme ("inode://" ++ host ++ "/" ++ path))
    with (Some ("inode"%string, (host ++ String "/" path)%string)).
  cbn beta iota. by rewrite example_authority_digits.
Qed.

Lemma example_locator_roundtrip (device inode : Z) :
  0 <= device <= maxUint64 -> 0 <= inode <= maxUint64 ->
  URLStringToDevIno example_url_Parse
    ("inode://" ++ Sprintf_d device ++ "/" ++ Sprintf_d inode)%string
    = inl (device, inode).
Proof. apply URLStringToDevIno_roundtrip, example_url_Parse_locator. Qed.

(** ** Malformed locators *)

Lemma URLToDevIno_malformed u :
  malformed_URL u -> exists err, URLToDevIno u = inr err.
Proof.
  intros Hbad. destruct (URLToDevIno u) as [[d i]|err] eqn:H; [|by eexists].
  apply URLToDevIno_ok in H as (Hs & Hh & _ & Hp & _).
  by destruct Hbad as [?|[?|?]].
Qed.

(** C7: decoding fails with an error on every URL whose scheme is not
    "inode" or whose device or inode field is not a valid non-negative
    decimal integer fitting in 64 bits, and so it does on every locator
    string that parses to such a URL or does not parse; on such a string
    RecvFDByURL and RecvFileByURL return the nil channel and that error
    and leave the world (channels, waiters, cache, queue) exactly as it
    was. *)
Theorem malformed_locator_fails_synchronously
    (url_Parse : string -> URL + error) (urlStr : string) (σ : World) :
  malformed_locator url_Parse urlStr ->
  (forall u, malformed_URL u -> exists err, URLToDevIno u = inr err) /\
  exists err,
    URLStringToDevIno url_Parse urlStr = inr err /\
    RecvFDByURL url_Parse urlStr σ = Ret ((None, Some err), σ) /\
    RecvFileByURL url_Parse urlStr σ = Ret ((None, Some err), σ).
Proof.
  intros Hbad. split; [apply URLToDevIno_malformed|].
  assert (exists err, URLStringToDevIno url_Parse urlStr = inr err) as [err Herr].
  { unfold URLStringToDevIno, malformed_locator in *.
    destruct (url_Parse urlStr) as [u|e]; [|by eexists].
    by apply URLToDevIno_malformed. }
  exists err. split; [done|].
  unfold RecvFDByURL, RecvFileByURL. rewrite Herr. done.
Qed.

Lemma malformed_locator_fails_synchronously_witness :
  exists err,
    URLStringToDevIno example_url_Parse "not-a-scheme://x/y" = inr err /\
    RecvFDByURL example_url_Parse "not-a-scheme://x/y" example_two_waiters
      = Ret ((None, Some err), example_two_waiters) /\
    RecvFileByURL example_url_Parse "not-a-scheme://x/y" example_two_waiters
      = Ret ((None, Some err), example_two_waiters).
Proof.
  apply (malformed_locator_fails_synchronously example_url_Parse
           "not-a-scheme://x/y" example_two_waiters).
  left. cbn. discriminate.
Defined.

(** ** The per-call credential adapter *)

Lemma imap_snoc {A B} (f : nat -> A -> B) (l : list A) (x : A) :
  imap f (l ++ [x]) = imap f l ++ [f (length l) x].
Proof. rewrite imap_app. cbn. by rewrite Nat.add_0_r. Qed.

(** The replay loop, closure by closure. *)
Lemma PerRPC_replay_fold t fs : forall σ,
  PerRPC.nchans (foldl (fun s f => PerRPC.invoke t f s) σ fs)
    = (PerRPC.nchans σ + length fs)%nat /\
  PerRPC.calls (foldl (fun s f => PerRPC.invoke t f s) σ fs)
    = PerRPC.calls σ ++ PerRPC.replay_calls t (PerRPC.nchans σ) fs /\
  PerRPC.joins (foldl (fun s f => PerRPC.invoke t f s) σ fs)
    = PerRPC.joins σ ++ PerRPC.replay_joins (PerRPC.nchans σ) fs /\
  PerRPC.cred (foldl (fun s f => PerRPC.invoke t f s) σ fs) = PerRPC.cred σ.
Proof.
  induction fs as [|f fs IH] using rev_ind; intros σ.
  - cbn. by rewrite Nat.add_0_r, !app_nil_r.
  - rewrite foldl_app. cbn [foldl].
    destruct (IH σ) as (Hn & Hc & Hj & Hcr).
    unfold PerRPC.invoke at 1 3 5 7, PerRPC.call_and_join.
    cbn [PerRPC.nchans PerRPC.calls PerRPC.joins PerRPC.cred].
    rewrite Hn, Hc, Hj, Hcr. unfold PerRPC.replay_calls, PerRPC.replay_joins.
    rewrite !imap_snoc, length_app, !app_assoc. cbn. split; [lia|done].
Qed.

(** The world [GetRequestMetadata] leaves does not depend on the wrapped
    credentials. *)
Lemma PerRPC_GetRequestMetadata_world c u s :
  snd (PerRPC.GetRequestMetadata c u s) =
    match PerRPC.FDTransceiver (PerRPC.cred s) with
    | Some _ => s
    | None =>
        match PerRPC.FromContext c with
        | Some t =>
            let sb :=
              foldl (fun s f => PerRPC.invoke t f s)
                (PerRPC.set_cred
                   (PerRPC.mkWrap (PerRPC.PerRPCCredentials (PerRPC.cred s)) (Some t)
                      (PerRPC.transceiverFuncs (PerRPC.cred s))) s)
                (PerRPC.transceiverFuncs (PerRPC.cred s)) in
            PerRPC.set_cred
              (PerRPC.mkWrap (PerRPC.PerRPCCredentials (PerRPC.cred sb))
                 (PerRPC.FDTransceiver (PerRPC.cred sb)) []) sb
        | None => s
        end
    end.
Proof.
  unfold PerRPC.GetRequestMetadata.
  match goal with |- snd (match ?x with _ => _ end) = _ => by destruct x end.
Qed.

(** C9: on a metadata retrieval, if no transceiver is resolved yet and
    one is discoverable from the context, it is stored, every deferred
    operation is invoked on it in submission order (each relaying into
    the channel handed out when it was submitted) and the deferred list
    is cleared; once a transceiver is resolved a retrieval changes
    nothing, whatever the context, and so it does when nothing is
    discoverable; an operation invoked before resolution makes no call,
    returns a new channel at once and is deferred at the end of the
    list, and the later resolution relays the operation's result into
    that same channel; an operation invoked after resolution is called
    on the stored transceiver at once. *)
Theorem GetRequestMetadata_resolves_once_and_replays
    (ctx : PerRPC.Context) (uri : list string) (fd : Z) (σ : PerRPC.World) :
  let σ' := snd (PerRPC.GetRequestMetadata ctx uri σ) in
  let fs := PerRPC.transceiverFuncs (PerRPC.cred σ) in
  let out := fst (PerRPC.SendFD fd σ) in
  let σ1 := snd (PerRPC.SendFD fd σ) in
  (forall t,
     PerRPC.FDTransceiver (PerRPC.cred σ) = None -> PerRPC.FromContext ctx = Some t ->
     PerRPC.FDTransceiver (PerRPC.cred σ') = Some t /\
     PerRPC.transceiverFuncs (PerRPC.cred σ') = [] /\
     PerRPC.calls σ' = PerRPC.calls σ ++ PerRPC.replay_calls t (PerRPC.nchans σ) fs /\
     PerRPC.joins σ' = PerRPC.joins σ ++ PerRPC.replay_joins (PerRPC.nchans σ) fs) /\
  (forall t, PerRPC.FDTransceiver (PerRPC.cred σ) = Some t -> σ' = σ) /\
  (PerRPC.FDTransceiver (PerRPC.cred σ) = None -> PerRPC.FromContext ctx = None ->
   σ' = σ) /\
  (PerRPC.FDTransceiver (PerRPC.cred σ) = None ->
   out = PerRPC.nchans σ /\
   PerRPC.calls σ1 = PerRPC.calls σ /\ PerRPC.joins σ1 = PerRPC.joins σ /\
   PerRPC.FDTransceiver (PerRPC.cred σ1) = None /\
   PerRPC.transceiverFuncs (PerRPC.cred σ1)
     = fs ++ [PerRPC.mkDeferred (PerRPC.OpSendFD fd) out] /\
   forall t ctx' uri', PerRPC.FromContext ctx' = Some t ->
     let σ2 := snd (PerRPC.GetRequestMetadata ctx' uri' σ1) in
     let inner := (S (PerRPC.nchans σ) + length fs)%nat in
     PerRPC.calls σ2
       = PerRPC.calls σ ++ PerRPC.replay_calls t (S (PerRPC.nchans σ)) fs
           ++ [PerRPC.mkCall t (PerRPC.OpSendFD fd) inner] /\
     PerRPC.joins σ2
       = PerRPC.joins σ ++ PerRPC.replay_joins (S (PerRPC.nchans σ)) fs
           ++ [PerRPC.mkJoin inner out]) /\
  (forall t, PerRPC.FDTransceiver (PerRPC.cred σ) = Some t ->
     out = PerRPC.nchans σ /\
     PerRPC.calls σ1
       = PerRPC.calls σ ++ [PerRPC.mkCall t (PerRPC.OpSendFD fd) (S (PerRPC.nchans σ))] /\
     PerRPC.joins σ1
       = PerRPC.joins σ ++ [PerRPC.mkJoin (S (PerRPC.nchans σ)) out] /\
     PerRPC.cred σ1 = PerRPC.cred σ).
Proof.
  intros σ' fs out σ1.
  assert (forall (c : PerRPC.Context) u s t,
            PerRPC.FDTransceiver (PerRPC.cred s) = None ->
            PerRPC.FromContext c = Some t ->
            let s' := snd (PerRPC.GetRequestMetadata c u s) in
            PerRPC.FDTransceiver (PerRPC.cred s') = Some t /\
            PerRPC.transceiverFuncs (PerRPC.cred s') = [] /\
            PerRPC.calls s' = PerRPC.calls s
              ++ PerRPC.replay_calls t (PerRPC.nchans s)
                   (PerRPC.transceiverFuncs (PerRPC.cred s)) /\
            PerRPC.joins s' = PerRPC.joins s
              ++ PerRPC.replay_joins (PerRPC.nchans s)
                   (PerRPC.transceiverFuncs (PerRPC.cred s))) as Hresolve.
  { intros c u s t Hnone Hctx s'. subst s'.
    rewrite PerRPC_GetRequestMetadata_world, Hnone, Hctx.
    match goal with
    | |- context [foldl ?f ?a ?l] =>
        destruct (PerRPC_replay_fold t l a) as (Hn & Hc & Hj & Hcr)
    end.
    cbn [PerRPC.set_cred PerRPC.nchans PerRPC.calls PerRPC.joins PerRPC.cred] in *.
    rewrite Hcr, Hc, Hj. done. }
  split; [by intros t Hnone Hctx; apply Hresolve|].
  split.
  { intros t Ht. subst σ'. by rewrite PerRPC_GetRequestMetadata_world, Ht. }
  split.
  { intros Hnone Hctx. subst σ'.
    by rewrite PerRPC_GetRequestMetadata_world, Hnone, Hctx. }
  split.
  - intros Hnone. subst out σ1. unfold PerRPC.SendFD, PerRPC.make_chan, PerRPC.submit.
    cbn [fst snd PerRPC.cred]. rewrite Hnone.
    cbn [PerRPC.set_cred PerRPC.calls PerRPC.joins PerRPC.cred PerRPC.FDTransceiver
           PerRPC.transceiverFuncs PerRPC.nchans].
    split; [done|]. split; [done|]. split; [done|]. split; [done|]. split; [done|].
    intros t ctx' uri' Hctx.
    match goal with
    | |- context [PerRPC.GetRequestMetadata ctx' uri' ?s] =>
        destruct (Hresolve ctx' uri' s t eq_refl Hctx) as (_ & _ & Hc & Hj)
    end.
    cbn zeta. rewrite Hc, Hj.
    cbn [PerRPC.set_cred PerRPC.calls PerRPC.joins PerRPC.nchans PerRPC.cred
           PerRPC.transceiverFuncs].
    unfold PerRPC.replay_calls, PerRPC.replay_joins.
    rewrite !imap_snoc. done.
  - intros t Ht. subst out σ1. unfold PerRPC.SendFD, PerRPC.make_chan, PerRPC.submit.
    cbn [fst snd PerRPC.cred]. rewrite Ht. done.
Qed.

Lemma GetRequestMetadata_resolves_once_and_replays_witness :
  let σ' := snd (PerRPC.GetRequestMetadata PerRPC.example_ctx [] PerRPC.example_deferred) in
  PerRPC.FDTransceiver (PerRPC.cred σ') = Some 7%nat /\
  PerRPC.transceiverFuncs (PerRPC.cred σ') = [] /\
  PerRPC.calls σ' =
    [PerRPC.mkCall 7%nat (PerRPC.OpSendFD 3) 3%nat;
     PerRPC.mkCall 7%nat (PerRPC.OpSendFD 4) 4%nat;
     PerRPC.mkCall 7%nat (PerRPC.OpRecvFD 2049 77) 5%nat] /\
  PerRPC.joins σ' =
    [PerRPC.mkJoin 3%nat 0%nat; PerRPC.mkJoin 4%nat 1%nat; PerRPC.mkJoin 5%nat 2%nat].
Proof.
  destruct (GetRequestMetadata_resolves_once_and_replays PerRPC.example_ctx [] 0
              PerRPC.example_deferred) as [Hresolve _].
  exact (Hresolve 7%nat eq_refl eq_refl).
Defined.

(** ** The invariant is kept by every operation of the wrapper *)

Lemma wf_example_world : wf example_world.
Proof. by apply wf_wrapConn. Qed.

Lemma SendFD_wf fd σ ch σ' : wf σ -> SendFD fd σ = Ret (ch, σ') -> wf σ'.
Proof.
  intros [Hs Hr] Hrun. split; [by eapply SendFD_wf_send|].
  rewrite SendFD_spec in Hrun. cbn zeta in Hrun.
  destruct (F_DUPFD (os σ) fd) as [o [fd'|errno]]; injection Hrun as <- <-; done.
Qed.

Lemma RecvFD_wf d i σ ch σ' : wf σ -> RecvFD d i σ = Ret (ch, σ') -> wf σ'.
Proof.
  intros [Hs Hr] Hrun. split; [|by eapply RecvFD_wf_recv].
  rewrite RecvFD_spec in Hrun. cbn zeta in Hrun.
  destruct (recvedFDs (w σ) !! mkKey d i); injection Hrun as <- <-; done.
Qed.

Lemma send_side_kept_wf_send σ σ' : send_side_kept σ σ' -> wf_send σ -> wf_send σ'.
Proof. intros (Hs & Hc & Hh) Hwf. unfold wf_send. by rewrite Hs, Hc, Hh. Qed.

Lemma Read_wf d σ :
  wf σ -> exists r σ', Read d σ = Ret (r, σ') /\ wf σ'.
Proof.
  intros [Hs Hr]. destruct (Read_total d σ Hr) as (σ' & Hrun & Hr' & _ & Hkept).
  eexists _, σ'. split; [done|]. split; [by eapply send_side_kept_wf_send|done].
Qed.

Lemma Write_wf net b σ :
  wf σ -> (Nat.min (length (sendFDs (w σ))) maxFDCount <= length b)%nat ->
  exists r σ', Write net b σ = Ret (r, σ') /\ wf σ'.
Proof.
  intros [Hs Hr] Hb. destruct (Write_ok net b σ Hs Hb) as (r & σ' & Hrun & Hpost).
  exists r, σ'. split; [done|]. split; [by eapply Write_wf_send|].
  destruct Hpost as (_ & _ & Hchans & _ & _ & _ & _ & _ & _ & _ & _ & _ & Hfd).
  unfold wf_recv. by rewrite Hchans, Hfd.
Qed.

Lemma close_wf net σ :
  wf σ -> exists r σ', close net σ = Ret (r, σ') /\ wf σ'.
Proof.
  intros Hwf. destruct (close_ok net σ Hwf) as (σ' & Hrun & Hw & _).
  eexists _, σ'. split; [done|]. by apply wf_wrapConn.
Qed.

(** * Further properties of the package *)

(** ** The identity codec *)

Lemma decimal_value_nonneg s : all_digits s = true -> 0 <= decimal_value s.
Proof. intros H. unfold decimal_value. by apply decimal_value_from_mono. Qed.

(** X1: URLToDevIno returns a pair exactly when the scheme is "inode"
    and both the host and the path, less one leading slash, are
    non-empty strings of decimal digits of value below 2^64 (leading
    zeros are accepted); the pair is their values, both within the 64-bit
    range, and the URL FDToURL would build for that pair decodes to the
    same pair. *)
Theorem URLToDevIno_accepts_exactly (u : URL) (d i : Z) :
  (URLToDevIno u = inl (d, i) <->
   Scheme u = "inode"%string /\
   valid_decimal_u64 (Host u) /\ d = decimal_value (Host u) /\
   valid_decimal_u64 (TrimPrefix_slash (Path u)) /\
   i = decimal_value (TrimPrefix_slash (Path u))) /\
  (URLToDevIno u = inl (d, i) ->
   0 <= d <= maxUint64 /\ 0 <= i <= maxUint64 /\
   URLToDevIno (mkURL "inode" (Sprintf_d d) (Sprintf_d i)) = inl (d, i)).
Proof.
  split; [apply URLToDevIno_ok|].
  intros H. apply URLToDevIno_ok in H as (_ & Hh & -> & Hp & ->).
  assert (0 <= decimal_value (Host u) <= maxUint64) as Hd.
  { destruct Hh as (_ & Hdig & Hle). split; [by apply decimal_value_nonneg|done]. }
  assert (0 <= decimal_value (TrimPrefix_slash (Path u)) <= maxUint64) as Hi.
  { destruct Hp as (_ & Hdig & Hle). split; [by apply decimal_value_nonneg|done]. }
  split; [done|]. split; [done|].
  destruct (Sprintf_d_decimal _ Hd) as [Hvd Hdd].
  destruct (Sprintf_d_decimal _ Hi) as [Hvi Hdi].
  apply URLToDevIno_ok. cbn [Scheme Host Path].
  assert (TrimPrefix_slash (Sprintf_d (decimal_value (TrimPrefix_slash (Path u))))
          = Sprintf_d (decimal_value (TrimPrefix_slash (Path u)))) as ->.
  { destruct (valid_decimal_first_digit _ Hvi) as (c' & s' & Hc' & Hcd').
    rewrite Hc'. unfold TrimPrefix_slash.
    destruct c' as [[] [] [] [] [] [] [] []]; try done. }
  done.
Qed.

(** X2: the URL FilenameToURL builds for a file name is the one FDToURL
    builds for any descriptor open on the same file, and when the file's
    device and inode numbers are 64-bit values URLToDevIno reads them
    back from it. *)
Theorem FilenameToURL_agrees_with_FDToURL
    (os_Stat : string -> Stat_t + error) (filename : string) (o : OS) (fd : Z)
    (fi : Stat_t) :
  os_Stat filename = inl fi ->
  Fstat o fd = inl fi ->
  0 <= Dev fi <= maxUint64 -> 0 <= Ino fi <= maxUint64 ->
  FilenameToURL os_Stat filename = FDToURL o fd /\
  exists u, FilenameToURL os_Stat filename = inl u /\
            URLToDevIno u = inl (Dev fi, Ino fi).
Proof.
  intros Hs Hf Hd Hi. unfold FilenameToURL, FDToURL. rewrite Hs, Hf.
  split; [done|]. eexists. split; [done|].
  destruct (Sprintf_d_decimal _ Hd) as [Hvd Hdd].
  destruct (Sprintf_d_decimal _ Hi) as [Hvi Hdi].
  apply URLToDevIno_ok. cbn [Scheme Host Path].
  assert (TrimPrefix_slash (Sprintf_d (Ino fi)) = Sprintf_d (Ino fi)) as ->.
  { destruct (valid_decimal_first_digit _ Hvi) as (c' & s' & Hc' & Hcd').
    rewrite Hc'. unfold TrimPrefix_slash.
    destruct c' as [[] [] [] [] [] [] [] []]; try done. }
  done.
Qed.

Lemma FilenameToURL_agrees_with_FDToURL_witness :
  FilenameToURL (fun _ => inl example_stat) "/proc/1/ns/net" = FDToURL example_os 5 /\
  exists u, FilenameToURL (fun _ => inl example_stat) "/proc/1/ns/net" = inl u /\
            URLToDevIno u = inl (2049, 18446744073709551615).
Proof.
  apply (FilenameToURL_agrees_with_FDToURL (fun _ => inl example_stat) "/proc/1/ns/net"
           example_os 5 example_stat).
  - reflexivity.
  - reflexivity.
  - cbn. unfold maxUint64. lia.
  - cbn. unfold maxUint64. lia.
Defined.

(** ** [Write] and [SendFD] together *)

Lemma take_min_length {A} (l : list A) n : take (Nat.min (length l) n) l = take n l.
Proof.
  destruct (Nat.le_gt_cases (length l) n) as [H|H].
  - rewrite Nat.min_l by done. by rewrite firstn_all, take_ge.
  - by rewrite Nat.min_r by lia.
Qed.

Lemma drop_min_length {A} (l : list A) n : drop (Nat.min (length l) n) l = drop n l.
Proof.
  destruct (Nat.le_gt_cases (length l) n) as [H|H].
  - rewrite Nat.min_l by done. by rewrite drop_all, drop_ge.
  - by rewrite Nat.min_r by lia.
Qed.

Lemma rights_of_app l1 l2 : rights_of (l1 ++ l2) = rights_of l1 ++ rights_of l2.
Proof. unfold rights_of. apply flat_map_app. Qed.

Lemma rights_of_drain_msgs fds : forall b,
  (length fds <= length b)%nat -> rights_of (drain_msgs b fds) = fds.
Proof.
  induction fds as [|fd fds IH]; intros b Hb.
  - unfold drain_msgs. by rewrite zip_with_nil_r.
  - destruct b as [|bi b]; [cbn in Hb; lia|].
    cbn in *. f_equal. apply IH. lia.
Qed.

(** What [Write] does to the descriptor table and to the parts of the
    world it has no business with. *)
Lemma Write_frame net b σ :
  wf_send σ ->
  (Nat.min (length (sendFDs (w σ))) maxFDCount <= length b)%nat ->
  exists res σ',
    Write net b σ = Ret (res, σ') /\
    os σ' = foldl sys_close (os σ)
              (take (Nat.min (length (sendFDs (w σ))) maxFDCount) (sendFDs (w σ))) /\
    fileHeap σ' = fileHeap σ /\ goroutines σ' = goroutines σ /\
    nclose (conn σ') = nclose (conn σ).
Proof.
  intros (Hlen & Hnd & Hfresh) Hb.
  set (limit := Nat.min (length (sendFDs (w σ))) maxFDCount) in *.
  set (fds := take limit (sendFDs (w σ))).
  set (chs := take limit (errChs (w σ))).
  assert (length fds = limit) as Hfdslen by (unfold fds; rewrite length_take; lia).
  assert (length chs = limit) as Hchslen by (unfold chs; rewrite length_take; lia).
  set (σ0 := set_w (fun cw => mkConnWrap (drop limit (sendFDs cw)) (drop limit (errChs cw))
                                (recvFDChans cw) (recvedFDs cw)) σ).
  destruct (Write_loop_ok net b chs fds 0 σ0) as (σ1 & Hrun & Hpost).
  { lia. }
  { rewrite drop_0, Hfdslen, <- Hchslen, firstn_all.
    eapply sublist_NoDup; [done|apply sublist_take]. }
  { rewrite drop_0, Hfdslen, <- Hchslen, firstn_all. intros ch Hin.
    cbn. apply Hfresh. unfold chs in Hin.
    eapply elem_of_take in Hin as (? & ? & ?). by eapply list_elem_of_lookup_2. }
  { lia. }
  destruct Hpost as (Hw & Hfd & Hfile & Hgo & Hconn & Hos & _).
  assert (forall A (k : unit -> M A),
            bind (forI_ 0 fds (Write_body net b chs)) k σ0 = k tt σ1) as Hstep.
  { intros A k. by erewrite bind_Ret. }
  destruct (Write net b σ) as [[res σ']| |] eqn:HW.
  - exists res, σ'. split; [done|]. revert HW.
    unfold Write. unfold bind at 1. cbn [gets].
    destruct (decide (0 < length (sendFDs (w σ)))%nat) as [Hpos|Hzero].
    + unfold bind at 1. unfold bind at 2.
      assert ((if decide (maxFDCount < length (sendFDs (w σ)))%nat
               then maxFDCount else length (sendFDs (w σ))) = limit) as ->.
      { unfold limit. case_decide; lia. }
      unfold slice_to, slice_from. rewrite !decide_True by lia.
      cbn [bind ret modify fst snd]. unfold bind. cbn [ret modify fst snd].
      fold fds chs. change (set_w _ (set_w _ σ)) with σ0.
      rewrite Hrun. rewrite Hfdslen, decide_True by lia.
      unfold conn_Write, ret. intros [= <- <-].
      cbn [set_conn os fileHeap goroutines conn nclose].
      rewrite Hos, Hfile, Hgo, Hconn. done.
    + assert (sendFDs (w σ) = []) as Hnil
          by (destruct (sendFDs (w σ)); [done|cbn in Hzero; lia]).
      assert (limit = 0%nat) as Hl0 by (unfold limit; rewrite Hnil; done).
      unfold bind. cbn [ret fst snd forI_ length]. unfold slice_from.
      rewrite decide_True by lia. cbn [ret]. unfold conn_Write, ret.
      intros [= <- <-]. fold limit fds. unfold fds. rewrite Hl0. cbn. done.
  - destruct (Write_ok net b σ (conj Hlen (conj Hnd Hfresh)) Hb) as (? & ? & HW' & _).
    by rewrite HW in HW'.
  - destruct (Write_ok net b σ (conj Hlen (conj Hnd Hfresh)) Hb) as (? & ? & HW' & _).
    by rewrite HW in HW'.
Qed.

(** X3: two consecutive calls of Write, each with a buffer long enough
    for its batch, drain the first 128 entries of the queue: the
    descriptors handed to the connection as rights by the two calls,
    read in the order of the messages, are exactly the first 128 queued
    descriptors in queue order, and what lies beyond them stays queued. *)
Theorem Write_twice_drains_in_order (net : NetConn) (b1 b2 : list byte) (σ : World) :
  wf_send σ ->
  (Nat.min (length (sendFDs (w σ))) maxFDCount <= length b1)%nat ->
  (Nat.min (length (sendFDs (w σ)) - maxFDCount) maxFDCount <= length b2)%nat ->
  exists r1 σ1 r2 σ2 msgs,
    Write net b1 σ = Ret (r1, σ1) /\
    Write net b2 σ1 = Ret (r2, σ2) /\
    sendFDs (w σ1) = drop maxFDCount (sendFDs (w σ)) /\
    sendFDs (w σ2) = drop (2 * maxFDCount) (sendFDs (w σ)) /\
    conn σ2 = conn_after (conn σ) msgs /\
    rights_of msgs = take (2 * maxFDCount) (sendFDs (w σ)).
Proof.
  intros Hwf Hb1 Hb2.
  destruct (Write_ok net b1 σ Hwf Hb1) as (r1 & σ1 & Hrun1 & Hpost1).
  pose proof (Write_wf_send net b1 σ r1 σ1 Hwf Hpost1) as Hwf1.
  destruct Hpost1 as (Hq1 & _ & _ & _ & Hconn1 & _).
  rewrite drop_min_length in Hq1. rewrite take_min_length in Hconn1.
  assert (Nat.min (length (sendFDs (w σ1))) maxFDCount <= length b2)%nat as Hb2'.
  { by rewrite Hq1, length_drop. }
  destruct (Write_ok net b2 σ1 Hwf1 Hb2') as (r2 & σ2 & Hrun2 & Hpost2).
  destruct Hpost2 as (Hq2 & _ & _ & _ & Hconn2 & _).
  rewrite drop_min_length in Hq2. rewrite take_min_length in Hconn2.
  eexists r1, σ1, r2, σ2, _. split; [done|]. split; [done|]. split; [done|].
  split; [by rewrite Hq2, Hq1, drop_drop|].
  split; [by rewrite Hconn2, Hconn1, conn_after_app|].
  rewrite !rights_of_app. cbn [rights_of flat_map]. rewrite !app_nil_r.
  rewrite !rights_of_drain_msgs.
  - rewrite Hq1. replace (2 * maxFDCount)%nat with (maxFDCount + maxFDCount)%nat by lia.
    apply take_take_drop.
  - rewrite length_take. lia.
  - rewrite length_take. lia.
Qed.

Lemma world_after_SendFD_wf_send fd σ : wf_send σ -> wf_send (world_after (SendFD fd) σ).
Proof.
  intros Hwf. unfold world_after.
  destruct (SendFD fd σ) as [[ch σ']| |] eqn:H; [|done|done].
  by eapply SendFD_wf_send.
Qed.

Lemma wf_send_example_hundred : wf_send example_hundred.
Proof.
  unfold example_hundred. generalize 100%nat. intros n.
  induction n as [|n IH]; cbn [Nat.iter].
  - split; [done|]. split; [apply NoDup_nil_2|].
    intros ch Hin. by apply elem_of_nil in Hin.
  - by apply world_after_SendFD_wf_send.
Qed.

Lemma Write_twice_drains_in_order_witness :
  exists r1 σ1 r2 σ2 msgs,
    Write example_net (replicate 64 "x"%byte) example_hundred = Ret (r1, σ1) /\
    Write example_net (replicate 40 "y"%byte) σ1 = Ret (r2, σ2) /\
    sendFDs (w σ1) = drop maxFDCount (sendFDs (w example_hundred)) /\
    sendFDs (w σ2) = drop (2 * maxFDCount) (sendFDs (w example_hundred)) /\
    conn σ2 = conn_after (conn example_hundred) msgs /\
    rights_of msgs = take (2 * maxFDCount) (sendFDs (w example_hundred)).
Proof.
  apply (Write_twice_drains_in_order example_net (replicate 64 "x"%byte)
           (replicate 40 "y"%byte) example_hundred).
  - apply wf_send_example_hundred.
  - vm_compute. lia.
  - vm_compute. lia.
Defined.

(** X4: when the write of the remaining bytes fails, Write returns the
    connection's error with the connection's count, to which the bytes
    already sent with descriptors are not added; the drained entries are
    not put back: they are gone from the queue, their descriptors were
    handed to the connection and closed, and their result channels are
    closed. *)
Theorem Write_failure_does_not_requeue
    (net : NetConn) (b : list byte) (σ : World) (n : Z) (e : error) :
  wf_send σ ->
  let limit := Nat.min (length (sendFDs (w σ))) maxFDCount in
  let fds := take limit (sendFDs (w σ)) in
  (limit <= length b)%nat ->
  Write_res net (conn_after (conn σ) (drain_msgs b fds)) (drop limit b) = (n, Some e) ->
  exists σ',
    Write net b σ = Ret ((n, Some e), σ') /\
    sendFDs (w σ') = drop limit (sendFDs (w σ)) /\
    errChs (w σ') = drop limit (errChs (w σ)) /\
    rights_of (wire (conn σ')) = rights_of (wire (conn σ)) ++ fds /\
    (forall fd, fd ∈ fds -> fdtable (os σ') !! fd = None) /\
    (forall ch, ch ∈ take limit (errChs (w σ)) ->
       exists c, errHeap σ' !! ch = Some c /\ closed c = true).
Proof.
  intros Hwf limit fds Hb Hres.
  destruct (Write_ok net b σ Hwf Hb) as (res & σ' & Hrun & Hpost).
  destruct Hpost as (Hq & Hc & _ & _ & Hconn & _ & _ & Hr & _ & Hmine & _ & Hclosed & _).
  fold limit fds in Hq, Hc, Hconn, Hr, Hmine, Hclosed.
  rewrite Hres in Hr. cbn in Hr. subst res.
  exists σ'. split; [done|]. split; [done|]. split; [done|].
  split; [|split; [done|]].
  - rewrite Hconn. cbn [conn_after wire]. rewrite !rights_of_app.
    cbn [rights_of flat_map]. rewrite !app_nil_r.
    rewrite rights_of_drain_msgs; [done|]. unfold fds. rewrite length_take. lia.
  - intros ch Hin. apply list_elem_of_lookup in Hin as [j Hj].
    destruct Hwf as (Hlen & _).
    destruct (lookup_lt_is_Some_2 fds j) as [fd Hfd].
    { unfold fds. apply lookup_lt_Some in Hj. rewrite length_take in Hj.
      rewrite length_take. lia. }
    destruct (lookup_lt_is_Some_2 b j) as [bj Hbj].
    { apply lookup_lt_Some in Hfd. unfold fds in Hfd. rewrite length_take in Hfd.
      unfold limit in *. lia. }
    eexists. split; [exact (Hmine j ch fd bj Hj Hfd Hbj)|done].
Qed.

Lemma Write_failure_does_not_requeue_witness :
  exists σ',
    Write (mkNetConn (fun _ _ _ => None) (fun _ _ => (0, Some (ErrNet 1)))
             (fun _ => None)) ["a"; "b"; "c"]%byte example_queued
      = Ret ((0, Some (ErrNet 1)), σ') /\
    sendFDs (w σ') = [] /\
    rights_of (wire (conn σ')) = [3; 4] /\
    fdtable (os σ') !! 3 = None /\ fdtable (os σ') !! 4 = None.
Proof.
  destruct (Write_failure_does_not_requeue
              (mkNetConn (fun _ _ _ => None) (fun _ _ => (0, Some (ErrNet 1)))
                 (fun _ => None))
              ["a"; "b"; "c"]%byte example_queued 0 (ErrNet 1))
    as (σ' & Hrun & Hq & _ & Hr & Hfd & _).
  - apply wf_send_example_queued.
  - vm_compute. lia.
  - reflexivity.
  - exists σ'. split; [exact Hrun|]. split; [exact Hq|]. split; [exact Hr|].
    split; apply Hfd; [left|right; left].
Defined.

(** X5: with nothing queued Write is transparent: it hands the whole
    buffer to the connection in one plain write, returns exactly what
    the connection returns and changes nothing else, whatever the
    buffer (the empty one included). *)
Theorem Write_empty_queue_is_transparent (net : NetConn) (b : list byte) (σ : World) :
  sendFDs (w σ) = [] ->
  Write net b σ
    = Ret (Write_res net (conn σ) b, set_conn (conn_after (conn σ) [MsgData b]) σ).
Proof.
  intros Hnil. unfold Write. unfold bind at 1. cbn [gets]. rewrite Hnil.
  cbn [length]. rewrite decide_False by lia.
  unfold bind. cbn [ret fst snd forI_ length]. unfold slice_from.
  rewrite decide_True by lia. cbn [ret]. unfold conn_Write, ret, conn_after.
  rewrite drop_0.
  destruct (Write_res net (conn σ) b) as [n [e|]]; cbn; [done|].
  by rewrite Z.add_0_r.
Qed.

Lemma Write_empty_queue_is_transparent_witness :
  Write example_net [] example_world
    = Ret ((0, None), set_conn (conn_after (conn example_world) [MsgData []]) example_world).
Proof. apply (Write_empty_queue_is_transparent example_net [] example_world). reflexivity. Defined.

(** X6: a descriptor sent on an empty queue and the next Write: the
    duplicate SendFD made travels as the rights of one message carrying
    the first byte of the buffer, the rest of the buffer follows in a
    plain write, the channel SendFD returned is closed holding the error
    of that message if it had one, the duplicate is closed and the
    descriptor table is as it was before SendFD, the caller's own
    descriptor still open. *)
Theorem SendFD_then_Write_round_trip
    (net : NetConn) (fd fd' : Z) (bi : byte) (b : list byte) (σ : World) :
  wf_send σ ->
  sendFDs (w σ) = [] ->
  snd (F_DUPFD (os σ) fd) = inl fd' ->
  exists ch σ1 r σ2,
    SendFD fd σ = Ret (ch, σ1) /\
    Write net (bi :: b) σ1 = Ret (r, σ2) /\
    conn σ2 = conn_after (conn σ) [MsgUnix [bi] [fd']; MsgData b] /\
    errHeap σ2 !! ch
      = Some (mkChan (option_list (WriteMsgUnix_err net (conn σ) [bi] [fd'])) 1 true) /\
    sendFDs (w σ2) = [] /\
    fdtable (os σ2) = fdtable (os σ) /\
    fd' <> fd /\ is_Some (fdtable (os σ2) !! fd).
Proof.
  intros Hwf Hnil Hdup.
  destruct (F_DUPFD (os σ) fd) as [o1 r] eqn:HF. cbn in Hdup. subst r.
  pose proof (F_DUPFD_ok _ _ _ _ HF) as (st & Hfd & Hfree & Ho1).
  pose proof (SendFD_spec fd σ) as Hspec. cbn zeta in Hspec. rewrite HF in Hspec.
  match type of Hspec with _ = Ret (?c, ?s) => set (ch := c) in *; set (σ1 := s) in * end.
  pose proof (SendFD_wf_send fd σ ch σ1 Hwf Hspec) as Hwf1.
  assert (sendFDs (w σ1) = [fd']) as Hq1 by (cbn; by rewrite Hnil).
  assert (errChs (w σ1) = [ch]) as Hc1.
  { destruct Hwf as (Hlen & _). rewrite Hnil in Hlen.
    cbn. destruct (errChs (w σ)); [done|cbn in Hlen; lia]. }
  assert (Nat.min (length (sendFDs (w σ1))) maxFDCount <= length (bi :: b))%nat as Hb.
  { rewrite Hq1. cbn. lia. }
  destruct (Write_ok net (bi :: b) σ1 Hwf1 Hb) as (r & σ2 & Hrun & Hpost).
  destruct (Write_frame net (bi :: b) σ1 Hwf1 Hb) as (r' & σ2' & Hrun' & Hos & _).
  rewrite Hrun in Hrun'. injection Hrun' as <- <-.
  destruct Hpost as (Hq & _ & _ & _ & Hconn & _ & _ & _ & _ & Hmine & _).
  rewrite Hq1, Hc1 in *. cbn [length Nat.min maxFDCount take drop] in *.
  exists ch, σ1, r, σ2. split; [done|]. split; [done|].
  split; [rewrite Hconn; unfold drain_msgs; by destruct b|].
  split.
  { rewrite (Hmine 0%nat ch fd' bi eq_refl eq_refl eq_refl).
    unfold drain_msgs. cbn [take zip_with]. by rewrite conn_after_nil. }
  split; [done|].
  assert (fdtable (os σ2) = fdtable (os σ)) as Htable.
  { rewrite Hos. cbn [foldl sys_close fdtable σ1 os]. rewrite Ho1. cbn [fdtable].
    by apply delete_insert_id. }
  split; [done|]. split; [intros ->; by rewrite Hfd in Hfree|].
  rewrite Htable, Hfd. by eexists.
Qed.

Lemma SendFD_then_Write_round_trip_witness :
  exists ch σ1 r σ2,
    SendFD 5 example_world = Ret (ch, σ1) /\
    Write example_net ["a"; "b"]%byte σ1 = Ret (r, σ2) /\
    conn σ2 = conn_after (conn example_world) [MsgUnix ["a"%byte] [3]; MsgData ["b"%byte]] /\
    errHeap σ2 !! ch = Some (mkChan [] 1 true) /\
    sendFDs (w σ2) = [] /\
    fdtable (os σ2) = fdtable (os example_world) /\
    3 <> 5 /\ is_Some (fdtable (os σ2) !! 5).
Proof.
  apply (SendFD_then_Write_round_trip example_net 5 3 "a"%byte ["b"%byte] example_world).
  - apply wf_send_example_world.
  - reflexivity.
  - reflexivity.
Defined.

(** X7: SendFD keeps submission order and never reuses a descriptor: two
    calls whose duplications succeed leave the queue extended by the two
    duplicates in call order, with two new distinct result channels, both
    open and empty; the two duplicates differ from each other and from
    the descriptors they duplicate, which stay open, and each refers to
    the file of the descriptor it duplicates. *)
Theorem SendFD_twice_in_order (fda fdb a' b' : Z) (σ : World) :
  snd (F_DUPFD (os σ) fda) = inl a' ->
  snd (F_DUPFD (fst (F_DUPFD (os σ) fda)) fdb) = inl b' ->
  exists cha σ1 chb σ2,
    SendFD fda σ = Ret (cha, σ1) /\
    SendFD fdb σ1 = Ret (chb, σ2) /\
    sendFDs (w σ2) = sendFDs (w σ) ++ [a'; b'] /\
    errChs (w σ2) = errChs (w σ) ++ [cha; chb] /\
    cha <> chb /\
    errHeap σ2 !! cha = Some fresh_chan /\ errHeap σ2 !! chb = Some fresh_chan /\
    a' <> b' /\ a' <> fda /\ b' <> fda /\ b' <> fdb /\
    fdtable (os σ2) !! fda = fdtable (os σ) !! fda /\
    is_Some (fdtable (os σ2) !! fda) /\
    is_Some (fdtable (os σ2) !! fdb) /\
    fdtable (os σ2) !! a' = fdtable (os σ2) !! fda /\
    fdtable (os σ2) !! b' = fdtable (os σ2) !! fdb.
Proof.
  intros Ha Hb.
  destruct (F_DUPFD (os σ) fda) as [o1 ra] eqn:HFa. cbn in Ha, Hb. subst ra.
  destruct (F_DUPFD o1 fdb) as [o2 rb] eqn:HFb. cbn in Hb. subst rb.
  pose proof (F_DUPFD_ok _ _ _ _ HFa) as (sta & Hfda & Hfreea & Ho1).
  pose proof (F_DUPFD_ok _ _ _ _ HFb) as (stb & Hfdb & Hfreeb & Ho2).
  pose proof (SendFD_spec fda σ) as H1. cbn zeta in H1. rewrite HFa in H1.
  match type of H1 with _ = Ret (?c, ?s) => set (cha := c) in *; set (σ1 := s) in * end.
  pose proof (SendFD_spec fdb σ1) as H2. cbn zeta in H2.
  change (os σ1) with o1 in H2. rewrite HFb in H2.
  match type of H2 with _ = Ret (?c, ?s) => set (chb := c) in *; set (σ2 := s) in * end.
  assert (chb = S cha) as Hchb.
  { unfold chb, cha. cbn. rewrite length_app. cbn. lia. }
  exists cha, σ1, chb, σ2. split; [done|]. split; [done|].
  cbn [σ2 σ1 w sendFDs errChs errHeap os].
  split; [by rewrite <- app_assoc|]. split; [by rewrite <- app_assoc|].
  split; [lia|].
  split.
  { rewrite lookup_app_l by (rewrite length_app; cbn; unfold cha; lia).
    apply lookup_snoc_new. }
  split.
  { unfold chb. cbn. apply lookup_snoc_new. }
  subst o1 o2. cbn [fdtable] in *.
  assert (a' <> fda) as Hn1 by (intros ->; by rewrite Hfda in Hfreea).
  assert (a' <> b') as Hn2.
  { intros <-. by rewrite lookup_insert_eq in Hfreeb. }
  assert (b' <> fdb) as Hn3 by (intros ->; by rewrite Hfdb in Hfreeb).
  assert (b' <> fda) as Hn4.
  { intros ->. rewrite lookup_insert_ne in Hfreeb by done. by rewrite Hfda in Hfreeb. }
  split; [done|]. split; [done|]. split; [done|]. split; [done|].
  assert (<[b':=stb]> (<[a':=sta]> (fdtable (os σ))) !! fda = Some sta) as Hkeep.
  { by rewrite !lookup_insert_ne by done. }
  split; [by rewrite Hkeep|]. split; [rewrite Hkeep; by eexists|].
  split; [rewrite lookup_insert_ne by done; rewrite Hfdb; by eexists|].
  split.
  - rewrite Hkeep. rewrite lookup_insert_ne by done. apply lookup_insert_eq.
  - rewrite lookup_insert_eq. by rewrite lookup_insert_ne by done.
Qed.

Lemma SendFD_twice_in_order_witness :
  exists cha σ1 chb σ2,
    SendFD 5 example_world = Ret (cha, σ1) /\
    SendFD 5 σ1 = Ret (chb, σ2) /\
    sendFDs (w σ2) = sendFDs (w example_world) ++ [3; 4] /\
    errChs (w σ2) = errChs (w example_world) ++ [cha; chb] /\
    cha <> chb /\
    errHeap σ2 !! cha = Some fresh_chan /\ errHeap σ2 !! chb = Some fresh_chan /\
    3 <> 4 /\ 3 <> 5 /\ 4 <> 5 /\ 4 <> 5 /\
    fdtable (os σ2) !! 5 = fdtable (os example_world) !! 5 /\
    is_Some (fdtable (os σ2) !! 5) /\
    is_Some (fdtable (os σ2) !! 5) /\
    fdtable (os σ2) !! 3 = fdtable (os σ2) !! 5 /\
    fdtable (os σ2) !! 4 = fdtable (os σ2) !! 5.
Proof.
  apply (SendFD_twice_in_order 5 5 3 4 example_world); reflexivity.
Defined.

(** ** Arrivals *)

Lemma elem_of_waiters (m : gmap inodeKey (list nat)) key l ch :
  m !! key = Some l -> ch ∈ l -> ch ∈ waiters m.
Proof.
  intros Hk Hin. rewrite (waiters_delete m key l Hk). apply elem_of_app. by left.
Qed.


(** X8: Read handles the control data up to the first message that does
    not parse as a rights message and drops the rest: the descriptors of
    the messages after it are never examined, cached or closed.  With
    no control data, or control data that does not parse at all, it
    changes nothing.  In every case it returns what the socket read
    returned, the count replaced by zero when there is an error. *)
Theorem Read_stops_at_unparsable_message
    (n oobn : Z) (err : option error) (fdss : list (list Z)) (e : error)
    (rest : list (list Z + error)) (σ : World) :
  Read (mkDelivery n oobn (inl (map inl fdss ++ inr e :: rest)) err) σ
    = Read (mkDelivery n oobn (inl (map inl fdss)) err) σ /\
  Read (mkDelivery n oobn (inr e) err) σ
    = Ret (match err with Some e' => (0, Some e') | None => (n, None) end, σ) /\
  Read (mkDelivery n 0 (inl (map inl fdss ++ rest)) err) σ
    = Ret (match err with Some e' => (0, Some e') | None => (n, None) end, σ).
Proof.
  assert (forall s, Read_msgs (map inl fdss ++ inr e :: rest) s
                    = Read_msgs (map inl fdss) s) as Hmsgs.
  { induction fdss as [|fds fdss IH]; intros s; [done|].
    cbn [map app Read_msgs]. unfold bind.
    destruct (forM_ fds Read_fd s) as [[u s']| |]; [|done|done]. apply IH. }
  split; [|split].
  - unfold Read. cbn [rd_oobn rd_ctl rd_err rd_n].
    destruct (decide (oobn <> 0)); [|done].
    unfold bind. by rewrite Hmsgs.
  - unfold Read. cbn [rd_oobn rd_ctl rd_err rd_n]. unfold bind.
    by destruct (decide (oobn <> 0)).
  - unfold Read. cbn [rd_oobn rd_ctl rd_err rd_n]. unfold bind.
    by destruct (decide (0 <> 0)).
Qed.

(** X9: when one rights message carries two descriptors of the same
    file, not cached before, the first one is cached and kept open, and
    the second one is closed. *)
Theorem Read_same_file_twice_in_one_message
    (n oobn : Z) (err : option error) (fd1 fd2 : Z) (stat1 stat2 : Stat_t) (σ : World) :
  wf_recv σ ->
  oobn <> 0 ->
  fd1 <> fd2 ->
  Fstat (os σ) fd1 = inl stat1 ->
  Fstat (os σ) fd2 = inl stat2 ->
  uint64 (Dev stat2) = uint64 (Dev stat1) -> Ino stat2 = Ino stat1 ->
  recvedFDs (w σ) !! mkKey (uint64 (Dev stat1)) (Ino stat1) = None ->
  exists σ',
    Read (mkDelivery n oobn (inl [inl [fd1; fd2]]) err) σ
      = Ret (match err with Some e' => (0, Some e') | None => (n, None) end, σ') /\
    recvedFDs (w σ') !! mkKey (uint64 (Dev stat1)) (Ino stat1) = Some fd1 /\
    fdtable (os σ') !! fd1 = Some stat1 /\
    fdtable (os σ') !! fd2 = None /\
    recvFDChans (w σ') !! mkKey (uint64 (Dev stat1)) (Ino stat1) = None.
Proof.
  intros Hwf Hoob Hne Hstat1 Hstat2 Hdev Hino Hnone.
  destruct (Read_fd_new fd1 stat1 σ Hwf Hstat1 Hnone) as (σ1 & Hrun1 & Hpost).
  destruct Hpost as (Hcache & Hchans & _ & _ & _ & _ & Hos & _).
  assert (forall x st, fdtable (os σ) !! x = Some st -> fdtable (os σ1) !! x = Some st)
    as Hkeep.
  { intros x st Hx. rewrite Hos. by apply dups_keeps. }
  assert (fdtable (os σ) !! fd1 = Some stat1) as Hopen1.
  { unfold Fstat in Hstat1. by destruct (fdtable (os σ) !! fd1); simplify_eq. }
  assert (fdtable (os σ) !! fd2 = Some stat2) as Hopen2.
  { unfold Fstat in Hstat2. by destruct (fdtable (os σ) !! fd2); simplify_eq. }
  assert (Fstat (os σ1) fd2 = inl stat2) as Hstat2'.
  { unfold Fstat. by rewrite (Hkeep fd2 stat2 Hopen2). }
  assert (recvedFDs (w σ1) !! mkKey (uint64 (Dev stat2)) (Ino stat2) = Some fd1) as Hc.
  { rewrite Hdev, Hino, Hcache. apply lookup_insert_eq. }
  pose proof (Read_fd_cached fd2 stat2 fd1 σ1 Hstat2' Hc) as Hrun2.
  exists (set_os (fun o => sys_close o fd2) σ1). split.
  - unfold Read. cbn [rd_oobn rd_ctl rd_err rd_n]. rewrite decide_True by done.
    cbn [Read_msgs forM_]. unfold bind. rewrite Hrun1, Hrun2. done.
  - cbn [set_os w os sys_close fdtable].
    split; [rewrite Hcache; apply lookup_insert_eq|].
    split; [rewrite lookup_delete_ne by done; by apply Hkeep|].
    split; [apply lookup_delete_eq|].
    rewrite Hchans. apply lookup_delete_eq.
Qed.

Lemma wf_recv_example_twins : wf_recv example_twins.
Proof. apply wf_recv_set_os, wf_recv_example_two_waiters. Qed.

Lemma Read_same_file_twice_in_one_message_witness :
  exists σ',
    Read (mkDelivery 1 24 (inl [inl [5; 6]]) None) example_twins = Ret ((1, None), σ') /\
    recvedFDs (w σ') !! example_key = Some 5 /\
    fdtable (os σ') !! 5 = Some example_stat /\
    fdtable (os σ') !! 6 = None /\
    recvFDChans (w σ') !! example_key = None.
Proof.
  apply (Read_same_file_twice_in_one_message 1 24 None 5 6 example_stat example_stat
           example_twins).
  - apply wf_recv_example_twins.
  - lia.
  - lia.
  - reflexivity.
  - reflexivity.
  - reflexivity.
  - reflexivity.
  - reflexivity.
Defined.

(** X10: the arrival of a descriptor resolves the receivers waiting for
    its own identity only: the waiters and the cache entry of every
    other identity are as before, and the channels of those waiters are
    still open and empty. *)
Theorem Read_arrival_leaves_other_identities
    (fd : Z) (stat : Stat_t) (other : inodeKey) (σ : World) :
  wf_recv σ ->
  Fstat (os σ) fd = inl stat ->
  recvedFDs (w σ) !! mkKey (uint64 (Dev stat)) (Ino stat) = None ->
  other <> mkKey (uint64 (Dev stat)) (Ino stat) ->
  exists σ',
    Read_fd fd σ = Ret (tt, σ') /\
    recvFDChans (w σ') !! other = recvFDChans (w σ) !! other /\
    recvedFDs (w σ') !! other = recvedFDs (w σ) !! other /\
    forall chs ch, recvFDChans (w σ) !! other = Some chs -> ch ∈ chs ->
      fdHeap σ' !! ch = Some fresh_chan.
Proof.
  intros Hwf Hstat Hnone Hother.
  destruct (Read_fd_new fd stat σ Hwf Hstat Hnone) as (σ' & Hrun & Hpost).
  pose proof (arrival_wf_recv _ _ _ σ σ' Hwf eq_refl Hpost) as [_ Hfresh'].
  destruct Hpost as (Hcache & Hchans & _).
  exists σ'. split; [done|].
  split; [by rewrite Hchans, lookup_delete_ne|].
  split; [by rewrite Hcache, lookup_insert_ne|].
  intros chs ch Hk Hin. apply Hfresh'. rewrite Hchans.
  apply (elem_of_waiters _ other chs); [|done].
  by rewrite lookup_delete_ne.
Qed.

Lemma wf_recv_example_three_waiters : wf_recv example_three_waiters.
Proof.
  apply (RecvFD_wf_recv 7 7 example_two_waiters 2%nat example_three_waiters);
    [|reflexivity].
  apply wf_recv_example_two_waiters.
Qed.

Lemma Read_arrival_leaves_other_identities_witness :
  exists σ',
    Read_fd 5 example_three_waiters = Ret (tt, σ') /\
    recvFDChans (w σ') !! mkKey 7 7 = recvFDChans (w example_three_waiters) !! mkKey 7 7 /\
    recvedFDs (w σ') !! mkKey 7 7 = recvedFDs (w example_three_waiters) !! mkKey 7 7 /\
    forall chs ch, recvFDChans (w example_three_waiters) !! mkKey 7 7 = Some chs ->
      ch ∈ chs -> fdHeap σ' !! ch = Some fresh_chan.
Proof.
  apply (Read_arrival_leaves_other_identities 5 example_stat (mkKey 7 7)
           example_three_waiters).
  - apply wf_recv_example_three_waiters.
  - reflexivity.
  - reflexivity.
  - discriminate.
Defined.



(** A request followed by the arrival it waits for. *)
Lemma RecvFD_then_arrival fd stat σ :
  wf_recv σ ->
  Fstat (os σ) fd = inl stat ->
  recvedFDs (w σ) !! mkKey (uint64 (Dev stat)) (Ino stat) = None ->
  exists σa σ',
    RecvFD (uint64 (Dev stat)) (Ino stat) σ = Ret (length (fdHeap σ), σa) /\
    Read_fd fd σa = Ret (tt, σ') /\
    fdHeap σ' !! length (fdHeap σ)
      = Some (mkChan
                (delivered
                   (dups (os σ) fd
                      (length (default [] (recvFDChans (w σ)
                                             !! mkKey (uint64 (Dev stat)) (Ino stat)))))
                   fd) 1 true) /\
    recvedFDs (w σ') !! mkKey (uint64 (Dev stat)) (Ino stat) = Some fd.
Proof.
  intros Hwf Hstat Hnone.
  pose proof (RecvFD_spec (uint64 (Dev stat)) (Ino stat) σ) as HA1.
  cbn zeta in HA1. rewrite Hnone in HA1.
  match type of HA1 with _ = Ret (_, ?s) => set (σa := s) in * end.
  pose proof (RecvFD_wf_recv _ _ _ _ _ Hwf HA1) as Hwfa.
  destruct (Read_fd_new fd stat σa Hwfa Hstat Hnone) as (σ1 & HA2 & HpostA).
  assert (default [] (recvFDChans (w σa) !! mkKey (uint64 (Dev stat)) (Ino stat))
          = default [] (recvFDChans (w σ) !! mkKey (uint64 (Dev stat)) (Ino stat))
              ++ [length (fdHeap σ)]) as Hchsa.
  { cbn. by rewrite lookup_insert_eq. }
  rewrite Hchsa in HpostA.
  destruct HpostA as (HcA & _ & _ & _ & _ & _ & _ & HmineA & _).
  exists σa, σ1. split; [done|]. split; [done|].
  split; [apply (HmineA _ _ (lookup_snoc_new _ _))|].
  rewrite HcA. apply lookup_insert_eq.
Qed.

Section LocatorEndToEnd.
Variable escapeHost escapePath : string -> string.
Variable url_Parse : string -> URL + error.
Hypothesis escapeHost_digits : forall s, all_digits s = true -> escapeHost s = s.
Hypothesis escapePath_digits : forall s, all_digits s = true -> escapePath s = s.
Hypothesis url_Parse_locator : forall host path,
  valid_decimal_u64 host -> valid_decimal_u64 path ->
  url_Parse ("inode://" ++ host ++ "/" ++ path)%string
    = inl (mkURL "inode" host (String "/" path)).

(** The locator string of a file names the key under which [Read] files
    an arriving descriptor of that file. *)
Lemma locator_of_stat (o : OS) (sfd : Z) (stat : Stat_t) :
  0 <= Dev stat <= maxUint64 -> 0 <= Ino stat <= maxUint64 ->
  Fstat o sfd = inl stat ->
  exists u,
    FDToURL o sfd = inl u /\
    URLStringToDevIno url_Parse (URL_String escapeHost escapePath u)
      = inl (uint64 (Dev stat), Ino stat).
Proof.
  intros Hdev Hino Hstat.
  destruct (Sprintf_d_decimal (Dev stat) Hdev) as [Hvd Hdd].
  destruct (Sprintf_d_decimal (Ino stat) Hino) as [Hvi Hdi].
  exists (mkURL "inode" (Sprintf_d (Dev stat)) (Sprintf_d (Ino stat))).
  split; [by unfold FDToURL; rewrite Hstat|].
  assert (URL_String escapeHost escapePath
            (mkURL "inode" (Sprintf_d (Dev stat)) (Sprintf_d (Ino stat)))
          = ("inode://" ++ Sprintf_d (Dev stat) ++ "/" ++ Sprintf_d (Ino stat))%string)
    as ->.
  { destruct (valid_decimal_first_digit _ Hvd) as (c & s & Hc & Hcd).
    destruct (valid_decimal_first_digit _ Hvi) as (c' & s' & Hc' & Hcd').
    unfold URL_String. cbn [Scheme Host Path].
    rewrite escapePath_digits by apply Hvi.
    rewrite Hc. rewrite escapeHost_digits by (rewrite <- Hc; apply Hvd).
    rewrite Hc'.
    destruct c' as [[] [] [] [] [] [] [] []]; try done. }
  rewrite (URLStringToDevIno_roundtrip url_Parse url_Parse_locator) by done.
  unfold uint64. rewrite Z.mod_small; [done|]. unfold maxUint64 in Hdev. lia.
Qed.

(** X12: the locator a sender derives from its descriptor with FDToURL,
    printed and handed to RecvFDByURL on the receiving side, registers
    the receiver under exactly the identity under which Read files an
    arriving descriptor of the same file: the channel RecvFDByURL
    returned is resolved by that arrival, closed and holding the
    duplicate made for it if the duplication succeeded. *)
Theorem locator_request_is_resolved_by_arrival
    (sender : OS) (sfd fd : Z) (stat : Stat_t) (σ : World) :
  0 <= Dev stat <= maxUint64 -> 0 <= Ino stat <= maxUint64 ->
  Fstat sender sfd = inl stat ->
  wf_recv σ ->
  Fstat (os σ) fd = inl stat ->
  recvedFDs (w σ) !! mkKey (uint64 (Dev stat)) (Ino stat) = None ->
  let k := length (default [] (recvFDChans (w σ)
                                 !! mkKey (uint64 (Dev stat)) (Ino stat))) in
  exists u ch σa σ',
    FDToURL sender sfd = inl u /\
    RecvFDByURL url_Parse (URL_String escapeHost escapePath u) σ
      = Ret ((Some ch, None), σa) /\
    Read_fd fd σa = Ret (tt, σ') /\
    fdHeap σ' !! ch = Some (mkChan (delivered (dups (os σ) fd k) fd) 1 true) /\
    recvedFDs (w σ') !! mkKey (uint64 (Dev stat)) (Ino stat) = Some fd.
Proof.
  intros Hdev Hino Hsender Hwf Hstat Hnone k.
  destruct (locator_of_stat sender sfd stat Hdev Hino Hsender) as (u & Hu & Hloc).
  destruct (RecvFD_then_arrival fd stat σ Hwf Hstat Hnone)
    as (σa & σ' & Hreq & Harr & Hch & Hcache).
  exists u, (length (fdHeap σ)), σa, σ'. split; [done|].
  split; [|done].
  unfold RecvFDByURL. rewrite Hloc. unfold bind. by rewrite Hreq.
Qed.
End LocatorEndToEnd.

Lemma locator_request_is_resolved_by_arrival_witness :
  exists u ch σa σ',
    FDToURL example_os 5 = inl u /\
    RecvFDByURL example_url_Parse (URL_String id id u) example_two_waiters
      = Ret ((Some ch, None), σa) /\
    Read_fd 5 σa = Ret (tt, σ') /\
    fdHeap σ' !! ch
      = Some (mkChan (delivered (dups (os example_two_waiters) 5 2) 5) 1 true) /\
    recvedFDs (w σ') !! example_key = Some 5.
Proof.
  apply (locator_request_is_resolved_by_arrival id id example_url_Parse
           (fun s _ => eq_refl) (fun s _ => eq_refl) example_url_Parse_locator
           example_os 5 5 example_stat example_two_waiters).
  - unfold maxUint64. cbn. lia.
  - unfold maxUint64. cbn. lia.
  - reflexivity.
  - apply wf_recv_example_two_waiters.
  - reflexivity.
  - reflexivity.
Defined.

(** ** The relays *)

Lemma set_fdHeap_id σ : set_fdHeap (fdHeap σ) σ = σ.
Proof. by destruct σ. Qed.

(** The relay loop on a closed input holding [vs], with room for them in
    the output. *)
Lemma join_loop_closed {V} (vs : list V) : forall fuel inCh out (h : list (Chan V)) c bs n,
  inCh <> out ->
  h !! inCh = Some (mkChan vs c true) ->
  h !! out = Some (mkChan bs n false) ->
  (length bs + length vs <= n)%nat ->
  (length vs < fuel)%nat ->
  join_loop fuel inCh out h
    = Ret (<[out := mkChan (bs ++ vs) n true]> (<[inCh := mkChan [] c true]> h)).
Proof.
  induction vs as [|v vs IH]; intros fuel inCh out h c bs n Hne Hin Hout Hroom Hfuel;
    (destruct fuel as [|fuel]; [cbn in Hfuel; lia|]); cbn [join_loop].
  - unfold chan_recv. rewrite Hin. cbn [buf closed].
    unfold chan_close. rewrite Hout. cbn [closed buf cap].
    rewrite app_nil_r. by rewrite (list_insert_id h inCh) by done.
  - unfold chan_recv. rewrite Hin. cbn [buf closed cap].
    unfold chan_send. rewrite list_lookup_insert_ne by done. rewrite Hout.
    cbn [closed buf cap]. cbn [length] in Hroom, Hfuel.
    rewrite decide_True by lia.
    rewrite (IH fuel inCh out _ c (bs ++ [v]) n Hne).
    + rewrite (list_insert_insert_ne _ inCh out) by done.
      rewrite !list_insert_insert_eq. by rewrite <- app_assoc.
    + rewrite list_lookup_insert_ne by done.
      apply list_lookup_insert_eq. by eapply lookup_lt_Some.
    + apply list_lookup_insert_eq. rewrite length_insert. by eapply lookup_lt_Some.
    + rewrite length_app. cbn. lia.
    + lia.
Qed.

Lemma join_closed {V} (inCh out : nat) (h : list (Chan V)) vs bs c n :
  inCh <> out ->
  h !! inCh = Some (mkChan vs c true) ->
  h !! out = Some (mkChan bs n false) ->
  (length bs + length vs <= n)%nat ->
  join inCh out h
    = Ret (<[out := mkChan (bs ++ vs) n true]> (<[inCh := mkChan [] c true]> h)).
Proof.
  intros Hne Hin Hout Hroom. unfold join. rewrite Hin.
  cbn [fmap option_fmap option_map default buf].
  apply (join_loop_closed vs _ inCh out h c bs n); [done|done|done|done|].
  unfold id. lia.
Qed.

Lemma join_open {V} (inCh out : nat) (h : list (Chan V)) c :
  h !! inCh = Some (mkChan [] c false) -> join inCh out h = Blocks.
Proof.
  intros Hin. unfold join. rewrite Hin.
  cbn [fmap option_fmap option_map default buf length join_loop].
  unfold chan_recv. by rewrite Hin.
Qed.

(** X13: the relay loop shared by joinErrChs, joinFDChs, joinFileChs and
    the goroutine of SendFile.  On an input channel that is closed and
    holds values for which the output has room, it moves them to the
    output in order and closes the output, leaving the input drained
    and every other channel alone; more fuel changes nothing.  On an
    input that is open and empty it blocks, so the output is never
    closed before the input is. *)
Theorem join_relays_then_closes {V : Type}
    (inCh out : nat) (h : list (Chan V)) (vs bs : list V) (c n fuel : nat) :
  inCh <> out ->
  h !! out = Some (mkChan bs n false) ->
  (h !! inCh = Some (mkChan vs c true) ->
   (length bs + length vs <= n)%nat ->
   exists h',
     join inCh out h = Ret h' /\
     ((length vs < fuel)%nat -> join_loop fuel inCh out h = Ret h') /\
     h' !! out = Some (mkChan (bs ++ vs) n true) /\
     h' !! inCh = Some (mkChan [] c true) /\
     length h' = length h /\
     forall ch, ch <> inCh -> ch <> out -> h' !! ch = h !! ch) /\
  (h !! inCh = Some (mkChan [] c false) ->
   join inCh out h = Blocks /\ join_loop fuel inCh out h = Blocks).
Proof.
  intros Hne Hout. split.
  - intros Hin Hroom. eexists. split; [|split].
    + by apply join_closed.
    + intros Hfuel. by apply (join_loop_closed vs _ inCh out h c bs n).
    + split.
      { apply list_lookup_insert_eq. rewrite length_insert. by eapply lookup_lt_Some. }
      split.
      { rewrite list_lookup_insert_ne by done.
        apply list_lookup_insert_eq. by eapply lookup_lt_Some. }
      split; [by rewrite !length_insert|].
      intros ch H1 H2. by rewrite !list_lookup_insert_ne by done.
  - intros Hin. split; [by eapply join_open|].
    destruct fuel; [done|]. cbn [join_loop].
    unfold chan_recv. by rewrite Hin.
Qed.

Lemma join_relays_then_closes_witness :
  (exists h',
     join 0 1 [mkChan [ErrNet 3] 1 true; mkChan [] 1 false] = Ret h' /\
     h' !! 1%nat = Some (mkChan [ErrNet 3] 1 true) /\
     h' !! 0%nat = Some (mkChan [] 1 true)) /\
  join 0 1 [mkChan ([] : list error) 1 false; mkChan [] 1 false] = Blocks.
Proof.
  split.
  - destruct (join_relays_then_closes 0 1
                [mkChan [ErrNet 3] 1 true; mkChan [] 1 false] [ErrNet 3] [] 1 1 0)
      as [Hclosed _]; [lia|reflexivity|].
    destruct (Hclosed eq_refl) as (h' & Hrun & _ & Hout & Hin & _); [cbn; lia|].
    exists h'. split; [exact Hrun|]. split; [exact Hout|exact Hin].
  - destruct (join_relays_then_closes 0 1
                [mkChan ([] : list error) 1 false; mkChan [] 1 false] [] [] 1 1 0)
      as [_ Hopen]; [lia|reflexivity|].
    exact (proj1 (Hopen eq_refl)).
Defined.

(** The goroutine of [RecvFile] on a closed channel of descriptors. *)
Lemma FileRelay_loop_closed (vs : list Z) : forall fuel fdCh fileCh σ c bs n,
  fdHeap σ !! fdCh = Some (mkChan vs c true) ->
  fileHeap σ !! fileCh = Some (mkChan bs n false) ->
  (length bs + length vs <= n)%nat ->
  (length vs < fuel)%nat ->
  FileRelay_loop fuel fdCh fileCh σ
    = Ret (tt, set_fileHeap
                 (<[fileCh := mkChan (bs ++ (mkFile <$> vs)) n true]> (fileHeap σ))
                 (set_fdHeap (<[fdCh := mkChan [] c true]> (fdHeap σ)) σ)).
Proof.
  induction vs as [|v vs IH]; intros fuel fdCh fileCh σ c bs n Hin Hout Hroom Hfuel;
    (destruct fuel as [|fuel]; [cbn in Hfuel; lia|]); cbn [FileRelay_loop].
  - unfold bind, recv_fdCh, chan_recv. rewrite Hin. cbn [buf closed].
    unfold close_fileCh, lift_heap, chan_close. rewrite Hout. cbn [closed buf cap fmap].
    rewrite app_nil_r. rewrite (list_insert_id (fdHeap σ) fdCh) by done.
    by rewrite set_fdHeap_id.
  - unfold bind at 1. unfold recv_fdCh, chan_recv. rewrite Hin. cbn [buf closed cap].
    unfold bind at 1. unfold send_fileCh, lift_heap, chan_send.
    cbn [set_fdHeap fileHeap]. rewrite Hout. cbn [closed buf cap].
    cbn [length] in Hroom, Hfuel. rewrite decide_True by lia.
    rewrite (IH fuel fdCh fileCh _ c (bs ++ [mkFile v]) n).
    + cbn [set_fileHeap set_fdHeap fdHeap fileHeap os errHeap conn goroutines w].
      rewrite !list_insert_insert_eq. cbn [fmap list_fmap].
      by rewrite <- app_assoc.
    + cbn. apply list_lookup_insert_eq. by eapply lookup_lt_Some.
    + cbn. apply list_lookup_insert_eq. by eapply lookup_lt_Some.
    + rewrite length_app. cbn. lia.
    + lia.
Qed.

Lemma RecvFile_spec d i σ :
  RecvFile d i σ =
    match RecvFD d i (set_fileHeap (fileHeap σ ++ [fresh_chan]) σ) with
    | Ret (fdCh, σ') =>
        Ret (length (fileHeap σ),
             set_goroutines (goroutines σ' ++ [FileRelay fdCh (length (fileHeap σ))]) σ')
    | Panics p => Panics p
    | Blocks => Blocks
    end.
Proof.
  unfold RecvFile. unfold bind at 1. unfold make_fileCh, chan_make.
  unfold bind at 1.
  change (@mkChan File [] 1 false) with (@fresh_chan File).
  by destruct (RecvFD d i (set_fileHeap (fileHeap σ ++ [fresh_chan]) σ))
    as [[fdCh σ']| |].
Qed.

Lemma delivered_length o fd : (length (delivered o fd) <= 1)%nat.
Proof. unfold delivered. destruct (snd (F_DUPFD o fd)); cbn; lia. Qed.

(** X14: RecvFile for an identity whose descriptor is cached returns a
    new channel and starts one relay; run, the relay ends without
    blocking and leaves that channel closed, holding the file that wraps
    the fresh duplicate of the cached descriptor, or holding nothing
    when the duplication failed.  The cache and the waiters are
    untouched. *)
Theorem RecvFile_cached_delivers_file (device inode c : Z) (fuel : nat) (σ : World) :
  recvedFDs (w σ) !! mkKey device inode = Some c ->
  (2 <= fuel)%nat ->
  exists fileCh g σ1 σ2,
    RecvFile device inode σ = Ret (fileCh, σ1) /\
    fileHeap σ !! fileCh = None /\
    goroutines σ1 = goroutines σ ++ [g] /\
    run fuel g σ1 = Ret (tt, σ2) /\
    fileHeap σ2 !! fileCh = Some (mkChan (mkFile <$> delivered (os σ) c) 1 true) /\
    os σ2 = fst (F_DUPFD (os σ) c) /\
    w σ2 = w σ /\
    forall fd', delivered (os σ) c = [fd'] ->
      fdtable (os σ) !! fd' = None /\ fdtable (os σ2) !! fd' = fdtable (os σ) !! c.
Proof.
  intros Hc Hfuel.
  pose proof (RecvFile_spec device inode σ) as Hspec.
  rewrite RecvFD_spec in Hspec. cbn zeta in Hspec.
  cbn [set_fileHeap w] in Hspec. rewrite Hc in Hspec.
  cbn [fdHeap os errHeap fileHeap conn goroutines w set_goroutines] in Hspec.
  match type of Hspec with _ = Ret (_, ?s) => set (σ1 := s) in * end.
  pose proof (FileRelay_loop_closed (delivered (os σ) c) fuel (length (fdHeap σ))
                (length (fileHeap σ)) σ1 1%nat [] 1%nat) as Hrun.
  eexists (length (fileHeap σ)), _, σ1, _.
  split; [exact Hspec|].
  split; [apply lookup_ge_None_2; lia|].
  split; [reflexivity|].
  split.
  { cbn [run]. apply Hrun.
    - cbn. apply lookup_snoc_new.
    - cbn. apply lookup_snoc_new.
    - pose proof (delivered_length (os σ) c). cbn. lia.
    - pose proof (delivered_length (os σ) c). lia. }
  subst σ1. cbn [set_fileHeap set_fdHeap set_goroutines fileHeap os w].
  split; [apply list_lookup_insert_eq; rewrite length_app; cbn; lia|].
  split; [done|]. split; [done|].
  intros fd' Hd. unfold delivered in Hd.
  destruct (F_DUPFD (os σ) c) as [o' [x|e]] eqn:HF; cbn in Hd; [|done].
  injection Hd as ->.
  apply F_DUPFD_ok in HF as (st & Hfd & Hfree & ->). cbn.
  split; [done|]. by rewrite lookup_insert_eq.
Qed.

Lemma RecvFile_cached_delivers_file_witness :
  exists fileCh g σ1 σ2,
    RecvFile 2049 18446744073709551615 example_cached = Ret (fileCh, σ1) /\
    fileHeap example_cached !! fileCh = None /\
    goroutines σ1 = goroutines example_cached ++ [g] /\
    run 2 g σ1 = Ret (tt, σ2) /\
    fileHeap σ2 !! fileCh
      = Some (mkChan (mkFile <$> delivered (os example_cached) 5) 1 true) /\
    os σ2 = fst (F_DUPFD (os example_cached) 5) /\
    w σ2 = w example_cached /\
    forall fd', delivered (os example_cached) 5 = [fd'] ->
      fdtable (os example_cached) !! fd' = None /\
      fdtable (os σ2) !! fd' = fdtable (os example_cached) !! 5.
Proof.
  apply (RecvFile_cached_delivers_file 2049 18446744073709551615 5 2 example_cached).
  - reflexivity.
  - lia.
Defined.



(** ** [SendFile] *)

Lemma wf_send_more_chans σ c :
  wf_send σ -> wf_send (set_errHeap (errHeap σ ++ [c]) σ).
Proof.
  intros (Hlen & Hnd & Hfresh). split; [done|]. split; [done|].
  intros ch Hin. cbn. rewrite lookup_app_l; [by apply Hfresh|].
  eapply lookup_lt_Some. by apply Hfresh.
Qed.

(** [SendFile] on a file whose descriptor can be reached and examined:
    a new result channel, then [SendFD], whose channel the relay will
    read. *)
Lemma SendFile_reaches_SendFD Wrapf file fd st σ :
  sc_err file = None -> sc_fd file = Some fd -> sc_ctl_err file = None ->
  Fstat (os σ) fd = inl st ->
  SendFile Wrapf file σ =
    match SendFD fd (set_errHeap (errHeap σ ++ [fresh_chan]) σ) with
    | Ret (errChIn, σ') =>
        Ret ((length (errHeap σ), Some (errChIn, length (errHeap σ))), σ')
    | Panics p => Panics p
    | Blocks => Blocks
    end.
Proof.
  intros Hsc Hfd Hctl Hstat. unfold SendFile. rewrite Hsc, Hfd, Hctl.
  unfold bind at 1. unfold make_errCh, chan_make.
  change (@mkChan error [] 1 false) with (@fresh_chan error).
  unfold bind at 1. unfold bind at 1. unfold syscall_Fstat. cbn [gets set_errHeap os].
  rewrite Hstat. unfold bind at 1.
  by destruct (SendFD fd _) as [[errChIn σ']| |].
Qed.

(** X16: SendFile on a file whose descriptor can be reached behaves as
    SendFD on that descriptor behind a relay.  On an empty queue the
    duplicate of the file's descriptor is queued and the relay blocks
    until the next Write; that Write sends the duplicate as the rights
    of one message and closes it, and the relay, run afterwards, leaves
    the channel SendFile returned closed, holding the error of that
    message if it had one. *)
Theorem SendFile_then_Write_reports
    (Wrapf : error -> SyscallConn -> error) (net : NetConn) (file : SyscallConn)
    (fd fd' : Z) (bi : byte) (b : list byte) (σ : World) :
  wf_send σ ->
  sendFDs (w σ) = [] ->
  sc_err file = None -> sc_fd file = Some fd -> sc_ctl_err file = None ->
  snd (F_DUPFD (os σ) fd) = inl fd' ->
  exists errCh errChIn σ1 r σ2 h,
    SendFile Wrapf file σ = Ret ((errCh, Some (errChIn, errCh)), σ1) /\
    errHeap σ !! errCh = None /\
    sendFDs (w σ1) = [fd'] /\
    errHeap σ1 !! errCh = Some fresh_chan /\
    join errChIn errCh (errHeap σ1) = Blocks /\
    Write net (bi :: b) σ1 = Ret (r, σ2) /\
    conn σ2 = conn_after (conn σ) [MsgUnix [bi] [fd']; MsgData b] /\
    join errChIn errCh (errHeap σ2) = Ret h /\
    h !! errCh
      = Some (mkChan (option_list (WriteMsgUnix_err net (conn σ) [bi] [fd'])) 1 true) /\
    fdtable (os σ2) = fdtable (os σ).
Proof.
  intros Hwf Hnil Hsc Hfd Hctl Hdup.
  destruct (F_DUPFD (os σ) fd) as [o1 r0] eqn:HF. cbn in Hdup. subst r0.
  pose proof (F_DUPFD_ok _ _ _ _ HF) as (st & Hopen & Hfree & Ho1).
  assert (Fstat (os σ) fd = inl st) as Hstat by (unfold Fstat; by rewrite Hopen).
  set (σ0 := set_errHeap (errHeap σ ++ [fresh_chan]) σ).
  pose proof (wf_send_more_chans σ fresh_chan Hwf) as Hwf0. fold σ0 in Hwf0.
  pose proof (SendFile_reaches_SendFD Wrapf file fd st σ Hsc Hfd Hctl Hstat) as Hrun.
  fold σ0 in Hrun.
  pose proof (SendFD_spec fd σ0) as Hspec. cbn zeta in Hspec.
  change (os σ0) with (os σ) in Hspec. rewrite HF in Hspec.
  rewrite Hspec in Hrun.
  match type of Hspec with _ = Ret (?c, ?s) => set (inner := c) in *; set (σ1 := s) in * end.
  set (errCh := length (errHeap σ)) in *.
  assert (inner = S errCh) as Hinner.
  { unfold inner, σ0. cbn. rewrite length_app. cbn. unfold errCh. lia. }
  pose proof (SendFD_wf_send fd σ0 inner σ1 Hwf0 Hspec) as Hwf1.
  assert (sendFDs (w σ1) = [fd']) as Hq1 by (cbn; by rewrite Hnil).
  assert (errChs (w σ1) = [inner]) as Hc1.
  { destruct Hwf as (Hlen & _). rewrite Hnil in Hlen.
    cbn. destruct (errChs (w σ)); [done|cbn in Hlen; lia]. }
  assert (errHeap σ1 = errHeap σ ++ [fresh_chan; fresh_chan]) as Hheap1.
  { cbn. by rewrite <- app_assoc. }
  assert (errHeap σ1 !! errCh = Some fresh_chan) as Hout1.
  { rewrite Hheap1. unfold errCh. by rewrite lookup_app_r, Nat.sub_diag by lia. }
  assert (errHeap σ1 !! inner = Some fresh_chan) as Hin1.
  { rewrite Hheap1, Hinner. unfold errCh.
    rewrite lookup_app_r by lia. by replace (S _ - _)%nat with 1%nat by lia. }
  assert (Nat.min (length (sendFDs (w σ1))) maxFDCount <= length (bi :: b))%nat as Hb.
  { rewrite Hq1. cbn. lia. }
  destruct (Write_ok net (bi :: b) σ1 Hwf1 Hb) as (r & σ2 & HW & Hpost).
  destruct (Write_frame net (bi :: b) σ1 Hwf1 Hb) as (r' & σ2' & HW' & Hos & _).
  rewrite HW in HW'. injection HW' as <- <-.
  destruct Hpost as (Hq & _ & _ & _ & Hconn & _ & _ & _ & _ & Hmine & Hother & _).
  rewrite Hq1, Hc1 in *. cbn [length Nat.min maxFDCount take drop] in *.
  pose proof (Hmine 0%nat inner fd' bi eq_refl eq_refl eq_refl) as Hin2.
  unfold drain_msgs in Hin2. cbn [take zip_with] in Hin2.
  rewrite conn_after_nil in Hin2. change (conn σ1) with (conn σ) in Hin2.
  assert (errHeap σ2 !! errCh = Some fresh_chan) as Hout2.
  { rewrite Hother; [done|]. intros Hin. apply list_elem_of_singleton in Hin. lia. }
  assert (inner <> errCh) as Hne by lia.
  pose proof (join_open inner errCh (errHeap σ1) 1 Hin1) as Hblocks.
  pose proof (join_closed inner errCh (errHeap σ2) _ [] 1 1 Hne Hin2 Hout2) as Hjoin.
  eexists errCh, inner, σ1, r, σ2, _.
  split; [done|]. split; [apply lookup_ge_None_2; unfold errCh; lia|].
  split; [done|]. split; [done|]. split; [done|].
  split; [done|].
  split; [rewrite Hconn; unfold drain_msgs; by destruct b|].
  split.
  { apply Hjoin. destruct (WriteMsgUnix_err net (conn σ) [bi] [fd']); cbn; lia. }
  split.
  { apply list_lookup_insert_eq. rewrite length_insert. by eapply lookup_lt_Some. }
  rewrite Hos. cbn [foldl sys_close fdtable σ1 os]. rewrite Ho1. cbn [fdtable].
  by apply delete_insert_id.
Qed.

Lemma SendFile_then_Write_reports_witness :
  exists errCh errChIn σ1 r σ2 h,
    SendFile (fun e _ => e) (mkSyscallConn None (Some 5) None) example_world
      = Ret ((errCh, Some (errChIn, errCh)), σ1) /\
    errHeap example_world !! errCh = None /\
    sendFDs (w σ1) = [3] /\
    errHeap σ1 !! errCh = Some fresh_chan /\
    join errChIn errCh (errHeap σ1) = Blocks /\
    Write example_net ["a"; "b"]%byte σ1 = Ret (r, σ2) /\
    conn σ2 = conn_after (conn example_world) [MsgUnix ["a"%byte] [3]; MsgData ["b"%byte]] /\
    join errChIn errCh (errHeap σ2) = Ret h /\
    h !! errCh = Some (mkChan [] 1 true) /\
    fdtable (os σ2) = fdtable (os example_world).
Proof.
  apply (SendFile_then_Write_reports (fun e _ => e) example_net
           (mkSyscallConn None (Some 5) None) 5 3 "a"%byte ["b"%byte] example_world).
  - apply wf_send_example_world.
  - reflexivity.
  - reflexivity.
  - reflexivity.
  - reflexivity.
  - reflexivity.
Defined.

(** An error reported on a channel just made. *)
Lemma report_on_fresh (e : error) σ :
  (let* _ := send_errCh (length (errHeap σ)) e in
   let* _ := close_errCh (length (errHeap σ)) in ret tt)
    (set_errHeap (errHeap σ ++ [fresh_chan]) σ)
  = Ret (tt, set_errHeap (errHeap σ ++ [mkChan [e] 1 true]) σ).
Proof.
  unfold bind, send_errCh, close_errCh, lift_heap. cbn [set_errHeap errHeap].
  rewrite (chan_send_fresh _ _ _ (lookup_snoc_new (errHeap σ) fresh_chan)).
  cbn [set_errHeap errHeap].
  erewrite chan_close_open.
  2:{ apply list_lookup_insert_eq. rewrite length_app. cbn. lia. }
  cbn [set_errHeap errHeap os fdHeap fileHeap conn goroutines w].
  rewrite list_insert_insert_eq. by rewrite insert_snoc_new.
Qed.

Lemma SendFile_no_raw Wrapf file e σ :
  sc_err file = Some e ->
  SendFile Wrapf file σ
    = Ret ((length (errHeap σ), None),
           set_errHeap (errHeap σ ++ [mkChan [Wrapf e file] 1 true]) σ).
Proof.
  intros Hsc. unfold SendFile. rewrite Hsc.
  unfold bind at 1. unfold make_errCh, chan_make.
  change (@mkChan error [] 1 false) with (@fresh_chan error).
  pose proof (report_on_fresh (Wrapf e file) σ) as Hfail. unfold bind in *.
  destruct (send_errCh (length (errHeap σ)) (Wrapf e file) _) as [[u s1]| |];
    [|done|done].
  destruct (close_errCh (length (errHeap σ)) s1) as [[u' s2]| |]; [|done|done].
  by injection Hfail as ->.
Qed.

Lemma SendFile_no_stat Wrapf file fd e σ :
  sc_err file = None -> sc_fd file = Some fd -> Fstat (os σ) fd = inr e ->
  SendFile Wrapf file σ
    = match sc_ctl_err file with
      | None => Ret ((length (errHeap σ), None),
                     set_errHeap (errHeap σ ++ [mkChan [e] 1 true]) σ)
      | Some _ => Panics SendOnClosedChannel
      end.
Proof.
  intros Hsc Hfd Hstat. unfold SendFile. rewrite Hsc, Hfd.
  unfold bind at 1. unfold make_errCh, chan_make.
  change (@mkChan error [] 1 false) with (@fresh_chan error).
  unfold bind at 1. unfold bind at 1.
  unfold syscall_Fstat. cbn [gets set_errHeap os]. rewrite Hstat.
  pose proof (report_on_fresh e σ) as Hfail. unfold bind in *.
  destruct (send_errCh (length (errHeap σ)) e _) as [[u s1]| |]; [|done|done].
  destruct (close_errCh (length (errHeap σ)) s1) as [[u' s2]| |]; [|done|done].
  injection Hfail as ->. cbn [ret].
  destruct (sc_ctl_err file) as [e'|]; [|done].
  unfold send_errCh, lift_heap, chan_send. cbn [set_errHeap errHeap].
  by rewrite lookup_snoc_new.
Qed.

Lemma SendFile_not_invoked Wrapf file σ :
  sc_err file = None -> sc_fd file = None ->
  SendFile Wrapf file σ
    = match sc_ctl_err file with
      | None => Ret ((length (errHeap σ), None),
                     set_errHeap (errHeap σ ++ [fresh_chan]) σ)
      | Some e => Ret ((length (errHeap σ), None),
                       set_errHeap (errHeap σ ++ [mkChan [e] 1 true]) σ)
      end.
Proof.
  intros Hsc Hfd. unfold SendFile. rewrite Hsc, Hfd.
  unfold bind at 1. unfold make_errCh, chan_make.
  change (@mkChan error [] 1 false) with (@fresh_chan error).
  unfold bind at 1. unfold bind at 1. cbn [ret].
  destruct (sc_ctl_err file) as [e|]; [|done].
  pose proof (report_on_fresh e σ) as Hfail. unfold bind in *.
  destruct (send_errCh (length (errHeap σ)) e _) as [[u s1]| |]; [|done|done].
  destruct (close_errCh (length (errHeap σ)) s1) as [[u' s2]| |]; [|done|done].
  by injection Hfail as ->.
Qed.

(** X17: the failures of SendFile.  When the file gives no raw
    connection, or its descriptor cannot be examined, the channel
    SendFile returns is closed at once and holds that one error;
    nothing is duplicated or queued and no relay is started.  When the
    descriptor can be examined but not duplicated, nothing is queued and
    the relay, run, leaves the returned channel closed, holding the
    error of the duplication.  When the callback has failed on the
    descriptor and the control call reports an error as well, SendFile
    panics on sending to the channel it has already closed. *)
Theorem SendFile_failures
    (Wrapf : error -> SyscallConn -> error) (file : SyscallConn) (σ : World) :
  let errCh := length (errHeap σ) in
  (forall e, sc_err file = Some e ->
     SendFile Wrapf file σ
       = Ret ((errCh, None),
              set_errHeap (errHeap σ ++ [mkChan [Wrapf e file] 1 true]) σ)) /\
  (forall fd e, sc_err file = None -> sc_fd file = Some fd ->
     Fstat (os σ) fd = inr e ->
     (sc_ctl_err file = None ->
      SendFile Wrapf file σ
        = Ret ((errCh, None), set_errHeap (errHeap σ ++ [mkChan [e] 1 true]) σ)) /\
     (forall e', sc_ctl_err file = Some e' ->
        SendFile Wrapf file σ = Panics SendOnClosedChannel)) /\
  (forall fd st errno, sc_err file = None -> sc_fd file = Some fd ->
     sc_ctl_err file = None ->
     Fstat (os σ) fd = inl st ->
     snd (F_DUPFD (os σ) fd) = inr errno ->
     exists errChIn σ1 h,
       SendFile Wrapf file σ = Ret ((errCh, Some (errChIn, errCh)), σ1) /\
       w σ1 = w σ /\ os σ1 = os σ /\
       join errChIn errCh (errHeap σ1) = Ret h /\
       h !! errCh = Some (mkChan [ErrErrno errno] 1 true)).
Proof.
  intros errCh. split; [|split].
  - intros e Hsc. by apply SendFile_no_raw.
  - intros fd e Hsc Hfd Hstat.
    pose proof (SendFile_no_stat Wrapf file fd e σ Hsc Hfd Hstat) as Hrun.
    split.
    + intros Hctl. by rewrite Hctl in Hrun.
    + intros e' Hctl. by rewrite Hctl in Hrun.
  - intros fd st errno Hsc Hfd Hctl Hstat Hdup.
    destruct (F_DUPFD (os σ) fd) as [o1 r0] eqn:HF. cbn in Hdup. subst r0.
    pose proof (F_DUPFD_fail _ _ _ _ HF) as ->.
    pose proof (SendFile_reaches_SendFD Wrapf file fd st σ Hsc Hfd Hctl Hstat) as Hrun.
    rewrite SendFD_spec in Hrun. cbn zeta in Hrun.
    cbn [set_errHeap os errHeap fdHeap fileHeap conn goroutines w] in Hrun.
    rewrite HF in Hrun. fold errCh in Hrun.
    match type of Hrun with _ = Ret ((_, Some (?c, _)), ?s) =>
      set (inner := c) in *; set (σ1 := s) in * end.
    assert (inner = S errCh) as Hinner.
    { unfold inner. rewrite length_app. cbn. unfold errCh. lia. }
    assert (errHeap σ1 = errHeap σ ++ [fresh_chan; mkChan [ErrErrno errno] 1 true])
      as Hheap1 by (cbn; by rewrite <- app_assoc).
    assert (errHeap σ1 !! errCh = Some fresh_chan) as Hout1.
    { rewrite Hheap1. unfold errCh. by rewrite lookup_app_r, Nat.sub_diag by lia. }
    assert (errHeap σ1 !! inner = Some (mkChan [ErrErrno errno] 1 true)) as Hin1.
    { rewrite Hheap1, Hinner. unfold errCh.
      rewrite lookup_app_r by lia. by replace (S _ - _)%nat with 1%nat by lia. }
    assert (inner <> errCh) as Hne by lia.
    pose proof (join_closed inner errCh (errHeap σ1) _ [] 1 1 Hne Hin1 Hout1) as Hjoin.
    eexists inner, σ1, _. split; [done|]. split; [done|]. split; [done|].
    split; [apply Hjoin; cbn; lia|].
    apply list_lookup_insert_eq. rewrite length_insert. by eapply lookup_lt_Some.
Qed.

Lemma SendFile_failures_witness :
  SendFile (fun e _ => e) (mkSyscallConn None (Some 9) None) example_world
    = Ret ((0%nat, None),
           set_errHeap [mkChan [ErrErrno EBADF] 1 true] example_world) /\
  SendFile (fun e _ => e) (mkSyscallConn None (Some 9) (Some (ErrNet 1))) example_world
    = Panics SendOnClosedChannel.
Proof.
  destruct (SendFile_failures (fun e _ => e) (mkSyscallConn None (Some 9) None)
              example_world) as (_ & H1 & _).
  destruct (SendFile_failures (fun e _ => e)
              (mkSyscallConn None (Some 9) (Some (ErrNet 1))) example_world)
    as (_ & H2 & _).
  split.
  - exact (proj1 (H1 9 (ErrErrno EBADF) eq_refl eq_refl eq_refl) eq_refl).
  - exact (proj2 (H2 9 (ErrErrno EBADF) eq_refl eq_refl eq_refl) (ErrNet 1) eq_refl).
Defined.

(** ** Combined credentials and call options *)

Section CombinedProps.
Context {St L Opt : Type}.
Variable leaf_get :
  L -> PerRPC.Context -> list string -> St -> (gmap string string * option error) * St.
Variable leaf_sec : L -> bool.


(** The loop over a list in two parts. *)
Lemma GetRequestMetadata_loop_app
    (get : Combined.Creds L -> St -> (gmap string string * option error) * St) cs1 :
  forall cs2 acc s,
  Combined.GetRequestMetadata_loop get (cs1 ++ cs2) acc s =
    let r := Combined.GetRequestMetadata_loop get cs1 acc s in
    match snd (fst r) with
    | Some err => r
    | None => Combined.GetRequestMetadata_loop get cs2 (fst (fst r)) (snd r)
    end.
Proof.
  induction cs1 as [|c cs1 IH]; intros cs2 acc s; [done|].
  cbn [app Combined.GetRequestMetadata_loop]. cbn zeta.
  destruct (get c s) as [[m [e|]] s']; cbn [fst snd]; [done|]. apply IH.
Qed.

(** X18: the metadata of combined credentials.  The members are asked
    in order, each on the state the one before left; the result for a
    list with one more member at its end is the result for the list,
    overridden key by key by what the new member returns, so of two
    members that give the same key the later one wins; an error of a
    member is returned with no metadata.  The combination requires
    transport security exactly when a member does. *)
Theorem cobmined_GetRequestMetadata_later_overrides
    (cs : list (Combined.Creds L)) (c : Combined.Creds L)
    (ctx : PerRPC.Context) (uri : list string) (s : St) :
  Combined.GetRequestMetadata leaf_get (Combined.Cobmined []) ctx uri s = ((∅, None), s) /\
  Combined.GetRequestMetadata leaf_get (Combined.Cobmined (cs ++ [c])) ctx uri s =
    (let r := Combined.GetRequestMetadata leaf_get (Combined.Cobmined cs) ctx uri s in
     match snd (fst r) with
     | Some err => ((∅, Some err), snd r)
     | None =>
         let r' := Combined.GetRequestMetadata leaf_get c ctx uri (snd r) in
         match snd (fst r') with
         | Some err => ((∅, Some err), snd r')
         | None => ((fst (fst r') ∪ fst (fst r), None), snd r')
         end
     end) /\
  (Combined.RequireTransportSecurity leaf_sec (Combined.Cobmined cs) = true <->
   exists c', c' ∈ cs /\ Combined.RequireTransportSecurity leaf_sec c' = true).
Proof.
  split; [done|]. split.
  - cbn [Combined.GetRequestMetadata]. rewrite GetRequestMetadata_loop_app. cbn zeta.
    set (get := fun creds => Combined.GetRequestMetadata leaf_get creds ctx uri).
    assert (forall l acc s0,
              snd (fst (Combined.GetRequestMetadata_loop get l acc s0)) <> None ->
              Combined.GetRequestMetadata_loop get l acc s0
              = ((∅, snd (fst (Combined.GetRequestMetadata_loop get l acc s0))),
                 snd (Combined.GetRequestMetadata_loop get l acc s0))) as Herr.
    { induction l as [|x l IH]; intros acc s0; [done|].
      cbn [Combined.GetRequestMetadata_loop]. cbn zeta.
      destruct (get x s0) as [[m [e|]] s']; cbn [fst snd]; [done|]. apply IH. }
    destruct (Combined.GetRequestMetadata_loop get cs ∅ s) as [[m [e|]] s1] eqn:Hcs;
      cbn [fst snd].
    + specialize (Herr cs ∅ s). rewrite Hcs in Herr. cbn in Herr. by apply Herr.
    + cbn [Combined.GetRequestMetadata_loop]. cbn zeta. fold (get c s1).
      by destruct (get c s1) as [[m' [e'|]] s2].
  - cbn [Combined.RequireTransportSecurity].
    induction cs as [|x cs IH].
    + split; [done|]. intros (c' & Hin & _). by apply elem_of_nil in Hin.
    + destruct (Combined.RequireTransportSecurity leaf_sec x) eqn:Hx.
      * split; [|done]. intros _. exists x. split; [left|done].
      * rewrite IH. split.
        -- intros (c' & Hin & Hc'). exists c'. split; [by right|done].
        -- intros (c' & Hin & Hc'). apply elem_of_cons in Hin as [->|Hin].
           ++ congruence.
           ++ by exists c'.
Qed.

(** X19: the first member of a combination that fails ends the
    retrieval: the error is returned with no metadata, the members after
    it are not asked, and the state is the one the failing member
    left. *)
Theorem cobmined_GetRequestMetadata_first_error_aborts
    (cs1 cs2 : list (Combined.Creds L)) (c : Combined.Creds L)
    (ctx : PerRPC.Context) (uri : list string) (s s1 s2 : St)
    (m1 m : gmap string string) (e : error) :
  Combined.GetRequestMetadata leaf_get (Combined.Cobmined cs1) ctx uri s
    = ((m1, None), s1) ->
  Combined.GetRequestMetadata leaf_get c ctx uri s1 = ((m, Some e), s2) ->
  Combined.GetRequestMetadata leaf_get (Combined.Cobmined (cs1 ++ c :: cs2)) ctx uri s
    = ((∅, Some e), s2).
Proof.
  intros H1 Hc. cbn [Combined.GetRequestMetadata] in *.
  rewrite GetRequestMetadata_loop_app. cbn zeta. rewrite H1. cbn [fst snd].
  cbn [Combined.GetRequestMetadata_loop]. cbn zeta. by rewrite Hc.
Qed.

Lemma merge_loop_spec (opts : list (Combined.CallOption L Opt)) : forall res comb,
  Combined.merge_loop opts res comb
    = (res ++ Combined.other_options opts,
       comb ++ Combined.credentials_of opts).
Proof.
  induction opts as [|[c|o] opts IH]; intros res comb.
  - cbn. by rewrite !app_nil_r.
  - cbn [Combined.merge_loop]. rewrite IH.
    unfold Combined.other_options, Combined.credentials_of. cbn [omap list_omap].
    by rewrite <- app_assoc.
  - cbn [Combined.merge_loop]. rewrite IH.
    unfold Combined.other_options, Combined.credentials_of. cbn [omap list_omap].
    by rewrite <- app_assoc.
Qed.

Lemma FromCallOptions_loop_spec (l1 : list (Combined.CallOption L Opt)) : forall l2,
  Combined.FromCallOptions_loop (length l1) (l1 ++ l2)
    = last (Combined.credentials_of l1).
Proof.
  induction l1 as [|x l1 IH] using rev_ind; intros l2; [done|].
  rewrite length_app. cbn [length]. rewrite Nat.add_1_r.
  cbn [Combined.FromCallOptions_loop].
  rewrite <- app_assoc. cbn [app].
  rewrite list_lookup_middle by done.
  unfold Combined.credentials_of. rewrite omap_app. cbn [omap list_omap].
  destruct x as [c|o].
  - by rewrite last_snoc.
  - rewrite app_nil_r. apply IH.
Qed.

(** X20: the call options after the merge are the options that carry no
    credentials, in their order, followed by one new option that
    carries the combination of all the credentials of the call, in
    their order (the empty combination when there are none).
    PerRPCCredentialsFromCallOptions returns the credentials of the
    last option that carries some, nil when no option does; so it finds
    the combination of all of them after the merge, and only the last
    of them before it. *)
Theorem merge_keeps_all_credentials (opts : list (Combined.CallOption L Opt)) :
  Combined.mergePerCredentialsCallOptions opts
    = Combined.other_options opts
        ++ [Combined.PerRPCCredsCallOption
              (Combined.Cobmined (Combined.credentials_of opts))] /\
  Combined.PerRPCCredentialsFromCallOptions (Combined.mergePerCredentialsCallOptions opts)
    = Some (Combined.Cobmined (Combined.credentials_of opts)) /\
  Combined.PerRPCCredentialsFromCallOptions opts = last (Combined.credentials_of opts) /\
  Combined.credentials_of (Combined.mergePerCredentialsCallOptions opts)
    = [Combined.Cobmined (Combined.credentials_of opts)].
Proof.
  assert (Combined.mergePerCredentialsCallOptions opts
          = Combined.other_options opts
              ++ [Combined.PerRPCCredsCallOption
                    (Combined.Cobmined (Combined.credentials_of opts))]) as Hm.
  { unfold Combined.mergePerCredentialsCallOptions. by rewrite merge_loop_spec. }
  assert (forall l : list (Combined.CallOption L Opt),
            Combined.PerRPCCredentialsFromCallOptions l
            = last (Combined.credentials_of l)) as Hfrom.
  { intros l. unfold Combined.PerRPCCredentialsFromCallOptions.
    rewrite <- (app_nil_r l) at 2. apply FromCallOptions_loop_spec. }
  assert (forall l : list (Combined.CallOption L Opt),
            Combined.credentials_of (Combined.other_options l) = []) as Hno.
  { unfold Combined.credentials_of, Combined.other_options.
    induction l as [|[c|o] l IH]; [done|exact IH|exact IH]. }
  assert (Combined.credentials_of (Combined.mergePerCredentialsCallOptions opts)
          = [Combined.Cobmined (Combined.credentials_of opts)]) as Hc.
  { rewrite Hm. unfold Combined.credentials_of at 1. rewrite omap_app.
    fold (Combined.credentials_of (Combined.other_options opts)).
    by rewrite Hno. }
  split; [done|]. split; [by rewrite Hfrom, Hc|]. split; [apply Hfrom|done].
Qed.
End CombinedProps.

Lemma cobmined_GetRequestMetadata_first_error_aborts_witness :
  Combined.GetRequestMetadata Combined.adapter_or_plain
    (Combined.Cobmined
       ([] ++ Combined.Leaf (inl (PerRPC.mkCredentials
                                    (fun _ _ => (∅, Some (ErrNet 1))) false))
           :: [Combined.Leaf (inr tt)]))
    PerRPC.example_ctx [] PerRPC.example_deferred
  = ((∅, Some (ErrNet 1)), PerRPC.example_deferred).
Proof.
  apply (cobmined_GetRequestMetadata_first_error_aborts Combined.adapter_or_plain
           [] [Combined.Leaf (inr tt)]
           (Combined.Leaf (inl (PerRPC.mkCredentials
                                  (fun _ _ => (∅, Some (ErrNet 1))) false)))
           PerRPC.example_ctx [] PerRPC.example_deferred PerRPC.example_deferred
           PerRPC.example_deferred ∅ ∅ (ErrNet 1)).
  - reflexivity.
  - reflexivity.
Defined.

(** ** The per-call adapter, all operations *)

Lemma imap_imap {A B C} (f : nat -> B -> C) (g : nat -> A -> B) (l : list A) :
  imap f (imap g l) = imap (fun i x => f i (g i x)) l.
Proof. apply list_eq; intros i. rewrite !list_lookup_imap. by destruct (l !! i). Qed.

Lemma PerRPC_method_unresolved op σ :
  PerRPC.FDTransceiver (PerRPC.cred σ) = None ->
  PerRPC_method op σ
    = (PerRPC.nchans σ,
       PerRPC.mkWorld (S (PerRPC.nchans σ)) (PerRPC.calls σ) (PerRPC.joins σ)
         (PerRPC.mkWrap (PerRPC.PerRPCCredentials (PerRPC.cred σ)) None
            (PerRPC.transceiverFuncs (PerRPC.cred σ)
               ++ [PerRPC.mkDeferred op (PerRPC.nchans σ)]))).
Proof.
  intros Hnone.
  destruct op; cbn [PerRPC_method];
    unfold PerRPC.SendFD, PerRPC.SendFile, PerRPC.RecvFD, PerRPC.RecvFile,
      PerRPC.make_chan, PerRPC.submit;
    cbn [PerRPC.cred]; rewrite Hnone; done.
Qed.

Lemma PerRPC_methods_unresolved ops : forall σ,
  PerRPC.FDTransceiver (PerRPC.cred σ) = None ->
  PerRPC_methods ops σ
    = (seq (PerRPC.nchans σ) (length ops),
       PerRPC.mkWorld (PerRPC.nchans σ + length ops) (PerRPC.calls σ) (PerRPC.joins σ)
         (PerRPC.mkWrap (PerRPC.PerRPCCredentials (PerRPC.cred σ)) None
            (PerRPC.transceiverFuncs (PerRPC.cred σ)
               ++ imap (fun i op => PerRPC.mkDeferred op (PerRPC.nchans σ + i)) ops))).
Proof.
  induction ops as [|op ops IH]; intros σ Hnone.
  - cbn. rewrite Nat.add_0_r, app_nil_r. destruct σ as [n c j [p f t]].
    cbn in *. by subst.
  - cbn [PerRPC_methods]. rewrite (PerRPC_method_unresolved op σ Hnone).
    cbn [fst snd]. rewrite IH by done.
    cbn [fst snd PerRPC.nchans PerRPC.calls PerRPC.joins PerRPC.cred
           PerRPC.PerRPCCredentials PerRPC.transceiverFuncs length seq imap].
    rewrite <- app_assoc. cbn [app]. rewrite Nat.add_0_r.
    replace (S (PerRPC.nchans σ) + length ops)%nat
      with (PerRPC.nchans σ + S (length ops))%nat by lia.
    do 5 f_equal. apply imap_ext. intros i x _. cbn. f_equal. lia.
Qed.

(** X21: every send and receive method of the adapter called before a
    transceiver is known returns a new channel at once and makes no
    call; the channels of a sequence of such calls are numbered in call
    order.  The first retrieval of metadata under a context that gives a
    transceiver then invokes the same operations on it, in the order of
    the calls, and relays the result of each one into the channel that
    was returned for it. *)
Theorem PerRPC_deferred_operations_replay_in_order
    (ops : list PerRPC.Op) (t : PerRPC.Transceiver) (ctx : PerRPC.Context)
    (uri : list string) (σ : PerRPC.World) :
  PerRPC.FDTransceiver (PerRPC.cred σ) = None ->
  PerRPC.transceiverFuncs (PerRPC.cred σ) = [] ->
  PerRPC.FromContext ctx = Some t ->
  let n := PerRPC.nchans σ in
  let outs := fst (PerRPC_methods ops σ) in
  let σ1 := snd (PerRPC_methods ops σ) in
  let σ2 := snd (PerRPC.GetRequestMetadata ctx uri σ1) in
  outs = seq n (length ops) /\
  PerRPC.calls σ1 = PerRPC.calls σ /\ PerRPC.joins σ1 = PerRPC.joins σ /\
  PerRPC.calls σ2
    = PerRPC.calls σ
        ++ imap (fun i op => PerRPC.mkCall t op (n + length ops + i)) ops /\
  PerRPC.joins σ2
    = PerRPC.joins σ
        ++ imap (fun i _ => PerRPC.mkJoin (n + length ops + i) (n + i)) ops /\
  PerRPC.FDTransceiver (PerRPC.cred σ2) = Some t /\
  PerRPC.transceiverFuncs (PerRPC.cred σ2) = [].
Proof.
  intros Hnone Hnil Hctx n outs σ1 σ2. subst outs σ1 σ2.
  rewrite (PerRPC_methods_unresolved ops σ Hnone). cbn [fst snd]. rewrite Hnil.
  cbn [app]. split; [done|]. split; [done|]. split; [done|].
  rewrite PerRPC_GetRequestMetadata_world.
  cbn [PerRPC.cred PerRPC.FDTransceiver PerRPC.transceiverFuncs PerRPC.PerRPCCredentials].
  rewrite Hctx. cbn zeta.
  match goal with
  | |- context [foldl ?f ?a ?l] =>
      destruct (PerRPC_replay_fold t l a) as (Hn & Hc & Hj & Hcr)
  end.
  cbn [PerRPC.set_cred PerRPC.nchans PerRPC.calls PerRPC.joins PerRPC.cred] in *.
  rewrite Hcr, Hc, Hj.
  cbn [PerRPC.FDTransceiver PerRPC.transceiverFuncs].
  unfold PerRPC.replay_calls, PerRPC.replay_joins. rewrite !imap_imap.
  fold n. done.
Qed.

Lemma PerRPC_deferred_operations_replay_in_order_witness :
  let ops := [PerRPC.OpSendFile 3; PerRPC.OpRecvFile 2049 77; PerRPC.OpRecvFD 1 2] in
  let σ1 := snd (PerRPC_methods ops (PerRPC.new None)) in
  let σ2 := snd (PerRPC.GetRequestMetadata PerRPC.example_ctx [] σ1) in
  fst (PerRPC_methods ops (PerRPC.new None)) = [0; 1; 2]%nat /\
  PerRPC.calls σ1 = [] /\ PerRPC.joins σ1 = [] /\
  PerRPC.calls σ2
    = [PerRPC.mkCall 7%nat (PerRPC.OpSendFile 3) 3%nat;
       PerRPC.mkCall 7%nat (PerRPC.OpRecvFile 2049 77) 4%nat;
       PerRPC.mkCall 7%nat (PerRPC.OpRecvFD 1 2) 5%nat] /\
  PerRPC.joins σ2
    = [PerRPC.mkJoin 3%nat 0%nat; PerRPC.mkJoin 4%nat 1%nat; PerRPC.mkJoin 5%nat 2%nat] /\
  PerRPC.FDTransceiver (PerRPC.cred σ2) = Some 7%nat /\
  PerRPC.transceiverFuncs (PerRPC.cred σ2) = [].
Proof.
  apply (PerRPC_deferred_operations_replay_in_order
           [PerRPC.OpSendFile 3; PerRPC.OpRecvFile 2049 77; PerRPC.OpRecvFD 1 2]
           7%nat PerRPC.example_ctx [] (PerRPC.new None)).
  - reflexivity.
  - reflexivity.
  - reflexivity.
Defined.

(** ** The invariant along any sequence of operations *)

Lemma wf_more_chans σ c : wf σ -> wf (set_errHeap (errHeap σ ++ [c]) σ).
Proof. intros [Hs Hr]. split; [by apply wf_send_more_chans|done]. Qed.

Lemma SendFD_total fd σ : exists ch σ', SendFD fd σ = Ret (ch, σ').
Proof.
  rewrite SendFD_spec. cbn zeta.
  destruct (F_DUPFD (os σ) fd) as [o [fd'|errno]]; by eexists _, _.
Qed.

Lemma RecvFD_total d i σ : exists ch σ', RecvFD d i σ = Ret (ch, σ').
Proof.
  rewrite RecvFD_spec. cbn zeta.
  destruct (recvedFDs (w σ) !! mkKey d i); by eexists _, _.
Qed.

Lemma SendFile_wf Wrapf file σ :
  wf σ -> sc_ctl_err file = None ->
  exists r σ', SendFile Wrapf file σ = Ret (r, σ') /\ wf σ'.
Proof.
  intros Hwf Hctl.
  destruct (sc_err file) as [e|] eqn:Hsc.
  { eexists _, _. split; [by apply SendFile_no_raw|]. by apply wf_more_chans. }
  destruct (sc_fd file) as [fd|] eqn:Hfd.
  2:{ eexists _, _. split; [rewrite SendFile_not_invoked by done; by rewrite Hctl|].
      by apply wf_more_chans. }
  destruct (Fstat (os σ) fd) as [st|e] eqn:Hstat.
  - rewrite (SendFile_reaches_SendFD Wrapf file fd st σ Hsc Hfd Hctl Hstat).
    destruct (SendFD_total fd (set_errHeap (errHeap σ ++ [fresh_chan]) σ))
      as (ch & σ' & Hrun).
    rewrite Hrun. eexists _, σ'. split; [done|].
    eapply SendFD_wf; [|exact Hrun]. by apply wf_more_chans.
  - eexists _, _. split.
    + rewrite (SendFile_no_stat Wrapf file fd e σ Hsc Hfd Hstat). by rewrite Hctl.
    + by apply wf_more_chans.
Qed.

Lemma RecvFile_wf d i σ :
  wf σ -> exists ch σ', RecvFile d i σ = Ret (ch, σ') /\ wf σ'.
Proof.
  intros Hwf. rewrite RecvFile_spec.
  destruct (RecvFD_total d i (set_fileHeap (fileHeap σ ++ [fresh_chan]) σ))
    as (ch & σ' & Hrun).
  rewrite Hrun. eexists _, _. split; [done|].
  assert (wf σ') as [Hs Hr] by (eapply RecvFD_wf; [|exact Hrun]; exact Hwf).
  split; [exact Hs|exact Hr].
Qed.

(** X22: whatever the order of the operations on a wrapper (sends,
    receive requests by identity or by locator, reads of anything the
    socket delivers, writes, closes), none of them panics or blocks and
    the bookkeeping stays well formed (one fresh, distinct result
    channel per queued descriptor and per waiting receiver), provided
    every write is given at least 64 bytes and no file reports an error
    of its control call. *)
Theorem wrapper_operations_never_panic
    (net : NetConn) (url_Parse : string -> URL + error)
    (Wrapf : error -> SyscallConn -> error) (acts : list Action) (σ : World) :
  wf σ ->
  (forall b, ActWrite b ∈ acts -> (maxFDCount <= length b)%nat) ->
  (forall file, ActSendFile file ∈ acts -> sc_ctl_err file = None) ->
  exists σ', forM_ acts (perform net url_Parse Wrapf) σ = Ret (tt, σ') /\ wf σ'.
Proof.
  revert σ. induction acts as [|a acts IH]; intros σ Hwf Hbuf Hfile.
  - by exists σ.
  - assert (exists σ1, perform net url_Parse Wrapf a σ = Ret (tt, σ1) /\ wf σ1)
      as (σ1 & Hrun & Hwf1).
    { destruct a as [fd|file|d i|urlStr|d i|urlStr|d|b|]; cbn [perform]; unfold bind.
      - destruct (SendFD_total fd σ) as (ch & σ' & Hrun). rewrite Hrun.
        exists σ'. split; [done|]. by eapply SendFD_wf.
      - destruct (SendFile_wf Wrapf file σ Hwf) as (r & σ' & Hrun & Hwf').
        { apply Hfile. left. }
        rewrite Hrun. by exists σ'.
      - destruct (RecvFD_total d i σ) as (ch & σ' & Hrun). rewrite Hrun.
        exists σ'. split; [done|]. by eapply RecvFD_wf.
      - unfold RecvFDByURL.
        destruct (URLStringToDevIno url_Parse urlStr) as [[d i]|e]; [|by exists σ].
        unfold bind. destruct (RecvFD_total d i σ) as (ch & σ' & Hrun). rewrite Hrun.
        exists σ'. split; [done|]. by eapply RecvFD_wf.
      - destruct (RecvFile_wf d i σ Hwf) as (ch & σ' & Hrun & Hwf'). rewrite Hrun.
        by exists σ'.
      - unfold RecvFileByURL.
        destruct (URLStringToDevIno url_Parse urlStr) as [[d i]|e]; [|by exists σ].
        unfold bind. destruct (RecvFile_wf d i σ Hwf) as (ch & σ' & Hrun & Hwf').
        rewrite Hrun. by exists σ'.
      - destruct (Read_wf d σ Hwf) as (r & σ' & Hrun & Hwf'). rewrite Hrun.
        by exists σ'.
      - destruct (Write_wf net b σ Hwf) as (r & σ' & Hrun & Hwf').
        { specialize (Hbuf b). unfold maxFDCount in *. 
          assert (64 <= length b)%nat by (apply Hbuf; left). lia. }
        rewrite Hrun. by exists σ'.
      - unfold Close. destruct (close_wf net σ Hwf) as (r & σ' & Hrun & Hwf').
        rewrite Hrun. by exists σ'. }
    destruct (IH σ1 Hwf1) as (σ' & Hrest & Hwf').
    { intros b Hin. apply Hbuf. by right. }
    { intros f Hin. apply Hfile. by right. }
    exists σ'. cbn [forM_]. unfold bind. rewrite Hrun. done.
Qed.

Lemma wrapper_operations_never_panic_witness :
  exists σ',
    forM_ [ActRecvFD 2049 18446744073709551615; ActSendFD 5;
           ActSendFile (mkSyscallConn None (Some 5) None);
           ActRead example_delivery; ActWrite (replicate 64 "x"%byte);
           ActRecvFileByURL "inode://1/1"; ActClose; ActSendFD 0; ActClose]
      (perform example_net example_url_Parse (fun e _ => e)) example_world
      = Ret (tt, σ') /\
    wf σ'.
Proof.
  apply (wrapper_operations_never_panic example_net example_url_Parse (fun e _ => e)
           [ActRecvFD 2049 18446744073709551615; ActSendFD 5;
            ActSendFile (mkSyscallConn None (Some 5) None);
            ActRead example_delivery; ActWrite (replicate 64 "x"%byte);
            ActRecvFileByURL "inode://1/1"; ActClose; ActSendFD 0; ActClose]
           example_world).
  - apply wf_example_world.
  - intros b Hin. repeat (apply elem_of_cons in Hin as [Hin|Hin]; [try discriminate|]).
    + injection Hin as ->. vm_compute. lia.
    + by apply elem_of_nil in Hin.
  - intros f Hin. repeat (apply elem_of_cons in Hin as [Hin|Hin]; [try discriminate|]).
    + by injection Hin as ->.
    + by apply elem_of_nil in Hin.
Defined.

(** ** Transport credentials and dial options *)

(** X23: wrapConn wraps exactly the connections that have WriteMsgUnix
    and are not wrappers already, and wrapping twice is wrapping once.
    With no credentials inside, both handshakes return the wrapped
    connection without error and call every capturer once, in the order
    given, on that connection if it can send descriptors, and call none
    otherwise.  With credentials of another package inside, the client
    handshake still calls the capturers on the wrapper it made, whatever
    the inner handshake returned, while the server handshake calls them
    on the connection the inner handshake returned, and only if that
    one can send descriptors. *)
Theorem handshakes_capture_senders
    (capturers : list nat) (rawConn : Transport.NetConn) (log : Transport.Log)
    (h : Transport.Handshaker) :
  let conn := Transport.wrapConn rawConn in
  let bare := Transport.TransportCredentials None capturers in
  let over := Transport.TransportCredentials (Some (Transport.ForeignCreds h)) capturers in
  conn = (if Transport.has_WriteMsgUnix rawConn
          then Transport.ConnWrap rawConn else rawConn) /\
  Transport.wrapConn conn = conn /\
  Transport.is_FDSender conn
    = Transport.has_WriteMsgUnix rawConn || Transport.is_FDSender rawConn /\
  Transport.ClientHandshake bare rawConn log
    = ((conn, None, None),
       if Transport.is_FDSender conn
       then log ++ map (fun capturer => (capturer, conn)) capturers else log) /\
  Transport.ServerHandshake bare rawConn log
    = Transport.ClientHandshake bare rawConn log /\
  Transport.ClientHandshake over rawConn log
    = (Transport.hs_ClientHandshake h conn,
       if Transport.is_FDSender conn
       then log ++ map (fun capturer => (capturer, conn)) capturers else log) /\
  Transport.ServerHandshake over rawConn log
    = (Transport.hs_ServerHandshake h conn,
       let conn' := fst (fst (Transport.hs_ServerHandshake h conn)) in
       if Transport.is_FDSender conn'
       then log ++ map (fun capturer => (capturer, conn')) capturers else log).
Proof.
  cbn zeta. destruct rawConn as [name [] []|inner]; cbn; done.
Qed.

Lemma CaptureSender_loop_own capturer (opts : list Transport.DialOption) : forall rv ok,
  (forall o, o ∈ opts -> exists c cs, o = Transport.WithTransportCredentials c cs) ->
  Transport.CaptureSender_loop capturer opts rv ok = (rv ++ opts, ok).
Proof.
  induction opts as [|o opts IH]; intros rv ok Hown.
  - cbn. by rewrite app_nil_r.
  - destruct (Hown o) as (c & cs & ->); [left|].
    cbn [Transport.CaptureSender_loop Transport.WithTransportCredentials].
    rewrite IH by (intros o' Hin; apply Hown; by right).
    by rewrite <- app_assoc.
Qed.

(** X24: the capturers given to WithTransportCredentials are kept in
    the option but not handed to the credentials it installs: when the
    credentials given are nil or of another package, the handshakes of
    the installed credentials call no capturer.  CaptureSender finds no
    AddPresenders method on the options WithTransportCredentials makes:
    on a list of such options it returns the list as it is and reports
    that nothing was captured.  TransportCredentials on credentials that
    are wrapped already returns them and drops the capturers it was
    given. *)
Theorem capturers_of_dial_options_never_run
    (cred : option Transport.Handshaker) (capturers : list nat) (capturer : nat)
    (rawConn : Transport.NetConn) (log : Transport.Log)
    (dialopts : list Transport.DialOption)
    (inner : option Transport.Creds) (before : list nat) :
  let opt := Transport.WithTransportCredentials (Transport.ForeignCreds <$> cred)
               capturers in
  (exists c, Transport.installed opt = Some c /\
     snd (Transport.ClientHandshake c rawConn log) = log /\
     snd (Transport.ServerHandshake c rawConn log) = log) /\
  ((forall o, o ∈ dialopts -> exists c cs, o = Transport.WithTransportCredentials c cs) ->
   Transport.CaptureSender capturer dialopts = (dialopts, false)) /\
  Transport.TransportCredentials
    (Some (Transport.TransportCredentials inner before)) capturers
    = Transport.TransportCredentials inner before.
Proof.
  cbn zeta. split; [|split].
  - eexists. split; [reflexivity|].
    destruct cred as [h|]; cbn; rewrite app_nil_r;
      split; by repeat match goal with |- context [if ?b then _ else _] => destruct b end.
  - intros Hown. unfold Transport.CaptureSender.
    by rewrite CaptureSender_loop_own.
  - by destruct inner as [[h|caps i]|].
Qed.

Lemma capturers_of_dial_options_never_run_witness :
  Transport.CaptureSender 9
    [Transport.WithTransportCredentials None [1; 2]%nat;
     Transport.WithTransportCredentials None []]
  = ([Transport.WithTransportCredentials None [1; 2]%nat;
      Transport.WithTransportCredentials None []], false).
Proof.
  destruct (capturers_of_dial_options_never_run None [1; 2]%nat 9
              (Transport.Foreign 0 true false) []
              [Transport.WithTransportCredentials None [1; 2]%nat;
               Transport.WithTransportCredentials None []] None [])
    as (_ & Hcap & _).
  apply Hcap. intros o Hin.
  apply elem_of_cons in Hin as [->|Hin]; [by eexists _, _|].
  apply elem_of_cons in Hin as [->|Hin]; [by eexists _, _|].
  by apply elem_of_nil in Hin.
Defined.

(** ** [SendFilename] *)

(** One queued descriptor and the next [Write]. *)
Lemma queued_one_then_Write net bi b σ1 fd' inner :
  wf_send σ1 -> sendFDs (w σ1) = [fd'] -> errChs (w σ1) = [inner] ->
  exists r σ2,
    Write net (bi :: b) σ1 = Ret (r, σ2) /\
    conn σ2 = conn_after (conn σ1) [MsgUnix [bi] [fd']; MsgData b] /\
    errHeap σ2 !! inner
      = Some (mkChan (option_list (WriteMsgUnix_err net (conn σ1) [bi] [fd'])) 1 true) /\
    (forall ch, ch <> inner -> errHeap σ2 !! ch = errHeap σ1 !! ch) /\
    os σ2 = sys_close (os σ1) fd' /\
    sendFDs (w σ2) = [].
Proof.
  intros Hwf1 Hq1 Hc1.
  assert (Nat.min (length (sendFDs (w σ1))) maxFDCount <= length (bi :: b))%nat as Hb.
  { rewrite Hq1. cbn. lia. }
  destruct (Write_ok net (bi :: b) σ1 Hwf1 Hb) as (r & σ2 & HW & Hpost).
  destruct (Write_frame net (bi :: b) σ1 Hwf1 Hb) as (r' & σ2' & HW' & Hos & _).
  rewrite HW in HW'. injection HW' as <- <-.
  destruct Hpost as (Hq & _ & _ & _ & Hconn & _ & _ & _ & _ & Hmine & Hother & _).
  rewrite Hq1, Hc1 in *. cbn [length Nat.min maxFDCount take drop] in *.
  pose proof (Hmine 0%nat inner fd' bi eq_refl eq_refl eq_refl) as Hin2.
  unfold drain_msgs in Hin2. cbn [take zip_with] in Hin2.
  rewrite conn_after_nil in Hin2.
  exists r, σ2. split; [done|].
  split; [rewrite Hconn; unfold drain_msgs; by destruct b|].
  split; [done|].
  split.
  { intros ch Hne. apply Hother. intros Hin. by apply list_elem_of_singleton in Hin. }
  split; [by rewrite Hos|done].
Qed.

Lemma forward_closed {V} (inCh out : nat) (h : list (Chan V)) vs bs c n :
  inCh <> out ->
  h !! inCh = Some (mkChan vs c true) ->
  h !! out = Some (mkChan bs n false) ->
  (length bs + length vs <= n)%nat ->
  forward inCh out h
    = Ret (<[out := mkChan (bs ++ vs) n false]> (<[inCh := mkChan [] c true]> h)).
Proof.
  intros Hne Hin Hout Hroom. unfold forward. rewrite Hin.
  cbn [fmap option_fmap option_map default buf]. unfold id.
  assert (length vs < S (length vs))%nat as Hfuel by lia.
  revert Hfuel. generalize (S (length vs)) as fuel.
  revert h bs Hin Hout Hroom.
  induction vs as [|v vs IH]; intros h bs Hin Hout Hroom fuel Hfuel;
    (destruct fuel as [|fuel]; [cbn in Hfuel; lia|]); cbn [forward_loop].
  - unfold chan_recv. rewrite Hin. cbn [buf closed].
    rewrite app_nil_r. rewrite (list_insert_id h inCh) by done.
    by rewrite (list_insert_id h out) by done.
  - unfold chan_recv. rewrite Hin. cbn [buf closed cap].
    unfold chan_send. rewrite list_lookup_insert_ne by done. rewrite Hout.
    cbn [closed buf cap]. cbn [length] in Hroom, Hfuel.
    rewrite decide_True by lia.
    rewrite (IH _ (bs ++ [v])).
    + rewrite (list_insert_insert_ne _ inCh out) by done.
      rewrite !list_insert_insert_eq. by rewrite <- app_assoc.
    + rewrite list_lookup_insert_ne by done.
      apply list_lookup_insert_eq. by eapply lookup_lt_Some.
    + apply list_lookup_insert_eq. rewrite length_insert. by eapply lookup_lt_Some.
    + rewrite length_app. cbn. lia.
    + lia.
Qed.

(** [SendFilename] on a name that opens, with a duplication that
    succeeds. *)
Lemma SendFilename_ok Wrapf fs ErrClosed ErrFileClosing filename st fd fd' σ :
  fs filename = inl st ->
  lowest_free (os σ) = Some fd ->
  snd (F_DUPFD (mkOS (<[fd := st]> (fdtable (os σ))) (nofile (os σ))) fd) = inl fd' ->
  let n := length (errHeap σ) in
  SendFilename Wrapf fs ErrClosed ErrFileClosing filename σ
    = Ret ((n, Some (mkFilenameRelay (S n) n (mkOsFile fd true), Some (S (S n), S n))),
           mkWorld
             (mkOS (delete fd (<[fd' := st]> (<[fd := st]> (fdtable (os σ)))))
                (nofile (os σ)))
             (errHeap σ ++ [fresh_chan; fresh_chan; fresh_chan])
             (fdHeap σ) (fileHeap σ) (conn σ) (goroutines σ)
             (mkConnWrap (sendFDs (w σ) ++ [fd']) (errChs (w σ) ++ [S (S n)])
                (recvFDChans (w σ)) (recvedFDs (w σ)))).
Proof.
  intros Hfs Hfree Hdup n.
  destruct (F_DUPFD (mkOS (<[fd := st]> (fdtable (os σ))) (nofile (os σ))) fd)
    as [o1 r0] eqn:HF. cbn in Hdup. subst r0.
  pose proof (F_DUPFD_ok _ _ _ _ HF) as (st' & Hopen & Hfree' & Ho1).
  cbn [fdtable nofile] in Hopen, Hfree', Ho1.
  rewrite lookup_insert_eq in Hopen. injection Hopen as <-.
  unfold SendFilename. unfold bind at 1. unfold make_errCh, chan_make.
  change (@mkChan error [] 1 false) with (@fresh_chan error).
  unfold bind at 1. unfold os_OpenFile. cbn [set_errHeap os]. rewrite Hfs, Hfree.
  unfold bind at 1. unfold File_SyscallConn. cbn [of_closed of_fd].
  match goal with
  | |- context [SendFile Wrapf ?f ?s] =>
      rewrite (SendFile_reaches_SendFD Wrapf f fd st s eq_refl eq_refl eq_refl)
  end.
  2:{ unfold Fstat. cbn. by rewrite lookup_insert_eq. }
  rewrite SendFD_spec. cbn zeta.
  cbn [set_os set_errHeap os errHeap fdHeap fileHeap conn goroutines w].
  rewrite HF. unfold bind at 1. unfold File_Close. cbn [of_closed of_fd fst snd].
  unfold bind at 1. unfold syscall_Close, modify, ret. subst o1.
  cbn [set_os os errHeap fdHeap fileHeap conn goroutines w sys_close fdtable nofile].
  rewrite !length_app. cbn [length]. fold n.
  replace (n + 1)%nat with (S n) by lia.
  replace (S n + 1)%nat with (S (S n)) by lia.
  rewrite <- !app_assoc. cbn [app]. done.
Qed.

(** X25: SendFilename on a name that can be opened, with an empty
    queue.  The file's descriptor is duplicated into the queue and the
    file is closed before SendFilename returns; the next Write sends the
    duplicate and closes it, so the descriptor table is again as before
    the call.  The goroutine of SendFilename, run after that, closes the
    file a second time, and that Close fails: when the message went out
    without error the channel SendFilename returned is closed holding
    the error of the second Close; when the message failed the
    goroutine forwards its error into the channel and then blocks on
    sending the error of the second Close, the channel staying open. *)
Theorem SendFilename_reports_second_close
    (Wrapf : error -> SyscallConn -> error) (fs : string -> Stat_t + error)
    (ErrClosed ErrFileClosing : error) (net : NetConn) (filename : string)
    (st : Stat_t) (fd fd' : Z) (bi : byte) (b : list byte) (σ : World) :
  wf_send σ ->
  sendFDs (w σ) = [] ->
  fs filename = inl st ->
  lowest_free (os σ) = Some fd ->
  snd (F_DUPFD (mkOS (<[fd := st]> (fdtable (os σ))) (nofile (os σ))) fd) = inl fd' ->
  exists errCh g relay σ1 r σ2 h,
    SendFilename Wrapf fs ErrClosed ErrFileClosing filename σ
      = Ret ((errCh, Some (g, Some relay)), σ1) /\
    errHeap σ !! errCh = None /\
    sendFDs (w σ1) = [fd'] /\
    fdtable (os σ1) !! fd = None /\
    Write net (bi :: b) σ1 = Ret (r, σ2) /\
    conn σ2 = conn_after (conn σ) [MsgUnix [bi] [fd']; MsgData b] /\
    fdtable (os σ2) = fdtable (os σ) /\
    join (fst relay) (snd relay) (errHeap σ2) = Ret h /\
    match WriteMsgUnix_err net (conn σ) [bi] [fd'] with
    | None =>
        exists σ3,
          run_FilenameRelay ErrClosed g (set_errHeap h σ2) = Ret (tt, σ3) /\
          errHeap σ3 !! errCh = Some (mkChan [ErrClosed] 1 true) /\
          os σ3 = os σ2
    | Some e =>
        (exists h',
           forward (fr_errChIn g) (fr_errChOut g) h = Ret h' /\
           h' !! errCh = Some (mkChan [e] 1 false)) /\
        run_FilenameRelay ErrClosed g (set_errHeap h σ2) = Blocks
    end.
Proof.
  intros Hwf Hnil Hfs Hfree Hdup.
  pose proof (SendFilename_ok Wrapf fs ErrClosed ErrFileClosing filename st fd fd' σ
                Hfs Hfree Hdup) as Hrun. cbn zeta in Hrun.
  set (n := length (errHeap σ)) in *.
  match type of Hrun with _ = Ret (_, ?s) => set (σ1 := s) in * end.
  destruct (F_DUPFD (mkOS (<[fd := st]> (fdtable (os σ))) (nofile (os σ))) fd)
    as [o1 r0] eqn:HF. cbn in Hdup. subst r0.
  pose proof (F_DUPFD_ok _ _ _ _ HF) as (st' & _ & Hfree' & _).
  cbn [fdtable] in Hfree'.
  assert (fdtable (os σ) !! fd = None) as Hfdfree.
  { apply lowest_free_spec in Hfree. apply Hfree. }
  assert (fd' <> fd) as Hne.
  { intros ->. by rewrite lookup_insert_eq in Hfree'. }
  assert (fdtable (os σ) !! fd' = None) as Hfd'free.
  { by rewrite lookup_insert_ne in Hfree' by done. }
  destruct Hwf as (Hlen & Hnd & Hfresh).
  assert (errChs (w σ) = []) as Hcnil.
  { rewrite Hnil in Hlen. destruct (errChs (w σ)); [done|cbn in Hlen; lia]. }
  assert (wf_send σ1) as Hwf1.
  { split; [cbn; by rewrite Hnil, Hcnil|]. split.
    - cbn. rewrite Hcnil. cbn. apply NoDup_singleton.
    - intros ch Hin. cbn in Hin. rewrite Hcnil in Hin. cbn in Hin.
      apply list_elem_of_singleton in Hin as ->. cbn [σ1 errHeap].
      rewrite lookup_app_r by (fold n; lia). fold n.
      by replace (S (S n) - n)%nat with 2%nat by lia. }
  destruct (queued_one_then_Write net bi b σ1 fd' (S (S n)) Hwf1)
    as (r & σ2 & HW & Hconn & Hinner & Hother & Hos & _).
  { cbn. by rewrite Hnil. }
  { cbn. by rewrite Hcnil. }
  change (conn σ1) with (conn σ) in Hconn, Hinner.
  assert (errHeap σ2 !! S n = Some fresh_chan) as Hmid.
  { rewrite Hother by lia. cbn [σ1 errHeap].
    rewrite lookup_app_r by (fold n; lia). fold n.
    by replace (S n - n)%nat with 1%nat by lia. }
  assert (errHeap σ2 !! n = Some fresh_chan) as Hout.
  { rewrite Hother by lia. cbn [σ1 errHeap].
    rewrite lookup_app_r by (fold n; lia). fold n.
    by rewrite Nat.sub_diag. }
  set (E := WriteMsgUnix_err net (conn σ) [bi] [fd']) in *.
  assert (length (option_list E) <= 1)%nat as HlenE by (destruct E; cbn; lia).
  pose proof (join_closed (S (S n)) (S n) (errHeap σ2) (option_list E) [] 1 1
                ltac:(lia) Hinner Hmid ltac:(cbn; lia)) as Hjoin.
  cbn [app] in Hjoin.
  match type of Hjoin with _ = Ret ?x => set (h := x) in * end.
  assert (h !! S n = Some (mkChan (option_list E) 1 true)) as Hhmid.
  { unfold h. apply list_lookup_insert_eq. rewrite length_insert.
    by eapply lookup_lt_Some. }
  assert (h !! n = Some fresh_chan) as Hhout.
  { unfold h. by rewrite !list_lookup_insert_ne by lia. }
  exists n, (mkFilenameRelay (S n) n (mkOsFile fd true)), (S (S n), S n), σ1, r, σ2, h.
  split; [done|]. split; [apply lookup_ge_None_2; unfold n; lia|].
  split; [cbn; by rewrite Hnil|].
  split; [cbn; apply lookup_delete_eq|].
  split; [done|]. split; [done|].
  split.
  { rewrite Hos. cbn [σ1 os sys_close fdtable].
    rewrite delete_insert_ne by done.
    rewrite delete_insert_id by (rewrite lookup_delete_ne by done; done).
    by apply delete_insert_id. }
  split; [done|].
  pose proof (forward_closed (S n) n h (option_list E) [] 1 1
                ltac:(lia) Hhmid Hhout ltac:(cbn; lia)) as Hfwd.
  cbn [app] in Hfwd.
  unfold run_FilenameRelay. cbn [fr_errChIn fr_errChOut fr_file].
  destruct E as [e|].
  - change (option_list (Some e)) with [e] in *.
    split.
    { eexists. split; [exact Hfwd|].
      apply list_lookup_insert_eq. rewrite length_insert. by eapply lookup_lt_Some. }
    unfold bind, lift_heap, File_Close.
    cbn [set_errHeap errHeap of_closed ret snd]. rewrite Hfwd.
    cbn [set_errHeap errHeap snd]. unfold send_errCh, lift_heap, chan_send.
    cbn [set_errHeap errHeap].
    rewrite list_lookup_insert_eq by (rewrite length_insert; by eapply lookup_lt_Some).
    cbn [closed buf cap length]. by rewrite decide_False by lia.
  - change (option_list None) with (@nil error) in *.
    eexists. split.
    + unfold bind, lift_heap, File_Close.
      cbn [set_errHeap errHeap of_closed ret snd]. rewrite Hfwd.
      cbn [set_errHeap errHeap snd]. unfold send_errCh, lift_heap, chan_send.
      cbn [set_errHeap errHeap].
      rewrite list_lookup_insert_eq by (rewrite length_insert; by eapply lookup_lt_Some).
      cbn [closed buf cap length]. rewrite decide_True by lia.
      unfold close_errCh, lift_heap, chan_close. cbn [set_errHeap errHeap].
      rewrite list_lookup_insert_eq
        by (rewrite !length_insert; by eapply lookup_lt_Some).
      cbn [closed buf cap]. reflexivity.
    + cbn [set_errHeap errHeap os]. split; [|done].
      apply list_lookup_insert_eq. rewrite !length_insert. by eapply lookup_lt_Some.
Qed.

Lemma SendFilename_reports_second_close_witness :
  exists errCh g relay σ1 r σ2 h,
    SendFilename (fun e _ => e) (fun _ => inl (mkStat 7 7)) (ErrNet 8) (ErrNet 9)
      "/run/memif.sock" example_world
      = Ret ((errCh, Some (g, Some relay)), σ1) /\
    errHeap example_world !! errCh = None /\
    sendFDs (w σ1) = [4] /\
    fdtable (os σ1) !! 3 = None /\
    Write example_net ["a"; "b"]%byte σ1 = Ret (r, σ2) /\
    conn σ2 = conn_after (conn example_world)
                [MsgUnix ["a"%byte] [4]; MsgData ["b"%byte]] /\
    fdtable (os σ2) = fdtable (os example_world) /\
    join (fst relay) (snd relay) (errHeap σ2) = Ret h /\
    match WriteMsgUnix_err example_net (conn example_world) ["a"%byte] [4] with
    | None =>
        exists σ3,
          run_FilenameRelay (ErrNet 8) g (set_errHeap h σ2) = Ret (tt, σ3) /\
          errHeap σ3 !! errCh = Some (mkChan [ErrNet 8] 1 true) /\
          os σ3 = os σ2
    | Some e =>
        (exists h',
           forward (fr_errChIn g) (fr_errChOut g) h = Ret h' /\
           h' !! errCh = Some (mkChan [e] 1 false)) /\
        run_FilenameRelay (ErrNet 8) g (set_errHeap h σ2) = Blocks
    end.
Proof.
  apply (SendFilename_reports_second_close (fun e _ => e) (fun _ => inl (mkStat 7 7))
           (ErrNet 8) (ErrNet 9) example_net "/run/memif.sock" (mkStat 7 7) 3 4
           "a"%byte ["b"%byte] example_world).
  - apply wf_send_example_world.
  - reflexivity.
  - reflexivity.
  - reflexivity.
  - reflexivity.
Defined.

(** ** [FileToURL] *)

(** X26: FileToURL returns an error exactly when the file gives no raw
    connection or the control call fails, and then no URL.  Otherwise,
    when the callback ran on a descriptor that could be examined, it
    returns the URL FDToURL gives for that descriptor, which decodes to
    the file's device and inode; but when the descriptor could not be
    examined the error of FDToURL is overwritten by the result of the
    control call, and FileToURL returns neither a URL nor an error. *)
Theorem FileToURL_swallows_stat_error
    (WithStack : error -> error) (o : OS) (file : SyscallConn) :
  (is_Some (snd (FileToURL WithStack o file))
     <-> is_Some (sc_err file) \/ is_Some (sc_ctl_err file)) /\
  (is_Some (snd (FileToURL WithStack o file)) -> fst (FileToURL WithStack o file) = None) /\
  (forall fd, sc_err file = None -> sc_ctl_err file = None -> sc_fd file = Some fd ->
     (forall u, FDToURL o fd = inl u -> FileToURL WithStack o file = (Some u, None)) /\
     (forall stat, 0 <= Dev stat <= maxUint64 -> 0 <= Ino stat <= maxUint64 ->
        Fstat o fd = inl stat ->
        exists u, FileToURL WithStack o file = (Some u, None) /\
                  URLToDevIno u = inl (Dev stat, Ino stat)) /\
     (forall e, Fstat o fd = inr e -> FileToURL WithStack o file = (None, None))).
Proof.
  split; [|split].
  - unfold FileToURL. cbn zeta.
    destruct (sc_err file) as [e|]; cbn [snd].
    + split; [intros _; left; by eexists|by eexists].
    + destruct (sc_ctl_err file) as [e|]; cbn [snd].
      * split; [intros _; right; by eexists|by eexists].
      * split; [by intros [? ?]|]. by intros [[? ?]|[? ?]].
  - unfold FileToURL. cbn zeta.
    destruct (sc_err file) as [e|]; cbn [fst snd]; [done|].
    destruct (sc_ctl_err file) as [e|]; cbn [fst snd]; [done|]. by intros [? ?].
  - intros fd Hsc Hctl Hfd. unfold FileToURL. cbn zeta. rewrite Hsc, Hctl, Hfd.
    split; [|split].
    + intros u Hu. by rewrite Hu.
    + intros stat Hdev Hino Hstat. unfold FDToURL. rewrite Hstat. cbn [fst].
      eexists. split; [reflexivity|].
      destruct (Sprintf_d_decimal (Dev stat) Hdev) as [Hvd Hdd].
      destruct (Sprintf_d_decimal (Ino stat) Hino) as [Hvi Hdi].
      apply URLToDevIno_ok. cbn [Scheme Host Path].
      assert (TrimPrefix_slash (Sprintf_d (Ino stat)) = Sprintf_d (Ino stat)) as ->.
      { destruct (valid_decimal_first_digit _ Hvi) as (c' & s' & Hc' & Hcd').
        rewrite Hc'. unfold TrimPrefix_slash.
        destruct c' as [[] [] [] [] [] [] [] []]; try done. }
      done.
    + intros e Hstat. unfold FDToURL. by rewrite Hstat.
Qed.

Lemma FileToURL_swallows_stat_error_witness :
  FileToURL (fun e => e) example_os (mkSyscallConn None (Some 9) None) = (None, None) /\
  exists u, FileToURL (fun e => e) example_os (mkSyscallConn None (Some 5) None)
            = (Some u, None) /\
            URLToDevIno u = inl (2049, 18446744073709551615).
Proof.
  split.
  - destruct (FileToURL_swallows_stat_error (fun e => e) example_os
                (mkSyscallConn None (Some 9) None)) as (_ & _ & H).
    destruct (H 9 eq_refl eq_refl eq_refl) as (_ & _ & Hswallow).
    exact (Hswallow (ErrErrno EBADF) eq_refl).
  - destruct (FileToURL_swallows_stat_error (fun e => e) example_os
                (mkSyscallConn None (Some 5) None)) as (_ & _ & H).
    destruct (H 5 eq_refl eq_refl eq_refl) as (_ & Hok & _).
    apply (Hok example_stat); [unfold maxUint64; cbn; lia|unfold maxUint64; cbn; lia|].
    reflexivity.
Defined.

(** ** After [close] *)

(** [close] leaves the channels of files and the goroutines alone. *)
Lemma close_frame net σ :
  wf σ ->
  exists σ',
    close net σ = Ret (Close_err net (conn σ), σ') /\
    fileHeap σ' = fileHeap σ /\ goroutines σ' = goroutines σ.
Proof.
  intros [(Hlen & Hnd & Hfresh) (Hwnd & Hwfresh)].
  set (σ0 := set_conn (mkConn (wire (conn σ)) (S (nclose (conn σ)))) σ).
  destruct (close_cached_loop (map_to_list (recvedFDs (w σ))) σ0)
    as (σ1 & Hrun1 & Hos1 & Hc1 & Hs1 & He1 & Hr1 & Heh1 & Hfh1 & Hfi1 & Hco1 & Hgo1).
  destruct (close_waiters_loop (map_to_list (recvFDChans (w σ))) σ1)
    as (σ2 & Hrun2 & Hmine2 & Hother2 & Hr2 & Hs2 & He2 & Hc2 & Hos2 & Heh2 & Hfi2
          & Hco2 & Hgo2).
  { done. }
  { intros ch Hin. rewrite Hfh1. by apply Hwfresh. }
  cbn [σ0 set_conn w os errHeap fdHeap fileHeap conn goroutines] in *.
  destruct (close_send_loop (sendFDs (w σ)) 0 σ2)
    as (σ3 & Hrun3 & Hw3 & Hfd3 & Hfile3 & Hconn3 & Hgo3 & Hos3 & Hmine3 & Hother3).
  { rewrite He2, He1. lia. }
  { rewrite He2, He1, drop_0, Hlen, firstn_all. done. }
  { rewrite He2, He1, drop_0, Hlen, firstn_all, Heh2, Heh1. done. }
  exists (set_w (update_errChs (fun _ => [])) (set_w (update_sendFDs (fun _ => [])) σ3)).
  split.
  - unfold close. unfold bind at 1. unfold conn_Close. fold σ0.
    unfold bind at 1. cbn [gets σ0 set_conn w].
    erewrite bind_Ret by exact Hrun1.
    erewrite bind_Ret by exact Hrun2.
    erewrite bind_Ret by exact Hrun3. done.
  - cbn [set_w fileHeap goroutines].
    by rewrite Hfile3, Hfi2, Hfi1, Hgo3, Hgo2, Hgo1.
Qed.

(** X27: close does not put the wrapper out of use.  After a close, a
    SendFD whose duplication succeeds is queued as on a new wrapper, its
    channel open and empty, and a RecvFD registers a waiter; nothing
    fails them before the next close, which closes the connection once
    more, gives the queued send its connection-closed error, closes its
    duplicate and closes the waiter's channel without a value. *)
Theorem operations_after_close_wait_for_next_close
    (net : NetConn) (fd fd' device inode : Z) (σ : World) :
  wf σ ->
  snd (F_DUPFD (os (world_after (close net) σ)) fd) = inl fd' ->
  exists e1 σ1 errCh σ2 fdCh σ3 e2 σ4,
    close net σ = Ret (e1, σ1) /\
    SendFD fd σ1 = Ret (errCh, σ2) /\
    RecvFD device inode σ2 = Ret (fdCh, σ3) /\
    sendFDs (w σ3) = [fd'] /\
    errHeap σ3 !! errCh = Some fresh_chan /\
    recvFDChans (w σ3) !! mkKey device inode = Some [fdCh] /\
    fdHeap σ3 !! fdCh = Some fresh_chan /\
    close net σ3 = Ret (e2, σ4) /\
    nclose (conn σ4) = S (S (nclose (conn σ))) /\
    errHeap σ4 !! errCh = Some (mkChan [ErrConnClosed fd'] 1 true) /\
    fdtable (os σ4) !! fd' = None /\
    fdHeap σ4 !! fdCh = Some (mkChan [] 1 true) /\
    w σ4 = wrapConn.
Proof.
  intros Hwf Hdup.
  destruct (close_ok net σ Hwf) as (σ1 & Hclose1 & Hpost1).
  unfold world_after in Hdup. rewrite Hclose1 in Hdup.
  destruct Hpost1 as (Hw1 & Hconn1 & _).
  pose proof (wf_wrapConn σ1 Hw1) as Hwf1.
  destruct (F_DUPFD (os σ1) fd) as [o1 r0] eqn:HF. cbn in Hdup. subst r0.
  pose proof (SendFD_spec fd σ1) as Hsend. cbn zeta in Hsend. rewrite HF in Hsend.
  rewrite Hw1 in Hsend. cbn [wrapConn sendFDs errChs recvFDChans recvedFDs app] in Hsend.
  match type of Hsend with _ = Ret (?c, ?s) => set (errCh := c) in *; set (σ2 := s) in * end.
  pose proof (SendFD_wf fd σ1 errCh σ2 Hwf1 Hsend) as Hwf2.
  pose proof (RecvFD_spec device inode σ2) as Hrecv. cbn zeta in Hrecv.
  assert (recvedFDs (w σ2) !! mkKey device inode = None) as Hn2
    by (cbn; apply lookup_empty).
  rewrite Hn2 in Hrecv.
  match type of Hrecv with _ = Ret (?c, ?s) => set (fdCh := c) in *; set (σ3 := s) in * end.
  pose proof (RecvFD_wf device inode σ2 fdCh σ3 Hwf2 Hrecv) as Hwf3.
  destruct (close_ok net σ3 Hwf3) as (σ4 & Hclose3 & Hpost3).
  destruct Hpost3 as (Hw4 & Hconn4 & Hsent & _ & Hclosed & _ & Hwait & _).
  exists (Close_err net (conn σ)), σ1, errCh, σ2, fdCh, σ3, (Close_err net (conn σ3)), σ4.
  split; [done|]. split; [done|]. split; [done|].
  split; [done|].
  split; [cbn; apply lookup_snoc_new|].
  split; [cbn; apply lookup_insert_eq|].
  split; [cbn; apply lookup_snoc_new|].
  split; [done|].
  split; [rewrite Hconn4; cbn; by rewrite Hconn1|].
  split; [by apply (Hsent 0%nat fd' errCh)|].
  split; [apply Hclosed; cbn; left|].
  split; [|done].
  apply (Hwait (mkKey device inode) [fdCh] fdCh); [cbn; apply lookup_insert_eq|left].
Qed.

Lemma operations_after_close_wait_for_next_close_witness :
  exists e1 σ1 errCh σ2 fdCh σ3 e2 σ4,
    close example_net example_busy = Ret (e1, σ1) /\
    SendFD 0 σ1 = Ret (errCh, σ2) /\
    RecvFD 7 7 σ2 = Ret (fdCh, σ3) /\
    sendFDs (w σ3) = [3] /\
    errHeap σ3 !! errCh = Some fresh_chan /\
    recvFDChans (w σ3) !! mkKey 7 7 = Some [fdCh] /\
    fdHeap σ3 !! fdCh = Some fresh_chan /\
    close example_net σ3 = Ret (e2, σ4) /\
    nclose (conn σ4) = S (S (nclose (conn example_busy))) /\
    errHeap σ4 !! errCh = Some (mkChan [ErrConnClosed 3] 1 true) /\
    fdtable (os σ4) !! 3 = None /\
    fdHeap σ4 !! fdCh = Some (mkChan [] 1 true) /\
    w σ4 = wrapConn.
Proof.
  apply (operations_after_close_wait_for_next_close example_net 0 3 7 7 example_busy).
  - apply wf_example_busy.
  - vm_compute. reflexivity.
Defined.

(** X28: a RecvFile that is still waiting when the wrapper is closed:
    close closes the waiter's channel without a value, and the relay of
    RecvFile, run afterwards, ends and closes the file channel without
    a file. *)
Theorem RecvFile_pending_at_close
    (net : NetConn) (device inode : Z) (fuel : nat) (σ : World) :
  wf σ ->
  recvedFDs (w σ) !! mkKey device inode = None ->
  (1 <= fuel)%nat ->
  exists fileCh g σ1 e σ2 σ3,
    RecvFile device inode σ = Ret (fileCh, σ1) /\
    goroutines σ1 = goroutines σ ++ [g] /\
    fileHeap σ1 !! fileCh = Some fresh_chan /\
    close net σ1 = Ret (e, σ2) /\
    run fuel g σ2 = Ret (tt, σ3) /\
    fileHeap σ3 !! fileCh = Some (mkChan [] 1 true) /\
    w σ3 = wrapConn.
Proof.
  intros Hwf Hnone Hfuel.
  pose proof (RecvFile_spec device inode σ) as Hspec.
  rewrite RecvFD_spec in Hspec. cbn zeta in Hspec.
  cbn [set_fileHeap w] in Hspec. rewrite Hnone in Hspec.
  cbn [fdHeap os errHeap fileHeap conn goroutines w set_goroutines] in Hspec.
  match type of Hspec with _ = Ret (_, ?s) => set (σ1 := s) in * end.
  set (fdCh := length (fdHeap σ)) in *.
  set (fileCh := length (fileHeap σ)) in *.
  assert (wf σ1) as Hwf1.
  { destruct (RecvFile_wf device inode σ Hwf) as (ch & σ' & Hrun & Hwf').
    rewrite Hspec in Hrun. by injection Hrun as _ <-. }
  destruct (close_ok net σ1 Hwf1) as (σ2 & Hclose & Hpost).
  destruct (close_frame net σ1 Hwf1) as (σ2' & Hclose' & Hfile & _).
  rewrite Hclose in Hclose'. injection Hclose' as <-.
  destruct Hpost as (Hw2 & _ & _ & _ & _ & _ & Hwait & _).
  assert (fdHeap σ2 !! fdCh = Some (mkChan [] 1 true)) as Hfd.
  { apply (Hwait (mkKey device inode)
             (default [] (recvFDChans (w σ) !! mkKey device inode) ++ [fdCh]) fdCh).
    - cbn. apply lookup_insert_eq.
    - apply elem_of_app. right. left. }
  assert (fileHeap σ2 !! fileCh = Some fresh_chan) as Hfl.
  { rewrite Hfile. cbn. apply lookup_snoc_new. }
  pose proof (FileRelay_loop_closed [] fuel fdCh fileCh σ2 1%nat [] 1%nat Hfd Hfl
                ltac:(cbn; lia) ltac:(cbn; lia)) as Hrelay.
  eexists fileCh, _, σ1, _, σ2, _.
  split; [exact Hspec|]. split; [reflexivity|].
  split; [cbn; apply lookup_snoc_new|].
  split; [exact Hclose|].
  split; [exact Hrelay|].
  cbn [set_fileHeap set_fdHeap fileHeap w].
  split; [|done].
  apply list_lookup_insert_eq. by eapply lookup_lt_Some.
Qed.

Lemma RecvFile_pending_at_close_witness :
  exists fileCh g σ1 e σ2 σ3,
    RecvFile 7 7 example_busy = Ret (fileCh, σ1) /\
    goroutines σ1 = goroutines example_busy ++ [g] /\
    fileHeap σ1 !! fileCh = Some fresh_chan /\
    close example_net σ1 = Ret (e, σ2) /\
    run 1 g σ2 = Ret (tt, σ3) /\
    fileHeap σ3 !! fileCh = Some (mkChan [] 1 true) /\
    w σ3 = wrapConn.
Proof.
  apply (RecvFile_pending_at_close example_net 7 7 1 example_busy).
  - apply wf_example_busy.
  - reflexivity.
  - lia.
Defined.
